(** * Graded-noise stimulus generation: the perturbation engine

    A shallow embedding of the note-event randomizers ([mus_const_pert.py],
    [musical_pert_comb.py], [musical_pert.py]), of the frame-jitter transform
    and its batch loop ([audio_pert.py]) and of the SNR noise injector
    ([noise_adder.py]).

    Python floats are idealised: the note-event and frame-jitter code, which
    only adds, multiplies, divides and compares, is modelled over the
    rationals [Q] and evaluates; the SNR injector, which takes square roots
    and real powers, is modelled over the reals [R].  There the rounding
    error of float64 is outside the model.  Where a property turns on the
    rounding, the size of a sample and the floor of a duration, the
    note-event randomizers are modelled a second time with every operation
    rounded to binary64 ([Binary64]); overflow, infinities and nan stay
    outside.  The global numpy generator is a state threaded through every
    sampler. *)

From Stdlib Require Import Floats.
From Stdlib Require Import ZArith QArith Qround Qminmax Qabs Qpower Lia Lqa.
From Stdlib Require Import Permutation Reals Lra.
From stdpp Require Import base option list gmap.

Local Open Scope Z_scope.

(** ** Exceptions and the generator-state monad *)

(** The Python exceptions the modelled code can raise. *)
Inductive exn : Type :=
  | ValueError          (* numpy: bad sample size, bad bounds, empty reduction,
                           shapes that do not broadcast *)
  | ZeroDivisionError   (* integer floor division by zero *)
  | IndexError.         (* list index out of range *)

Inductive outcome (A : Type) : Type :=
  | Ok (a : A)
  | Raise (e : exn).
Arguments Ok {A} a.
Arguments Raise {A} e.

(** A computation that reads and advances a state [S] (the random generator,
    or the generator together with the object store) and may raise. *)
Definition M (S A : Type) : Type := S -> outcome (A * S).

Definition ret {S A} (a : A) : M S A := fun s => Ok (a, s).

Definition bind {S A B} (m : M S A) (k : A -> M S B) : M S B :=
  fun s => match m s with
           | Ok (a, s') => k a s'
           | Raise e => Raise e
           end.

Definition raise {S A} (e : exn) : M S A := fun _ => Raise e.

(** Lifting of a sampler that cannot fail. *)
Definition draw {S A} (f : S -> A * S) : M S A := fun s => Ok (f s).

Notation "'let*' x ':=' m 'in' k" := (bind m (fun x => k))
  (at level 10, x pattern, m at level 200, k at level 200).

(** [for x in xs: acc = body(x, acc)], left to right, stopping at the first
    exception. *)
Fixpoint for_each {S A B} (xs : list A) (body : A -> B -> M S B) (acc : B)
  : M S B :=
  match xs with
  | [] => ret acc
  | x :: xs' => let* acc' := body x acc in for_each xs' body acc'
  end.

(** ** Python numerics over the rationals *)

(** [int(x)] on a float: truncation towards zero. *)
Definition py_int (x : Q) : Z := Z.quot (Qnum x) (Z.pos (Qden x)).

(** [round(x)] on a float: to the nearest integer, ties to the even one. *)
Definition py_round (x : Q) : Z :=
  let f := Qfloor x in
  let r := (x - inject_Z f)%Q in
  match (r ?= 1 # 2)%Q with
  | Lt => f
  | Gt => f + 1
  | Eq => if Z.even f then f else f + 1
  end.

(** [max(a, b)] and [min(a, b)]: the first argument wins a tie. *)
Definition py_max (a b : Q) : Q := if Qlt_le_dec a b then b else a.

Definition py_maxZ (a b : Z) : Z := if a <? b then b else a.
Definition py_minZ (a b : Z) : Z := if b <? a then b else a.

(** [max(xs)] and [min(xs)] of a non-empty list of integers. *)
Definition list_maxZ (x : Z) (xs : list Z) : Z := fold_left py_maxZ xs x.
Definition list_minZ (x : Z) (xs : list Z) : Z := fold_left py_minZ xs x.

Definition Qsum (xs : list Q) : Q := fold_right Qplus 0%Q xs.

Definition Qlen {A} (xs : list A) : Q := inject_Z (Z.of_nat (length xs)).

(** [np.mean]. *)
Definition np_mean (xs : list Q) : Q := (Qsum xs / Qlen xs)%Q.

(** ** float64 arithmetic *)

(** A Python float is a binary64 number; a finite one is a rational.  An
    operation on floats returns the exact result rounded to the nearest
    binary64 number, ties to the one with the even significand.  Results
    are taken to stay in the finite range. *)

(** The binade of a positive rational [x]: the [e] with
    [2^e <= x < 2^(e+1)]. *)
Definition binade (x : Q) : Z :=
  let e := Z.log2 (Qnum x) - Z.log2 (Z.pos (Qden x)) in
  if Qle_bool (2 ^ e) x then e else e - 1.

(** The exponent of the unit in the last place of a binary64 number near
    [x > 0]: 53 significant bits, and nothing finer than [2^-1074]. *)
Definition ulp_exponent (x : Q) : Z := Z.max (binade x - 52) (-1074).

(** Rounding to the nearest multiple of [2^q], ties to the even one. *)
Definition round_to (q : Z) (x : Q) : Q :=
  (inject_Z (py_round (x / 2 ^ q)) * 2 ^ q)%Q.

(** Rounding of a real result to binary64, to nearest and ties to even. *)
Definition fl64 (x : Q) : Q :=
  match (x ?= 0)%Q with
  | Eq => 0%Q
  | Gt => Qred (round_to (ulp_exponent x) x)
  | Lt => Qred (- round_to (ulp_exponent (- x)) (- x))
  end.

(** The rational that a finite binary64 number of the kernel stands for. *)
Definition Q_of_float (f : float) : option Q :=
  match Prim2SF f with
  | S754_zero _ => Some 0%Q
  | S754_finite s m e =>
      Some (Qred ((if s then -1 else 1) * inject_Z (Z.pos m) * 2 ^ e))
  | _ => None
  end.

(** Agreement of a float of the kernel with a rational, and the pairs of
    integers from 1 to 40 it is tested on. *)
Definition agrees (f : float) (q : Q) : bool :=
  match Q_of_float f with
  | Some r => Qeq_bool r q
  | None => false
  end.

Definition float_of_Z (z : Z) : float := PrimFloat.of_uint63 (Uint63.of_Z z).

Definition grid : list (Z * Z) :=
  flat_map (fun n => map (fun m => (Z.of_nat n, Z.of_nat m)) (seq 1 40))
           (seq 1 40).

(** ** The numpy generator *)

(** The primitives of [numpy.random]'s global generator that the samplers
    below are built from, with the ranges numpy guarantees for them. *)
Class RandomState (G : Type) : Type := {
  (** [permutation(n)]: a shuffled [arange(n)] *)
  permutation : nat -> G -> list nat * G;
  (** [random_sample()]: a float in [0, 1) *)
  random_sample : G -> Q * G;
  (** [standard_normal()] *)
  standard_normal : G -> Q * G;
  (** a bounded integer in [0, n), for [0 < n] *)
  random_below : Z -> G -> Z * G;
  permutation_perm : forall n g, Permutation (fst (permutation n g)) (seq 0 n);
  random_sample_range : forall g,
    (0 <= fst (random_sample g))%Q /\ (fst (random_sample g) < 1)%Q;
  random_below_range : forall n g, 0 < n -> 0 <= fst (random_below n g) < n
}.

(** The square root of the numeric library, a function on floats; only its
    sign is used. *)
Class FloatSqrt : Type := {
  np_sqrt : Q -> Q;
  np_sqrt_nonneg : forall x, (0 <= np_sqrt x)%Q
}.

Section Samplers.
Context {G : Type} `{RandomState G}.

(** [np.random.choice(n, size, replace=False)]: the first [size] entries
    of a permutation, or [ValueError] when the sample is larger than the
    population or the size is negative. *)
Definition choice (n : nat) (size : Z) : M G (list nat) :=
  if (Z.of_nat n <? size) || (size <? 0) then raise ValueError
  else let* p := draw (permutation n) in ret (firstn (Z.to_nat size) p).

(** [np.random.uniform(low, high)]. *)
Definition uniform (low high : Q) : M G Q :=
  let* u := draw random_sample in ret (low + (high - low) * u)%Q.

(** [np.random.normal(loc, scale)]; a negative scale is a [ValueError]. *)
Definition normal (loc scale : Q) : M G Q :=
  if Qlt_le_dec scale 0 then raise ValueError
  else let* z := draw standard_normal in ret (loc + scale * z)%Q.

(** [np.random.randint(low, high)]: an integer in [low, high);
    [ValueError] when [low >= high]. *)
Definition randint (low high : Z) : M G Z :=
  if low <? high then let* r := draw (random_below (high - low)) in ret (low + r)
  else raise ValueError.
End Samplers.

(** ** The note-event model *)

(** [pretty_midi.Note]: a pitch and its onset and offset in seconds. *)
Record Note : Type := { pitch : Z; start : Q; end_ : Q }.

(** [pretty_midi.Instrument]: a track. *)
Record Instrument : Type := { program : Z; is_drum : bool; notes : list Note }.

(** [pretty_midi.PrettyMIDI]: the score. *)
Record PrettyMIDI : Type := { instruments : list Instrument }.

Definition set_pitch (n : Note) (p : Z) : Note :=
  {| pitch := p; start := start n; end_ := end_ n |}.
Definition set_start (n : Note) (t : Q) : Note :=
  {| pitch := pitch n; start := t; end_ := end_ n |}.
Definition set_end (n : Note) (t : Q) : Note :=
  {| pitch := pitch n; start := start n; end_ := t |}.
Definition set_notes (i : Instrument) (ns : list Note) : Instrument :=
  {| program := program i; is_drum := is_drum i; notes := ns |}.

(** [get_pitch_range(instrument, padding)] of mus_const_pert.py. *)
Definition get_pitch_range (instrument : Instrument) (padding : Z) : Z * Z :=
  match map pitch (notes instrument) with
  | [] => (21, 108)
  | p :: ps =>
      let min_pitch := py_maxZ 21 (list_minZ p ps - padding) in
      let max_pitch := py_minZ 108 (list_maxZ p ps + padding) in
      (min_pitch, max_pitch)
  end.

(** [np.std]: the population standard deviation. *)
Definition np_std `{FloatSqrt} (xs : list Q) : Q :=
  let m := np_mean xs in
  np_sqrt (np_mean (map (fun x => Qabs (x - m) * Qabs (x - m))%Q xs)).

(** [int(noise_level * num_notes)]. *)
Definition num_notes_to_randomize (noise_level : Q) (num_notes : nat) : Z :=
  py_int (noise_level * inject_Z (Z.of_nat num_notes)).

Section Randomizer.
Context {G : Type} `{RandomState G} `{FloatSqrt}.

(** The three index arrays drawn for one track, in the order pitch, timing,
    duration. *)
Definition draw_indices (noise_level : Q) (num_notes : nat)
  : M G (list nat * list nat * list nat) :=
  let k := num_notes_to_randomize noise_level num_notes in
  let* indices_pitch := choice num_notes k in
  let* indices_timing := choice num_notes k in
  let* indices_duration := choice num_notes k in
  ret (indices_pitch, indices_timing, indices_duration).

(** [instrument.notes[idx]], read. *)
Definition note_at (ns : list Note) (idx : nat) : M G Note :=
  match ns !! idx with
  | Some n => ret n
  | None => raise IndexError
  end.

(** Body of the start-time loop: shift a note, keeping its duration. *)
Definition shift_note (max_shift : Q) (idx : nat) (ns : list Note)
  : M G (list Note) :=
  let* original_note := note_at ns idx in
  let* shift := uniform (- max_shift) max_shift in
  let new_start := (start original_note + shift)%Q in
  let new_start := py_max 0 new_start in
  let duration := (end_ original_note - start original_note)%Q in
  let new_end := (new_start + duration)%Q in
  ret (<[idx := set_end (set_start original_note new_start) new_end]> ns).

(** Body of the duration loop: change a note's duration, floored at 0.1 s. *)
Definition stretch_note (max_change : Q) (idx : nat) (ns : list Note)
  : M G (list Note) :=
  let* original_note := note_at ns idx in
  let* change := uniform (- max_change) max_change in
  let new_duration := ((end_ original_note - start original_note) + change)%Q in
  let new_duration := py_max (1 # 10) new_duration in
  ret (<[idx := set_end original_note (start original_note + new_duration)]> ns).

(** [for instrument in pm.instruments: ...], each track rewritten in place. *)
Fixpoint each_instrument (body : Instrument -> M G Instrument)
  (tracks : list Instrument) : M G (list Instrument) :=
  match tracks with
  | [] => ret []
  | i :: rest =>
      let* i' := body i in
      let* rest' := each_instrument body rest in
      ret (i' :: rest')
  end.
End Randomizer.

(** ** mus_const_pert.py: range-preserving randomizer *)

Module MusConstPert.
Section Code.
Context {G : Type} `{RandomState G} `{FloatSqrt}.

(** Body of the pitch loop. *)
Definition randomize_pitch (preserve_range : bool) (min_pitch max_pitch : Z)
  (pitch_std noise_level : Q) (idx : nat) (ns : list Note) : M G (list Note) :=
  let* original_note := note_at ns idx in
  let* new_pitch :=
    (if preserve_range then
       let* x := normal (inject_Z (pitch original_note))
                        (pitch_std * noise_level) in
       let new_pitch := py_round x in
       ret (py_maxZ min_pitch (py_minZ max_pitch new_pitch))
     else randint min_pitch (max_pitch + 1)) in
  ret (<[idx := set_pitch original_note new_pitch]> ns).

(** The three loops over the drawn index arrays. *)
Definition perturb_notes (noise_level : Q) (preserve_range : bool)
  (min_pitch max_pitch : Z) (pitch_std : Q)
  (indices_pitch indices_timing indices_duration : list nat)
  (ns : list Note) : M G (list Note) :=
  let* ns := for_each indices_pitch
               (randomize_pitch preserve_range min_pitch max_pitch
                                pitch_std noise_level) ns in
  let max_shift := ((1 # 2) * noise_level)%Q in
  let* ns := for_each indices_timing (shift_note max_shift) ns in
  let max_change := ((1 # 2) * noise_level)%Q in
  for_each indices_duration (stretch_note max_change) ns.

(** Body of [for instrument in pm.instruments]. *)
Definition randomize_instrument (noise_level : Q) (preserve_range : bool)
  (instrument : Instrument) : M G Instrument :=
  let num_notes := length (notes instrument) in
  if (num_notes =? 0)%nat then ret instrument
  else
    let '(min_pitch, max_pitch) :=
      if preserve_range then get_pitch_range instrument 12 else (21, 108) in
    let* (indices_pitch, indices_timing, indices_duration) :=
      draw_indices noise_level num_notes in
    let original_pitches :=
      map (fun n => inject_Z (pitch n)) (notes instrument) in
    let pitch_std := np_std original_pitches in
    let* ns := perturb_notes noise_level preserve_range min_pitch max_pitch
                 pitch_std indices_pitch indices_timing indices_duration
                 (notes instrument) in
    ret (set_notes instrument ns).

(** [randomize_midi(pm, noise_level, preserve_range)], on the value of the
    score object. *)
Definition randomize_midi (pm : PrettyMIDI) (noise_level : Q)
  (preserve_range : bool) : M G PrettyMIDI :=
  let* tracks := each_instrument
                   (randomize_instrument noise_level preserve_range)
                   (instruments pm) in
  ret {| instruments := tracks |}.
End Code.
End MusConstPert.

(** ** musical_pert_comb.py: randomizer with fixed windows *)

Module MusicalPertComb.
Section Code.
Context {G : Type} `{RandomState G}.

Definition randomize_pitch (idx : nat) (ns : list Note) : M G (list Note) :=
  let* original_note := note_at ns idx in
  let* new_pitch := randint 21 109 in
  ret (<[idx := set_pitch original_note new_pitch]> ns).

Definition perturb_notes
  (indices_pitch indices_timing indices_duration : list nat)
  (ns : list Note) : M G (list Note) :=
  let* ns := for_each indices_pitch randomize_pitch ns in
  let max_shift := (1 # 2)%Q in
  let* ns := for_each indices_timing (shift_note max_shift) ns in
  let max_change := (1 # 2)%Q in
  for_each indices_duration (stretch_note max_change) ns.

Definition randomize_instrument (noise_level : Q) (instrument : Instrument)
  : M G Instrument :=
  let num_notes := length (notes instrument) in
  if (num_notes =? 0)%nat then ret instrument
  else
    let* (indices_pitch, indices_timing, indices_duration) :=
      draw_indices noise_level num_notes in
    let* ns := perturb_notes indices_pitch indices_timing indices_duration
                 (notes instrument) in
    ret (set_notes instrument ns).

Definition randomize_midi (pm : PrettyMIDI) (noise_level : Q)
  : M G PrettyMIDI :=
  let* tracks := each_instrument (randomize_instrument noise_level)
                   (instruments pm) in
  ret {| instruments := tracks |}.
End Code.
End MusicalPertComb.

(** ** musical_pert.py: pitch-only randomizer *)

Module MusicalPert.
Section Code.
Context {G : Type} `{RandomState G}.

Definition randomize_instrument (noise_level : Q) (instrument : Instrument)
  : M G Instrument :=
  let num_notes := length (notes instrument) in
  let num_notes_to_randomize := num_notes_to_randomize noise_level num_notes in
  let* indices := choice num_notes num_notes_to_randomize in
  let* ns := for_each indices MusicalPertComb.randomize_pitch
               (notes instrument) in
  ret (set_notes instrument ns).

Definition randomize_midi_notes (pm : PrettyMIDI) (noise_level : Q)
  : M G PrettyMIDI :=
  let* tracks := each_instrument (randomize_instrument noise_level)
                   (instruments pm) in
  ret {| instruments := tracks |}.
End Code.
End MusicalPert.

(** ** The note-event scripts in float64 arithmetic *)

(** The randomizers of mus_const_pert.py and musical_pert_comb.py once
    more, with every operation on floats rounded by [fl64].  The integer
    arithmetic, the sampling of the index arrays and of the pitches, and
    [np.std], a reduction of which only the sign is used, are those of the
    exact model. *)
Module Binary64.

(** [a + b], [a - b] and [a * b] on floats. *)
Definition add (a b : Q) : Q := fl64 (a + b).
Definition sub (a b : Q) : Q := fl64 (a - b).
Definition mul (a b : Q) : Q := fl64 (a * b).

(** [int(noise_level * num_notes)]: the integer is converted to a float,
    the product is rounded, and [int] truncates it. *)
Definition num_notes_to_randomize (noise_level : Q) (num_notes : nat) : Z :=
  py_int (mul noise_level (fl64 (inject_Z (Z.of_nat num_notes)))).

Section Randomizer.
Context {G : Type} `{RandomState G}.

(** [np.random.uniform(low, high)]: [low + (high - low) * random_sample()]. *)
Definition uniform (low high : Q) : M G Q :=
  let* u := draw random_sample in ret (add low (mul (sub high low) u)).

(** [np.random.normal(loc, scale)]: [loc + scale * standard_normal()]; a
    negative scale is a [ValueError]. *)
Definition normal (loc scale : Q) : M G Q :=
  if Qlt_le_dec scale 0 then raise ValueError
  else let* z := draw standard_normal in ret (add loc (mul scale z)).

Definition draw_indices (noise_level : Q) (num_notes : nat)
  : M G (list nat * list nat * list nat) :=
  let k := num_notes_to_randomize noise_level num_notes in
  let* indices_pitch := choice num_notes k in
  let* indices_timing := choice num_notes k in
  let* indices_duration := choice num_notes k in
  ret (indices_pitch, indices_timing, indices_duration).

(** Body of the start-time loop. *)
Definition shift_note (max_shift : Q) (idx : nat) (ns : list Note)
  : M G (list Note) :=
  let* original_note := note_at ns idx in
  let* shift := uniform (- max_shift) max_shift in
  let new_start := add (start original_note) shift in
  let new_start := py_max 0 new_start in
  let duration := sub (end_ original_note) (start original_note) in
  let new_end := add new_start duration in
  ret (<[idx := set_end (set_start original_note new_start) new_end]> ns).

(** Body of the duration loop; [0.1] is the float nearest to one tenth. *)
Definition stretch_note (max_change : Q) (idx : nat) (ns : list Note)
  : M G (list Note) :=
  let* original_note := note_at ns idx in
  let* change := uniform (- max_change) max_change in
  let new_duration :=
    add (sub (end_ original_note) (start original_note)) change in
  let new_duration := py_max (fl64 (1 # 10)) new_duration in
  ret (<[idx := set_end original_note
                  (add (start original_note) new_duration)]> ns).
End Randomizer.

Module MusConstPert.
Section Code.
Context {G : Type} `{RandomState G} `{FloatSqrt}.

Definition randomize_pitch (preserve_range : bool) (min_pitch max_pitch : Z)
  (pitch_std noise_level : Q) (idx : nat) (ns : list Note) : M G (list Note) :=
  let* original_note := note_at ns idx in
  let* new_pitch :=
    (if preserve_range then
       let* x := normal (inject_Z (pitch original_note))
                        (mul pitch_std noise_level) in
       let new_pitch := py_round x in
       ret (py_maxZ min_pitch (py_minZ max_pitch new_pitch))
     else randint min_pitch (max_pitch + 1)) in
  ret (<[idx := set_pitch original_note new_pitch]> ns).

Definition perturb_notes (noise_level : Q) (preserve_range : bool)
  (min_pitch max_pitch : Z) (pitch_std : Q)
  (indices_pitch indices_timing indices_duration : list nat)
  (ns : list Note) : M G (list Note) :=
  let* ns := for_each indices_pitch
               (randomize_pitch preserve_range min_pitch max_pitch
                                pitch_std noise_level) ns in
  let max_shift := mul (1 # 2) noise_level in
  let* ns := for_each indices_timing (shift_note max_shift) ns in
  let max_change := mul (1 # 2) noise_level in
  for_each indices_duration (stretch_note max_change) ns.

Definition randomize_instrument (noise_level : Q) (preserve_range : bool)
  (instrument : Instrument) : M G Instrument :=
  let num_notes := length (notes instrument) in
  if (num_notes =? 0)%nat then ret instrument
  else
    let '(min_pitch, max_pitch) :=
      if preserve_range then get_pitch_range instrument 12 else (21, 108) in
    let* (indices_pitch, indices_timing, indices_duration) :=
      draw_indices noise_level num_notes in
    let original_pitches :=
      map (fun n => inject_Z (pitch n)) (notes instrument) in
    let pitch_std := np_std original_pitches in
    let* ns := perturb_notes noise_level preserve_range min_pitch max_pitch
                 pitch_std indices_pitch indices_timing indices_duration
                 (notes instrument) in
    ret (set_notes instrument ns).

Definition randomize_midi (pm : PrettyMIDI) (noise_level : Q)
  (preserve_range : bool) : M G PrettyMIDI :=
  let* tracks := each_instrument
                   (randomize_instrument noise_level preserve_range)
                   (instruments pm) in
  ret {| instruments := tracks |}.
End Code.
End MusConstPert.

Module MusicalPertComb.
Section Code.
Context {G : Type} `{RandomState G}.

Definition perturb_notes
  (indices_pitch indices_timing indices_duration : list nat)
  (ns : list Note) : M G (list Note) :=
  let* ns := for_each indices_pitch MusicalPertComb.randomize_pitch ns in
  let max_shift := (1 # 2)%Q in
  let* ns := for_each indices_timing (shift_note max_shift) ns in
  let max_change := (1 # 2)%Q in
  for_each indices_duration (stretch_note max_change) ns.

Definition randomize_instrument (noise_level : Q) (instrument : Instrument)
  : M G Instrument :=
  let num_notes := length (notes instrument) in
  if (num_notes =? 0)%nat then ret instrument
  else
    let* (indices_pitch, indices_timing, indices_duration) :=
      draw_indices noise_level num_notes in
    let* ns := perturb_notes indices_pitch indices_timing indices_duration
                 (notes instrument) in
    ret (set_notes instrument ns).

Definition randomize_midi (pm : PrettyMIDI) (noise_level : Q)
  : M G PrettyMIDI :=
  let* tracks := each_instrument (randomize_instrument noise_level)
                   (instruments pm) in
  ret {| instruments := tracks |}.
End Code.
End MusicalPertComb.

End Binary64.

(** ** Score objects and the noise-level loop of the batch drivers *)

(** A score is a Python object: variables hold references into a store, and
    the randomizers write through the reference they are given. *)
Definition ref : Type := positive.

Section Objects.
Context {G : Type}.

(** An in-place method: the object behind [pm] is rewritten by [f] and [pm]
    itself is returned, as in [return pm].  A reference outside the store
    does not occur in Python; the model raises there. *)
Definition in_place (f : PrettyMIDI -> M G PrettyMIDI) (pm : ref)
  : M (gmap ref PrettyMIDI * G) ref :=
  fun '(h, g) =>
    match h !! pm with
    | None => Raise IndexError
    | Some v =>
        match f v g with
        | Ok (v', g') => Ok (pm, (<[pm := v']> h, g'))
        | Raise e => Raise e
        end
    end.

(** [copy.deepcopy(pm)]: a new object with the same contents. *)
Definition deepcopy (pm : ref) : M (gmap ref PrettyMIDI * G) ref :=
  fun '(h, g) =>
    match h !! pm with
    | None => Raise IndexError
    | Some v => let r := fresh (dom h) in Ok (r, (<[r := v]> h, g))
    end.

(** The choice of [pm_noisy] in the noise-level loop of
    [process_midi_files]: the original object itself at level 0, a
    randomized deep copy otherwise. *)
Definition noisy_score (randomize : ref -> Q -> M (gmap ref PrettyMIDI * G) ref)
  (pm_original : ref) (noise_percent : Q) : M (gmap ref PrettyMIDI * G) ref :=
  let noise_level := (noise_percent / 100)%Q in
  if Qeq_bool noise_level 0 then ret pm_original
  else
    let* pm_noisy := deepcopy pm_original in
    randomize pm_noisy noise_level.
End Objects.

(** ** numpy buffers *)

(** A slice bound as Python normalises it against a length [n]: a negative
    bound counts from the end, and the result is clamped to [0, n]. *)
Definition slice_bound (n i : Z) : Z :=
  if i <? 0 then Z.max 0 (i + n) else Z.min i n.

(** [l[lo:hi]]. *)
Definition py_slice {A} (l : list A) (lo hi : Z) : list A :=
  let n := Z.of_nat (length l) in
  let lo' := slice_bound n lo in
  let hi' := slice_bound n hi in
  firstn (Z.to_nat (hi' - lo')) (skipn (Z.to_nat lo') l).

(** [l[lo:]] and [l[:hi]]. *)
Definition py_slice_from {A} (l : list A) (lo : Z) : list A :=
  py_slice l lo (Z.of_nat (length l)).
Definition py_slice_to {A} (l : list A) (hi : Z) : list A :=
  py_slice l 0 hi.

(** [out[lo:hi] += frame]: the frame must have the length of the slice, or
    length one (it is then broadcast); any other shape is a [ValueError]. *)
Definition iadd_slice (out : list Q) (lo hi : Z) (frame : list Q)
  : outcome (list Q) :=
  let n := Z.of_nat (length out) in
  let a := Z.to_nat (slice_bound n lo) in
  let m := Z.to_nat (slice_bound n hi - slice_bound n lo) in
  let view := firstn m (skipn a out) in
  let rest := skipn m (skipn a out) in
  if (length frame =? m)%nat then
    Ok (firstn a out ++ zip_with Qplus view frame ++ rest)
  else
    match frame with
    | [x] => Ok (firstn a out ++ map (fun v => (v + x)%Q) view ++ rest)
    | _ => Raise ValueError
    end.

(** [np.max(np.abs(x))]; the reduction of an empty array is a
    [ValueError]. *)
Definition peak (x : list Q) : outcome Q :=
  match map Qabs x with
  | [] => Raise ValueError
  | a :: rest => Ok (fold_left py_max rest a)
  end.

(** The guarded peak normalisation that ends every transform of
    audio_pert.py:
    [max_val = np.max(np.abs(x)); if max_val > 0: x = x / max_val]. *)
Definition normalize (x : list Q) : outcome (list Q) :=
  match peak x with
  | Ok max_val =>
      if Qlt_le_dec 0 max_val then Ok (map (fun v => (v / max_val)%Q) x)
      else Ok x
  | Raise e => Raise e
  end.

(** The unguarded [x / np.max(np.abs(x))] of the batch loop.  On a silent
    buffer numpy yields nan samples, which [Q] cannot hold; there the
    division of [Q] yields zeros. *)
Definition scale_by_peak (x : list Q) : outcome (list Q) :=
  match peak x with
  | Ok max_val => Ok (map (fun v => (v / max_val)%Q) x)
  | Raise e => Raise e
  end.

Definition lift {S A} (o : outcome A) : M S A :=
  fun s => match o with Ok a => Ok (a, s) | Raise e => Raise e end.

(** ** audio_pert.py *)

(** The spectral reconstructions: short-time transform, blending with
    random fields or phase jitter, and inverse transform trimmed to the
    input's length.  They run inside librosa on complex spectra and are kept
    abstract. *)
Class Spectral (G : Type) : Type := {
  blend_spectrum : list Q -> Q -> G -> list Q * G;
  jitter_phase : list Q -> Q -> G -> list Q * G;
  blend_spectrum_length : forall x l g,
    length (fst (blend_spectrum x l g)) = length x;
  jitter_phase_length : forall x l g,
    length (fst (jitter_phase x l g)) = length x
}.

Module AudioPert.
Section Code.
Context {G : Type} `{RandomState G} `{Spectral G}.

Definition add_noise_in_frequency_domain (signal : list Q) (noise_level : Q)
  : M G (list Q) :=
  let* noisy_signal := draw (blend_spectrum signal noise_level) in
  lift (normalize noisy_signal).

Definition add_phase_jitter (signal : list Q) (noise_level : Q)
  : M G (list Q) :=
  let* noisy_signal := draw (jitter_phase signal noise_level) in
  lift (normalize noisy_signal).

Definition frame_length_samples (sr : Z) : Z :=
  py_int (inject_Z sr * 10 / 1000).

Definition max_shift_samples (noise_level : Q) (sr : Z) : Z :=
  let max_shift_ms := (10 * noise_level)%Q in
  py_int (inject_Z sr * max_shift_ms / 1000).

(** Body of the frame loop: draw a shift, clip the frame at the buffer's
    ends and add it at the shifted position. *)
Definition place_frame (signal : list Q) (frame_length max_shift : Z)
  (i : Z) (output_signal : list Q) : M G (list Q) :=
  let len_signal := Z.of_nat (length signal) in
  let start := i * frame_length in
  let end_ := start + frame_length in
  let frame := py_slice signal start end_ in
  let* shift := randint (- max_shift) (max_shift + 1) in
  let shifted_start := start + shift in
  let shifted_end := shifted_start + Z.of_nat (length frame) in
  let '(frame, shifted_start) :=
    if shifted_start <? 0
    then (py_slice_from frame (- shifted_start), 0)
    else (frame, shifted_start) in
  let '(frame, shifted_end) :=
    if len_signal <? shifted_end
    then (py_slice_to frame (len_signal - shifted_start), len_signal)
    else (frame, shifted_end) in
  lift (iadd_slice output_signal shifted_start shifted_end frame).

(** The frame loop, before normalisation. *)
Definition jitter_frames (signal : list Q) (noise_level : Q) (sr : Z)
  : M G (list Q) :=
  let frame_length := frame_length_samples sr in
  let max_shift := max_shift_samples noise_level sr in
  if frame_length =? 0 then raise ZeroDivisionError
  else
    let num_frames := Z.of_nat (length signal) / frame_length in
    let output_signal := repeat 0%Q (length signal) in
    for_each (map Z.of_nat (seq 0 (Z.to_nat num_frames)))
             (place_frame signal frame_length max_shift) output_signal.

Definition add_time_domain_jitter (signal : list Q) (noise_level : Q) (sr : Z)
  : M G (list Q) :=
  let* output_signal := jitter_frames signal noise_level sr in
  lift (normalize output_signal).

(** Body of the noise-level loop of [process_midi_files], from the
    normalised [y] to the buffer that is written out. *)
Definition noisy_audio (y : list Q) (sr : Z) (noise_percent : Q)
  : M G (list Q) :=
  let noise_level := (noise_percent / 100)%Q in
  let* y_noisy :=
    (if Qeq_bool noise_level 0 then ret y
     else add_time_domain_jitter y noise_level sr) in
  lift (scale_by_peak y_noisy).
End Code.
End AudioPert.

(** ** noise_adder.py *)

(** [colorednoise.powerlaw_psd_gaussian(exponent=1.0, size=n)]: pink noise
    of [n] samples drawn from the generator. *)
Class ColoredNoise (G : Type) : Type := {
  powerlaw_psd_gaussian : nat -> G -> list R * G;
  powerlaw_psd_gaussian_length : forall n g,
    length (fst (powerlaw_psd_gaussian n g)) = n
}.

Module NoiseAdder.

Definition Rsum (xs : list R) : R := fold_right Rplus 0%R xs.

(** [np.mean] over the reals. *)
Definition Rmean (xs : list R) : R := (Rsum xs / INR (length xs))%R.

(** [calculate_power(signal)]: [np.mean(signal ** 2)]. *)
Definition calculate_power (signal : list R) : R :=
  Rmean (map (fun x => x ^ 2)%R signal).

(** [max(abs(x))] with Python's built-in [max]: [ValueError] on an empty
    sequence. *)
Definition max_abs (x : list R) : outcome R :=
  match map Rabs x with
  | [] => Raise ValueError
  | a :: rest => Ok (fold_left Rmax rest a)
  end.

(** The signal-to-noise ratio in dB of a signal power over a noise power. *)
Definition snr_db_of (signal_power noise_power : R) : R :=
  (10 * (ln (signal_power / noise_power) / ln 10))%R.

Section Code.
Context {G : Type} `{ColoredNoise G}.

(** The noise after scaling, as [add_noise_with_snr] computes it from the
    generated sequence. *)
Definition scale_noise (signal noise : list R) (desired_snr_db : R) : list R :=
  let signal_power := calculate_power signal in
  let desired_noise_power :=
    (signal_power / Rpower 10 (desired_snr_db / 10))%R in
  let current_noise_power := calculate_power noise in
  let scaling_factor := sqrt (desired_noise_power / current_noise_power) in
  map (fun x => x * scaling_factor)%R noise.

(** [add_noise_with_snr(signal, desired_snr_db)]. *)
Definition add_noise_with_snr (signal : list R) (desired_snr_db : R)
  : M G (list R) :=
  let* noise := draw (powerlaw_psd_gaussian (length signal)) in
  let scaled_noise := scale_noise signal noise desired_snr_db in
  let noisy_signal := zip_with Rplus signal scaled_noise in
  let* max_val := lift (max_abs noisy_signal) in
  if Rlt_dec 1 max_val
  then ret (map (fun v => v / max_val)%R noisy_signal)
  else ret noisy_signal.

(** The target ratio of a noise percentage: 40 dB at 0 %, -20 dB at 100 %. *)
Definition snr_of_percent (noise_percent : R) : R :=
  let max_snr := 40%R in
  let min_snr := (-20)%R in
  (max_snr - (noise_percent / 100) * (max_snr - min_snr))%R.

(** Body of the noise-level loop of [process_midi_files]. *)
Definition noisy_audio (y : list R) (noise_percent : R) : M G (list R) :=
  let snr_db := snr_of_percent noise_percent in
  add_noise_with_snr y snr_db.
End Code.
End NoiseAdder.

(** ** The randomizers as Python functions on score objects *)

Section Scripts.
Context {G : Type} `{RandomState G} `{FloatSqrt}.

(** [randomize_midi(pm, noise_level, preserve_range)] of mus_const_pert.py,
    called on a reference. *)
Definition mus_const_pert_randomize (preserve_range : bool) (pm : ref)
  (noise_level : Q) : M (gmap ref PrettyMIDI * G) ref :=
  in_place (fun v => MusConstPert.randomize_midi v noise_level preserve_range)
           pm.

(** [randomize_midi(pm, noise_level)] of musical_pert_comb.py. *)
Definition musical_pert_comb_randomize (pm : ref) (noise_level : Q)
  : M (gmap ref PrettyMIDI * G) ref :=
  in_place (fun v => MusicalPertComb.randomize_midi v noise_level) pm.

(** [randomize_midi_notes(pm, noise_level)] of musical_pert.py. *)
Definition musical_pert_randomize (pm : ref) (noise_level : Q)
  : M (gmap ref PrettyMIDI * G) ref :=
  in_place (fun v => MusicalPert.randomize_midi_notes v noise_level) pm.
End Scripts.

(** ** Sample inputs *)

Definition one_track (ns : list Note) : PrettyMIDI :=
  {| instruments := [ {| program := 0; is_drum := false; notes := ns |} ] |}.

(** One note of 50 ms, and one that starts at 0.7 s, as floats. *)
Definition short_note64 : Note :=
  {| pitch := 60; start := 0; end_ := fl64 (1 # 20) |}.
Definition late_note64 : Note :=
  {| pitch := 60; start := fl64 (7 # 10); end_ := fl64 (3 # 4) |}.

(** One note above the piano range. *)
Definition high_note : Note := {| pitch := 125; start := 0; end_ := 1 |}.

(** Two quarter-second notes. *)
Definition two_notes : list Note :=
  [ {| pitch := 60; start := 0; end_ := 1 # 4 |};
    {| pitch := 64; start := 1 # 4; end_ := 1 # 2 |} ].

(** 450 samples at 44.1 kHz: one full frame of 441 samples and 9 more. *)
Definition short_buffer : list Q := repeat 1%Q 450.

(** ** Postconditions of the randomizers *)

(** What randomization guarantees for the times of a note [n], given the
    note [n0] it started from: a non-negative onset stays non-negative, and
    the duration is either at least 0.1 s or the one it had. *)
Definition timing_post (n0 n : Note) : Prop :=
  ((0 <= start n0)%Q -> (0 <= start n)%Q) /\
  ((1 # 10 <= end_ n - start n)%Q \/
   (end_ n - start n == end_ n0 - start n0)%Q).

(** The same with the pitch: it is the original one or one that satisfies
    [pitch_ok]. *)
Definition note_post (pitch_ok : Z -> Prop) (n0 n : Note) : Prop :=
  (pitch n = pitch n0 \/ pitch_ok (pitch n)) /\ timing_post n0 n.

Definition track_post (pitch_ok : Instrument -> Z -> Prop)
  (i0 i : Instrument) : Prop :=
  program i = program i0 /\ is_drum i = is_drum i0 /\
  Forall2 (note_post (pitch_ok i0)) (notes i0) (notes i).

(** A pitch produced by the clamp [max(lo, min(hi, x))]. *)
Definition clamped (lo hi p : Z) : Prop :=
  exists x, p = py_maxZ lo (py_minZ hi x).

(** The pitches the pitch loop of mus_const_pert.py can assign in a
    track. *)
Definition assigned_pitch (preserve_range : bool) (i : Instrument) (p : Z)
  : Prop :=
  if preserve_range
  then clamped (fst (get_pitch_range i 12)) (snd (get_pitch_range i 12)) p
  else 21 <= p <= 108.

(** What one step of the pitch loop needs in order not to raise, and the
    pitches it can assign, for pitch bounds [lo] and [hi]. *)
Definition pitch_pre (preserve_range : bool) (lo hi : Z) (scale : Q) : Prop :=
  (preserve_range = true -> (0 <= scale)%Q) /\
  (preserve_range = false -> lo <= hi).

Definition pitch_ok (preserve_range : bool) (lo hi : Z) (p : Z) : Prop :=
  if preserve_range then clamped lo hi p else lo <= p <= hi.

(** [end - start]. *)
Definition duration (n : Note) : Q := (end_ n - start n)%Q.

(** Two note lists of one length related position by position. *)
Definition pointwise (R : nat -> Note -> Note -> Prop)
  (ns0 ns : list Note) : Prop :=
  length ns = length ns0 /\
  forall j n0 n, ns0 !! j = Some n0 -> ns !! j = Some n -> R j n0 n.

(** A buffer all of whose samples are zero. *)
Definition silent (x : list Q) : Prop := Forall (fun v => (v == 0)%Q) x.

(** What every transform of audio_pert.py emits: a buffer whose peak is
    one, or a silent buffer. *)
Definition unit_peak_or_silent (out : list Q) : Prop :=
  exists p, peak out = Ok p /\ ((p == 1)%Q \/ ((p == 0)%Q /\ silent out)).

(** A transform of audio_pert.py that reaches its normalisation with the
    buffer [pre] emits [out]: the same length, peak one or silence, and a
    silent [pre] handed on as it is. *)
Definition emitted (pre out : list Q) : Prop :=
  length out = length pre /\ unit_peak_or_silent out
  /\ (silent pre -> out = pre).

(** The result of a run without the final state. *)
Definition value {A S} (o : outcome (A * S)) : outcome A :=
  match o with
  | Ok (a, _) => Ok a
  | Raise e => Raise e
  end.

(** The end of the last full frame of a buffer: the number of whole frames
    times the frame length. *)
Definition last_frame_end (signal : list Q) (sr : Z) : Z :=
  Z.of_nat (length signal) / AudioPert.frame_length_samples sr
  * AudioPert.frame_length_samples sr.

(** The number of notes a track would have randomized is a valid sample
    size for it. *)
Definition sample_size_ok (noise_level : Q) (i : Instrument) : Prop :=
  0 <= num_notes_to_randomize noise_level (length (notes i))
    <= Z.of_nat (length (notes i)).

(** ** What randomization does to one note *)

(** An index array as [np.random.choice(N, k, replace=False)] returns
    it. *)
Definition drawn (k : Z) (N : nat) (idx : list nat) : Prop :=
  length idx = Z.to_nat k /\ NoDup idx
  /\ Forall (fun i => (i < N)%nat) idx.

(** The note [n] at position [j] of a randomized track against the note
    [n0] it started from, for the index arrays [ip], [it], [id] of the
    pitch, start-time and duration loops: a drawn pitch satisfies [ok], a
    drawn start time is the old one moved by at most [max_shift] and
    floored at 0, a drawn duration is the old one changed by at most
    [max_change] and floored at 0.1 s; what was not drawn is kept. *)
Definition note_change (ok : Z -> Prop) (max_shift max_change : Q)
  (ip it id : list nat) (j : nat) (n0 n : Note) : Prop :=
  ((j ∈ ip -> ok (pitch n)) /\ (j ∉ ip -> pitch n = pitch n0))
  /\ ((j ∉ it -> start n = start n0)
      /\ (j ∈ it ->
          exists shift,
            (- max_shift <= shift)%Q /\ (shift <= max_shift)%Q
            /\ start n = py_max 0 (start n0 + shift)))
  /\ ((j ∉ id -> (duration n == duration n0)%Q)
      /\ (j ∈ id ->
          exists change,
            (- max_change <= change)%Q /\ (change <= max_change)%Q
            /\ (duration n == py_max (1 # 10) (duration n0 + change))%Q)).

(** A randomized track against the track it started from. *)
Definition track_change (ok : Z -> Prop) (max_shift max_change : Q)
  (noise_level : Q) (i0 i : Instrument) : Prop :=
  program i = program i0 /\ is_drum i = is_drum i0
  /\ exists ip it id,
       let k := num_notes_to_randomize noise_level (length (notes i0)) in
       let N := length (notes i0) in
       drawn k N ip /\ drawn k N it /\ drawn k N id
       /\ pointwise (note_change ok max_shift max_change ip it id)
                    (notes i0) (notes i).

(** ** What randomization does to the times of a note in float64 *)

(** What the three loops do to the times of a note. *)
Definition kept_times (a b : Note) : Prop :=
  start b = start a /\ end_ b = end_ a.

Definition shifted64 (a b : Note) : Prop :=
  exists shift,
    start b = py_max 0 (Binary64.add (start a) shift)
    /\ end_ b = Binary64.add (start b) (Binary64.sub (end_ a) (start a)).

Definition stretched64 (a b : Note) : Prop :=
  start b = start a
  /\ exists d, (fl64 (1 # 10) <= d)%Q /\ end_ b = Binary64.add (start a) d.

(** The times of the note [n] at position [j] of a track randomized in
    float64 arithmetic against the note [n0] it started from, when [it] and
    [id] are the positions drawn for the start-time and the duration loop.
    An onset that was not negative is not negative.  A note drawn for the
    duration loop ends at the float sum of its onset and some [d] that is at
    least the float 0.1, hence not before the float sum of its onset and
    0.1; when its onset is not negative, it lasts at least 0.1 s less the
    fraction [2^-53] of [onset + 0.1].  A note drawn for neither loop keeps
    both times, and one drawn for the start-time loop only ends at the
    float sum of its new onset and the float difference of its old
    times. *)
Definition note_times64 (it id : list nat) (j : nat) (n0 n : Note) : Prop :=
  ((0 <= start n0)%Q -> (0 <= start n)%Q)
  /\ (j ∈ id ->
      (exists d, (fl64 (1 # 10) <= d)%Q
                 /\ end_ n = Binary64.add (start n) d)
      /\ (Binary64.add (start n) (fl64 (1 # 10)) <= end_ n)%Q
      /\ ((0 <= start n)%Q ->
          ((1 # 10) - 2 ^ (-53) * (start n + fl64 (1 # 10))
           <= end_ n - start n)%Q))
  /\ (j ∉ id -> j ∉ it -> start n = start n0 /\ end_ n = end_ n0)
  /\ (j ∉ id -> j ∈ it ->
      end_ n = Binary64.add (start n)
                            (Binary64.sub (end_ n0) (start n0))).

(** A track randomized in float64 arithmetic against the track it started
    from: the positions of the start-time and of the duration loop are
    [int(noise_level * N)] distinct positions below [N] each. *)
Definition track_times64 (noise_level : Q) (i0 i : Instrument) : Prop :=
  exists it id,
    let k := Binary64.num_notes_to_randomize noise_level
               (length (notes i0)) in
    let N := length (notes i0) in
    drawn k N it /\ drawn k N id
    /\ pointwise (note_times64 it id) (notes i0) (notes i).

(** ** The audio clip of mus_const_pert.py and musical_pert_comb.py *)

(** [int(clip_duration * sr)]. *)
Definition clip_samples_of (clip_duration : Q) (sr : Z) : Z :=
  py_int (clip_duration * inject_Z sr).

(** The end of the noise-level loop: a buffer longer than the clip is cut
    to a centred window, any other buffer is padded with zeros on both
    sides. *)
Definition clip_audio (y_noisy : list Q) (clip_samples : Z) : list Q :=
  let total_samples := Z.of_nat (length y_noisy) in
  if clip_samples <? total_samples then
    let start_idx := (total_samples - clip_samples) / 2 in
    let end_idx := start_idx + clip_samples in
    py_slice y_noisy start_idx end_idx
  else
    let padding := clip_samples - total_samples in
    let pad_left := padding / 2 in
    let pad_right := padding - pad_left in
    repeat 0%Q (Z.to_nat pad_left) ++ y_noisy
      ++ repeat 0%Q (Z.to_nat pad_right).

(** From the synthesized buffer to the buffer that is written: guarded
    peak normalisation, then the clip. *)
Definition normalize_and_clip (y_noisy : list Q) (clip_duration : Q) (sr : Z)
  : outcome (list Q) :=
  match normalize y_noisy with
  | Ok y => Ok (clip_audio y (clip_samples_of clip_duration sr))
  | Raise e => Raise e
  end.

(** ** The preparation of a score *)

(** [for instrument in pm.instruments: instrument.program = 0;
    instrument.is_drum = False] of [process_midi_files] in the three
    note-event scripts: every track is set to Acoustic Grand Piano and is
    no drum track. *)
Definition set_piano (pm : PrettyMIDI) : PrettyMIDI :=
  {| instruments :=
       map (fun instrument =>
              {| program := 0; is_drum := false; notes := notes instrument |})
           (instruments pm) |}.

(** ** The noise-level loop as a whole *)

(** The object [pm_noisy] chosen at one level against the contents [v] of
    the original object, in the store [h'] the loop ends with: the
    original object itself at level 0; otherwise another object, which
    holds what the randomizer [f] returns on [v] itself at some generator
    state. *)
Definition from_original {G : Type} (f : Q -> PrettyMIDI -> M G PrettyMIDI)
  (pm_original : ref) (v : PrettyMIDI) (h' : gmap ref PrettyMIDI)
  (noise_percent : Q) (pm_noisy : ref) : Prop :=
  if Qeq_bool (noise_percent / 100) 0 then pm_noisy = pm_original
  else
    pm_noisy <> pm_original
    /\ exists t v' t',
         f (noise_percent / 100)%Q v t = Ok (v', t')
         /\ h' !! pm_noisy = Some v'.

(** [pm.synthesize(fs=44100)] of pretty_midi, behind [midi_to_audio]: the
    synthesizer is external and kept abstract. *)
Class Synthesizer : Type := { synthesize : PrettyMIDI -> list Q }.

(** The score behind a reference. *)
Definition read {G : Type} (pm : ref) : M (gmap ref PrettyMIDI * G) PrettyMIDI :=
  fun '(h, g) =>
    match h !! pm with
    | Some v => Ok (v, (h, g))
    | None => Raise IndexError
    end.

(** [for noise_percent in noise_levels] of [process_midi_files] in a
    note-event script: the score of the level is chosen and synthesized,
    and the buffer is normalised (and clipped, where the script clips) by
    [emit] and written.  The result lists, level by level, the score
    object that was synthesized and the buffer that was written; writing
    the file is taken to succeed. *)
Definition process_levels {G : Type} `{Synthesizer}
  (randomize : ref -> Q -> M (gmap ref PrettyMIDI * G) ref)
  (emit : list Q -> outcome (list Q))
  (pm_original : ref) (noise_levels : list Q)
  : M (gmap ref PrettyMIDI * G) (list (ref * list Q)) :=
  for_each noise_levels
    (fun noise_percent written =>
       let* pm_noisy := noisy_score randomize pm_original noise_percent in
       let* score := read pm_noisy in
       let* y_noisy := lift (emit (synthesize score)) in
       ret (written ++ [(pm_noisy, y_noisy)]))
    [].

(** What was written at one level, in the store [h'] the loop ends with:
    the object is chosen as [from_original] says, and the buffer is the
    emitted synthesis of the score that object holds. *)
Definition written_from_original {G : Type} `{Synthesizer}
  (f : Q -> PrettyMIDI -> M G PrettyMIDI)
  (emit : list Q -> outcome (list Q))
  (pm_original : ref) (v : PrettyMIDI) (h' : gmap ref PrettyMIDI)
  (noise_percent : Q) (entry : ref * list Q) : Prop :=
  from_original f pm_original v h' noise_percent (fst entry)
  /\ exists score,
       h' !! fst entry = Some score
       /\ emit (synthesize score) = Ok (snd entry).

(** The original score and every randomization of it at one of the levels
    synthesize to a buffer that is not empty. *)
Definition audible {G : Type} `{Synthesizer}
  (f : Q -> PrettyMIDI -> M G PrettyMIDI) (v : PrettyMIDI)
  (noise_levels : list Q) : Prop :=
  synthesize v <> []
  /\ forall q t v' t',
       q ∈ noise_levels -> f (q / 100)%Q v t = Ok (v', t') ->
       synthesize v' <> [].

(** ** A generator to run the model with *)

(** A counter-driven generator: every primitive reads the counter and
    advances it by one.  It meets the contracts of [RandomState],
    [ColoredNoise] and [Spectral] and serves to evaluate the model on
    concrete inputs. *)
Module Counter.

Definition shuffled (n : nat) (g : Z) : list nat * Z :=
  (if Z.even g then seq 0 n else rev (seq 0 n), g + 1).

Definition sample (g : Z) : Q * Z :=
  (Qmake (g mod 8) 8, g + 1).

Definition gauss (g : Z) : Q * Z :=
  (Qmake (g mod 9 - 4) 2, g + 1).

Definition below (n g : Z) : Z * Z := (g mod n, g + 1).

Definition pink (n : nat) (g : Z) : list R * Z :=
  (repeat (if Z.even g then 1%R else (-1)%R) n, g + 1).

Definition reconstruct (x : list Q) (l : Q) (g : Z) : list Q * Z :=
  (map (fun v => (v + l * Qmake (g mod 8) 8)%Q) x, g + 1).

Lemma shuffled_perm n g : Permutation (fst (shuffled n g)) (seq 0 n).
Proof.
  unfold shuffled; simpl. destruct (Z.even g); [reflexivity|].
  symmetry. apply Permutation_rev.
Qed.

Lemma sample_range g :
  (0 <= fst (sample g))%Q /\ (fst (sample g) < 1)%Q.
Proof.
  unfold sample, Qle, Qlt; simpl.
  pose proof (Z.mod_pos_bound g 8 ltac:(lia)). lia.
Qed.

Lemma below_range n g : 0 < n -> 0 <= fst (below n g) < n.
Proof. intros Hn. simpl. apply Z.mod_pos_bound, Hn. Qed.

Lemma pink_length n g : length (fst (pink n g)) = n.
Proof. simpl. apply repeat_length. Qed.

Lemma reconstruct_length x l g : length (fst (reconstruct x l g)) = length x.
Proof. simpl. apply length_map. Qed.

#[export] Instance random_state : RandomState Z :=
  {| permutation := shuffled;
     random_sample := sample;
     standard_normal := gauss;
     random_below := below;
     permutation_perm := shuffled_perm;
     random_sample_range := sample_range;
     random_below_range := below_range |}.

#[export] Instance colored_noise : ColoredNoise Z :=
  {| powerlaw_psd_gaussian := pink;
     powerlaw_psd_gaussian_length := pink_length |}.

#[export] Instance spectral : Spectral Z :=
  {| blend_spectrum := reconstruct;
     jitter_phase := reconstruct;
     blend_spectrum_length := reconstruct_length;
     jitter_phase_length := reconstruct_length |}.

(** A fixed-point square root with 20 fractional bits. *)
Definition sqrt20 (x : Q) : Q :=
  Qmake (Z.sqrt (Qfloor (x * inject_Z (2 ^ 40)))) (2 ^ 20).

Lemma sqrt20_nonneg x : (0 <= sqrt20 x)%Q.
Proof.
  unfold sqrt20, Qle. cbn [Qnum Qden].
  pose proof (Z.sqrt_nonneg (Qfloor (x * inject_Z (2 ^ 40)))). lia.
Qed.

#[export] Instance float_sqrt : FloatSqrt :=
  {| np_sqrt := sqrt20; np_sqrt_nonneg := sqrt20_nonneg |}.

End Counter.

(** A synthesizer to run the model with: a click, then one sample per
    note. *)
Definition click_synth (pm : PrettyMIDI) : list Q :=
  1%Q :: flat_map (fun i => map (fun n => (inject_Z (pitch n) / 127)%Q)
                                (notes i))
                  (instruments pm).

#[export] Instance click_synthesizer : Synthesizer :=
  {| synthesize := click_synth |}.

(** ** A generator that plays back given permutations *)

(** The state is the list of the permutations still to be handed out; a
    list that is no permutation of [arange(n)] is replaced by [arange(n)]
    itself.  It serves to show which index arrays can be drawn together. *)
Module Scripted.

Definition shuffled (n : nat) (s : list (list nat))
  : list nat * list (list nat) :=
  match s with
  | p :: rest => (if decide (p ≡ₚ seq 0 n) then p else seq 0 n, rest)
  | [] => (seq 0 n, [])
  end.

Lemma scripted_perm (n : nat) (s : list (list nat)) :
  Permutation (fst (shuffled n s)) (seq 0 n).
Proof.
  destruct s as [|p rest]; cbn; [reflexivity|].
  destruct (decide (p ≡ₚ seq 0 n)); [assumption|reflexivity].
Qed.

Lemma scripted_sample_range (s : list (list nat)) :
  (0 <= fst (0%Q, s))%Q /\ (fst (0%Q, s) < 1)%Q.
Proof. cbn. split; [apply Qle_refl|reflexivity]. Qed.

Lemma scripted_below_range (n : Z) (s : list (list nat)) :
  0 < n -> 0 <= fst (0, s) < n.
Proof. cbn. lia. Qed.

#[export] Instance random_state : RandomState (list (list nat)) :=
  {| permutation := shuffled;
     random_sample := fun s => (0%Q, s);
     standard_normal := fun s => (0%Q, s);
     random_below := fun _ s => (0, s);
     permutation_perm := scripted_perm;
     random_sample_range := scripted_sample_range;
     random_below_range := scripted_below_range |}.

(** A permutation of [arange(n)] that starts with [idx]. *)
Definition starting_with (n : nat) (idx : list nat) : list nat :=
  idx ++ filter (fun i => i ∉ idx) (seq 0 n).
End Scripted.

(** * Properties *)

(** ** The monad and the samplers *)

Lemma bind_Ok {S A B} (m : M S A) (k : A -> M S B) s a s' :
  m s = Ok (a, s') -> bind m k s = k a s'.
Proof. unfold bind. intros ->. reflexivity. Qed.

Lemma bind_Raise {S A B} (m : M S A) (k : A -> M S B) s e :
  m s = Raise e -> bind m k s = Raise e.
Proof. unfold bind. intros ->. reflexivity. Qed.

Lemma bind_inv {S A B} (m : M S A) (k : A -> M S B) s b s'' :
  bind m k s = Ok (b, s'') ->
  exists a s', m s = Ok (a, s') /\ k a s' = Ok (b, s'').
Proof.
  unfold bind. destruct (m s) as [[a s']|e]; [|discriminate].
  intros Hk. exists a, s'. split; [reflexivity|exact Hk].
Qed.

Lemma py_int_nonneg (x : Q) : (0 <= x)%Q -> py_int x = Qfloor x.
Proof.
  destruct x as [n d]. unfold py_int, Qfloor, Qle. cbn [Qnum Qden].
  intros Hn. apply Z.quot_div_nonneg; lia.
Qed.

Lemma py_int_bounds (x : Q) (n : Z) :
  (0 <= x)%Q -> (x <= inject_Z n)%Q -> 0 <= py_int x <= n.
Proof.
  intros H0 Hn. rewrite py_int_nonneg by exact H0. split.
  - change 0 with (Qfloor (inject_Z 0)). apply Qfloor_resp_le, H0.
  - rewrite <- (Qfloor_Z n). apply Qfloor_resp_le, Hn.
Qed.

Lemma py_int_mono (x y : Q) :
  (0 <= x)%Q -> (x <= y)%Q -> 0 <= py_int x <= py_int y.
Proof.
  intros H0 Hxy. rewrite !py_int_nonneg by Lqa.lra. split.
  - change 0 with (Qfloor (inject_Z 0)). apply Qfloor_resp_le, H0.
  - apply Qfloor_resp_le, Hxy.
Qed.

Lemma Qlen_nonneg {A} (xs : list A) : (0 <= Qlen xs)%Q.
Proof. unfold Qlen, Qle. cbn. lia. Qed.

(** For a noise level in [0, 1] the number of notes to randomize lies
    between 0 and the number of notes. *)
Lemma num_notes_to_randomize_bounds (noise_level : Q) (num_notes : nat) :
  (0 <= noise_level)%Q -> (noise_level <= 1)%Q ->
  0 <= num_notes_to_randomize noise_level num_notes <= Z.of_nat num_notes.
Proof.
  intros H0 H1. unfold num_notes_to_randomize.
  assert (0 <= inject_Z (Z.of_nat num_notes))%Q by (unfold Qle; cbn; lia).
  apply py_int_bounds; Lqa.nra.
Qed.

Section SamplerFacts.
Context {G : Type} `{RandomState G}.

Lemma choice_in_range (n : nat) (size : Z) (g : G) :
  0 <= size <= Z.of_nat n ->
  choice n size g =
    Ok (take (Z.to_nat size) (fst (permutation n g)), snd (permutation n g)).
Proof.
  intros Hs. unfold choice.
  replace (Z.of_nat n <? size) with false by (symmetry; apply Z.ltb_ge; lia).
  replace (size <? 0) with false by (symmetry; apply Z.ltb_ge; lia).
  cbn. unfold bind, draw, ret. destruct (permutation n g); reflexivity.
Qed.

Lemma choice_out_of_range (n : nat) (size : Z) (g : G) :
  Z.of_nat n < size \/ size < 0 -> choice n size g = Raise ValueError.
Proof.
  intros Hs. unfold choice.
  destruct (Z.ltb_spec (Z.of_nat n) size), (Z.ltb_spec size 0);
    cbn; try reflexivity; lia.
Qed.

Lemma choice_outcome (n : nat) (size : Z) (g : G) :
  (0 <= size <= Z.of_nat n /\
   choice n size g =
     Ok (take (Z.to_nat size) (fst (permutation n g)), snd (permutation n g)))
  \/ ((Z.of_nat n < size \/ size < 0) /\ choice n size g = Raise ValueError).
Proof.
  destruct (Z_le_dec 0 size), (Z_le_dec size (Z.of_nat n));
    try (right; split; [lia|apply choice_out_of_range; lia]).
  left. split; [lia|apply choice_in_range; lia].
Qed.

(** What a successful [choice] returns: [size] distinct positions below
    [n]. *)
Lemma choice_spec (n : nat) (size : Z) (g g' : G) (idx : list nat) :
  choice n size g = Ok (idx, g') ->
  0 <= size <= Z.of_nat n /\
  length idx = Z.to_nat size /\ NoDup idx /\ Forall (fun i => (i < n)%nat) idx.
Proof.
  intros Hc. destruct (choice_outcome n size g) as [[Hs E]|[_ E]];
    rewrite E in Hc; [|discriminate].
  injection Hc as <- <-. pose proof (permutation_perm n g) as Hp.
  split; [exact Hs|]. split; [|split].
  - rewrite length_take_le; [reflexivity|].
    rewrite (Permutation_length Hp), length_seq. lia.
  - eapply sublist_NoDup; [|apply sublist_take].
    rewrite Hp. apply NoDup_seq.
  - apply Forall_take. apply Forall_forall. intros i Hi.
    apply list_elem_of_In in Hi.
    apply (Permutation_in _ Hp), in_seq in Hi. lia.
Qed.

Lemma uniform_Ok (low high : Q) (g : G) :
  exists u, uniform low high g = Ok (u, snd (random_sample g)).
Proof.
  unfold uniform, bind, draw, ret. destruct (random_sample g); eauto.
Qed.

Lemma normal_Ok (loc scale : Q) (g : G) :
  (0 <= scale)%Q ->
  normal loc scale g =
    Ok ((loc + scale * fst (standard_normal g))%Q, snd (standard_normal g)).
Proof.
  intros Hs. unfold normal. destruct (Qlt_le_dec scale 0); [Lqa.lra|].
  unfold bind, draw, ret. destruct (standard_normal g); reflexivity.
Qed.

Lemma randint_Ok (low high : Z) (g : G) :
  low < high ->
  exists r, randint low high g = Ok (r, snd (random_below (high - low) g))
            /\ low <= r < high.
Proof.
  intros Hlh. unfold randint.
  replace (low <? high) with true by (symmetry; apply Z.ltb_lt; lia).
  unfold bind, draw, ret.
  pose proof (random_below_range (high - low) g ltac:(lia)) as Hr.
  destruct (random_below (high - low) g) as [r g']. cbn in *.
  exists (low + r). split; [reflexivity|lia].
Qed.

Lemma randint_outcome (low high : Z) (g : G) :
  (exists r g', randint low high g = Ok (r, g') /\ low <= r < high)
  \/ randint low high g = Raise ValueError.
Proof.
  destruct (Z_lt_dec low high) as [Hl|Hl].
  - left. destruct (randint_Ok low high g Hl) as (r & E & Hr). eauto.
  - right. unfold randint.
    replace (low <? high) with false by (symmetry; apply Z.ltb_ge; lia).
    reflexivity.
Qed.

(** The three index arrays of one track, for a noise level in [0, 1]. *)
Lemma draw_indices_Ok (noise_level : Q) (num_notes : nat) (g : G) :
  0 <= num_notes_to_randomize noise_level num_notes <= Z.of_nat num_notes ->
  exists ip it id g',
    draw_indices noise_level num_notes g = Ok ((ip, it, id), g').
Proof.
  intros Hk. unfold draw_indices.
  erewrite bind_Ok by (apply choice_in_range, Hk).
  erewrite bind_Ok by (apply choice_in_range, Hk).
  erewrite bind_Ok by (apply choice_in_range, Hk).
  unfold ret. eauto 6.
Qed.

Lemma draw_indices_spec (noise_level : Q) (num_notes : nat) (g g' : G)
  (ip it id : list nat) :
  draw_indices noise_level num_notes g = Ok ((ip, it, id), g') ->
  let k := num_notes_to_randomize noise_level num_notes in
  let good idx := length idx = Z.to_nat k /\ NoDup idx
                  /\ Forall (fun i => (i < num_notes)%nat) idx in
  0 <= k <= Z.of_nat num_notes /\ good ip /\ good it /\ good id.
Proof.
  unfold draw_indices. intros Hd.
  apply bind_inv in Hd as (ip' & g1 & H1 & Hd).
  apply bind_inv in Hd as (it' & g2 & H2 & Hd).
  apply bind_inv in Hd as (id' & g3 & H3 & Hd).
  unfold ret in Hd. injection Hd as -> -> -> ->.
  apply choice_spec in H1 as (Hk & H1), H2 as (_ & H2), H3 as (_ & H3).
  cbv zeta. tauto.
Qed.

Lemma draw_indices_Raise (noise_level : Q) (num_notes : nat) (g : G) :
  let k := num_notes_to_randomize noise_level num_notes in
  Z.of_nat num_notes < k \/ k < 0 ->
  draw_indices noise_level num_notes g = Raise ValueError.
Proof.
  intros k Hk. unfold draw_indices. apply bind_Raise.
  apply choice_out_of_range, Hk.
Qed.
End SamplerFacts.

(** ** The note loops *)

Lemma py_max_ge_l (a b : Q) : (a <= py_max a b)%Q.
Proof. unfold py_max. destruct (Qlt_le_dec a b); Lqa.lra. Qed.

Lemma py_max_ge_r (a b : Q) : (b <= py_max a b)%Q.
Proof. unfold py_max. destruct (Qlt_le_dec a b); Lqa.lra. Qed.

Lemma py_clamp_range (lo hi x : Z) :
  lo <= hi -> lo <= py_maxZ lo (py_minZ hi x) <= hi.
Proof.
  intros Hlh. unfold py_maxZ, py_minZ.
  destruct (Z.ltb_spec x hi);
    [destruct (Z.ltb_spec lo x)|destruct (Z.ltb_spec lo hi)]; lia.
Qed.

Lemma py_clamp_inverted (lo hi x : Z) :
  hi < lo -> py_maxZ lo (py_minZ hi x) = lo.
Proof.
  intros Hlh. unfold py_maxZ, py_minZ.
  destruct (Z.ltb_spec x hi);
    [destruct (Z.ltb_spec lo x)|destruct (Z.ltb_spec lo hi)]; lia.
Qed.

Lemma for_each_total {S A B} (P : A -> Prop) (I : B -> Prop)
  (xs : list A) (body : A -> B -> M S B) (acc : B) (s : S) :
  Forall P xs -> I acc ->
  (forall x b t, P x -> I b -> exists b' t', body x b t = Ok (b', t') /\ I b') ->
  exists b' s', for_each xs body acc s = Ok (b', s') /\ I b'.
Proof.
  intros HP HI Hbody. revert acc s HI.
  induction HP as [|x xs Hx _ IH]; intros acc s HI; cbn.
  - unfold ret. eauto.
  - destruct (Hbody x acc s Hx HI) as (b & t & E & Hb).
    rewrite (bind_Ok _ _ _ _ _ E). apply IH, Hb.
Qed.

Lemma timing_post_refl (n : Note) : timing_post n n.
Proof. split; [tauto|right; reflexivity]. Qed.

Lemma note_post_refl (ok : Z -> Prop) (n : Note) : note_post ok n n.
Proof. split; [left; reflexivity|apply timing_post_refl]. Qed.

Lemma notes_post_refl (ok : Z -> Prop) (ns : list Note) :
  Forall2 (note_post ok) ns ns.
Proof. induction ns; constructor; auto using note_post_refl. Qed.

(** Rewriting the note at [idx] keeps a relation to the original notes as
    long as the new note is related to whatever the old one was. *)
Lemma update_post (R : Note -> Note -> Prop) (ns0 ns : list Note)
  (idx : nat) (n n' : Note) :
  Forall2 R ns0 ns -> ns !! idx = Some n ->
  (forall n0, R n0 n -> R n0 n') ->
  Forall2 R ns0 (<[idx := n']> ns).
Proof.
  intros HR Hn Hstep.
  destruct (Forall2_lookup_r _ _ _ _ _ HR Hn) as (n0 & Hn0 & Hrel).
  rewrite <- (list_insert_id ns0 idx n0 Hn0).
  apply Forall2_insert; auto.
Qed.

Section NoteLoops.
Context {G : Type} `{RandomState G}.
Variable ok : Z -> Prop.

Lemma note_at_Ok (ns : list Note) (idx : nat) (g : G) :
  (idx < length ns)%nat ->
  exists n, ns !! idx = Some n /\ note_at ns idx g = Ok (n, g).
Proof.
  intros Hi. destruct (lookup_lt_is_Some_2 ns idx Hi) as [n Hn].
  exists n. split; [exact Hn|]. unfold note_at. rewrite Hn. reflexivity.
Qed.

Lemma shift_note_total (max_shift : Q) (ns0 ns : list Note) (idx : nat)
  (g : G) :
  (idx < length ns0)%nat -> Forall2 (note_post ok) ns0 ns ->
  exists ns' g', shift_note max_shift idx ns g = Ok (ns', g')
                 /\ Forall2 (note_post ok) ns0 ns'.
Proof.
  intros Hi HR. rewrite (Forall2_length _ _ _ HR) in Hi.
  destruct (note_at_Ok ns idx g Hi) as (n & Hn & E).
  unfold shift_note. rewrite (bind_Ok _ _ _ _ _ E).
  destruct (uniform_Ok (- max_shift) max_shift g) as (u & Eu).
  rewrite (bind_Ok _ _ _ _ _ Eu). unfold ret. eexists _, _.
  split; [reflexivity|].
  eapply update_post; [exact HR|exact Hn|].
  intros n0 (Hp & Hs & Hd). split; [exact Hp|]. split; cbn.
  - intros _. apply py_max_ge_l.
  - destruct Hd as [Hd|Hd]; [left|right]; Lqa.lra.
Qed.

Lemma stretch_note_total (max_change : Q) (ns0 ns : list Note) (idx : nat)
  (g : G) :
  (idx < length ns0)%nat -> Forall2 (note_post ok) ns0 ns ->
  exists ns' g', stretch_note max_change idx ns g = Ok (ns', g')
                 /\ Forall2 (note_post ok) ns0 ns'.
Proof.
  intros Hi HR. rewrite (Forall2_length _ _ _ HR) in Hi.
  destruct (note_at_Ok ns idx g Hi) as (n & Hn & E).
  unfold stretch_note. rewrite (bind_Ok _ _ _ _ _ E).
  destruct (uniform_Ok (- max_change) max_change g) as (u & Eu).
  rewrite (bind_Ok _ _ _ _ _ Eu). unfold ret. eexists _, _.
  split; [reflexivity|].
  eapply update_post; [exact HR|exact Hn|].
  intros n0 (Hp & Hs & Hd). split; [exact Hp|]. split; cbn.
  - exact Hs.
  - left. pose proof (py_max_ge_l (1 # 10) (end_ n - start n + u)).
    Lqa.lra.
Qed.

Lemma set_pitch_post (ns0 ns : list Note) (idx : nat) (n : Note) (p : Z) :
  Forall2 (note_post ok) ns0 ns -> ns !! idx = Some n -> ok p ->
  Forall2 (note_post ok) ns0 (<[idx := set_pitch n p]> ns).
Proof.
  intros HR Hn Hp. eapply update_post; [exact HR|exact Hn|].
  intros n0 (_ & Ht). split; [right; exact Hp|exact Ht].
Qed.
End NoteLoops.

Lemma py_int_pos (x : Q) : 0 < py_int x -> (0 < x)%Q.
Proof.
  destruct x as [n d]. unfold py_int, Qlt. cbn [Qnum Qden]. intros Hq.
  destruct (Z_le_gt_dec n 0) as [Hn|Hn]; [exfalso|lia].
  pose proof (Z.quot_pos (- n) (Z.pos d) ltac:(lia) ltac:(lia)) as Hp.
  rewrite Z.quot_opp_l in Hp by lia. lia.
Qed.

Lemma py_int_zero_notes (noise_level : Q) : num_notes_to_randomize noise_level 0 = 0.
Proof.
  unfold num_notes_to_randomize, py_int. destruct noise_level as [n d]. cbn.
  rewrite Z.mul_0_r. reflexivity.
Qed.

(** A positive number of notes to randomize needs a positive noise level. *)
Lemma positive_sample_positive_level (noise_level : Q) (num_notes : nat) :
  0 < num_notes_to_randomize noise_level num_notes -> (0 < noise_level)%Q.
Proof.
  intros Hk. apply py_int_pos in Hk.
  assert (0 <= inject_Z (Z.of_nat num_notes))%Q by (unfold Qle; cbn; lia).
  destruct (Qlt_le_dec 0 noise_level) as [Hl|Hl]; [exact Hl|]. Lqa.nra.
Qed.

Lemma each_instrument_total {G : Type} (P : Instrument -> Prop)
  (R : Instrument -> Instrument -> Prop)
  (body : Instrument -> M G Instrument) (tracks : list Instrument) (g : G) :
  Forall P tracks ->
  (forall i t, P i -> exists i' t', body i t = Ok (i', t') /\ R i i') ->
  exists tracks' g',
    each_instrument body tracks g = Ok (tracks', g') /\ Forall2 R tracks tracks'.
Proof.
  intros HP Hbody. revert g.
  induction HP as [|i rest Hi _ IH]; intros g; cbn.
  - unfold ret. eauto.
  - destruct (Hbody i g Hi) as (i' & g1 & E & HR).
    rewrite (bind_Ok _ _ _ _ _ E).
    destruct (IH g1) as (rest' & g2 & E' & HR').
    rewrite (bind_Ok _ _ _ _ _ E'). unfold ret. eauto.
Qed.

(** A loop whose body raises nothing but [ValueError] on some track raises
    [ValueError] as soon as one track does. *)
Lemma each_instrument_raises {G : Type} (Bad : Instrument -> Prop)
  (body : Instrument -> M G Instrument) (tracks : list Instrument) (g : G) :
  Exists Bad tracks ->
  (forall i t, Bad i -> body i t = Raise ValueError) ->
  (forall i t, (exists r, body i t = Ok r) \/ body i t = Raise ValueError) ->
  each_instrument body tracks g = Raise ValueError.
Proof.
  intros HB Hbad Hsafe. revert g.
  induction HB as [i rest Hi|i rest _ IH]; intros g; cbn.
  - apply bind_Raise, Hbad, Hi.
  - destruct (Hsafe i g) as [[[i' g1] E]|E].
    + rewrite (bind_Ok _ _ _ _ _ E). apply bind_Raise, IH.
    + apply bind_Raise, E.
Qed.

Lemma track_post_refl (ok : Instrument -> Z -> Prop) (i : Instrument) :
  track_post ok i i.
Proof. repeat split. apply notes_post_refl. Qed.

Lemma set_notes_post (ok : Instrument -> Z -> Prop) (i : Instrument)
  (ns : list Note) :
  Forall2 (note_post (ok i)) (notes i) ns -> track_post ok i (set_notes i ns).
Proof. intros Hns. repeat split. exact Hns. Qed.

Lemma nil_of_length_0 {A} (l : list A) : length l = 0%nat -> l = [].
Proof. destruct l; [reflexivity|discriminate]. Qed.

Module MusConstPertFacts.
Import MusConstPert.
Section Facts.
Context {G : Type} `{RandomState G} `{FloatSqrt}.

Lemma randomize_pitch_total (pr : bool) (lo hi : Z) (std nl : Q)
  (ns0 ns : list Note) (idx : nat) (g : G) :
  (idx < length ns0)%nat /\ pitch_pre pr lo hi (std * nl) ->
  Forall2 (note_post (pitch_ok pr lo hi)) ns0 ns ->
  exists ns' g', randomize_pitch pr lo hi std nl idx ns g = Ok (ns', g')
                 /\ Forall2 (note_post (pitch_ok pr lo hi)) ns0 ns'.
Proof.
  intros (Hi & Hscale & Hrange) HR. rewrite (Forall2_length _ _ _ HR) in Hi.
  destruct (note_at_Ok ns idx g Hi) as (n & Hn & E).
  unfold randomize_pitch. rewrite (bind_Ok _ _ _ _ _ E).
  destruct pr.
  - rewrite (bind_Ok _ _ _ _ _
               (bind_Ok _ _ _ _ _ (normal_Ok _ _ g (Hscale eq_refl)))).
    unfold ret. eexists _, _. split; [reflexivity|].
    apply set_pitch_post; [exact HR|exact Hn|]. eexists; reflexivity.
  - destruct (randint_Ok lo (hi + 1) g) as (r & Er & Hr);
      [specialize (Hrange eq_refl); lia|].
    rewrite (bind_Ok _ _ _ _ _ Er). unfold ret. eexists _, _.
    split; [reflexivity|].
    apply set_pitch_post; [exact HR|exact Hn|]. cbn. lia.
Qed.

Lemma perturb_notes_total (nl : Q) (pr : bool) (lo hi : Z) (std : Q)
  (ip it id : list nat) (ns0 : list Note) (g : G) :
  Forall (fun i => (i < length ns0)%nat /\ pitch_pre pr lo hi (std * nl)) ip ->
  Forall (fun i => (i < length ns0)%nat) it ->
  Forall (fun i => (i < length ns0)%nat) id ->
  exists ns' g',
    perturb_notes nl pr lo hi std ip it id ns0 g = Ok (ns', g')
    /\ Forall2 (note_post (pitch_ok pr lo hi)) ns0 ns'.
Proof.
  intros Hip Hit Hid. unfold perturb_notes.
  destruct (for_each_total _
              (fun ns => Forall2 (note_post (pitch_ok pr lo hi)) ns0 ns)
              ip (randomize_pitch pr lo hi std nl) ns0 g Hip
              (notes_post_refl _ ns0))
    as (ns1 & g1 & E1 & H1).
  { intros; apply randomize_pitch_total; assumption. }
  rewrite (bind_Ok _ _ _ _ _ E1).
  destruct (for_each_total _
              (fun ns => Forall2 (note_post (pitch_ok pr lo hi)) ns0 ns)
              it (shift_note ((1 # 2) * nl)) ns1 g1 Hit H1)
    as (ns2 & g2 & E2 & H2).
  { intros; apply shift_note_total; assumption. }
  rewrite (bind_Ok _ _ _ _ _ E2).
  apply (for_each_total _
           (fun ns => Forall2 (note_post (pitch_ok pr lo hi)) ns0 ns)
           id (stretch_note ((1 # 2) * nl)) ns2 g2 Hid H2).
  intros; apply stretch_note_total; assumption.
Qed.

(** One track: with a valid sample size the body of the track loop returns,
    and every note meets [note_post]. *)
Lemma randomize_instrument_total (nl : Q) (pr : bool) (i : Instrument)
  (g : G) :
  sample_size_ok nl i ->
  exists i' g', randomize_instrument nl pr i g = Ok (i', g')
                /\ track_post (assigned_pitch pr) i i'.
Proof.
  intros Hk. unfold randomize_instrument.
  destruct (Nat.eqb_spec (length (notes i)) 0) as [_|_].
  { unfold ret. eexists _, _. split; [reflexivity|apply track_post_refl]. }
  set (range := if pr then get_pitch_range i 12 else (21, 108)).
  assert (Hok : forall p, pitch_ok pr (fst range) (snd range) p
                          -> assigned_pitch pr i p).
  { subst range. unfold pitch_ok, assigned_pitch. destruct pr; cbn; auto. }
  assert (Hrange : pr = false -> fst range <= snd range).
  { subst range. intros ->. cbn. lia. }
  destruct range as [lo hi]. cbn [fst snd] in Hok, Hrange.
  destruct (draw_indices_Ok nl (length (notes i)) g Hk)
    as (ip & it & id & g1 & E).
  rewrite (bind_Ok _ _ _ _ _ E).
  apply draw_indices_spec in E as (_ & (Lp & _ & Fp) & (_ & _ & Ft)
                                     & (_ & _ & Fd)).
  edestruct (perturb_notes_total nl pr lo hi
               (np_std (map (fun n => inject_Z (pitch n)) (notes i)))
               ip it id (notes i) g1) as (ns & g2 & E2 & Hns);
    [|exact Ft|exact Fd|].
  { destruct (Z_le_gt_dec (num_notes_to_randomize nl (length (notes i))) 0)
      as [Hz|Hz].
    - rewrite (nil_of_length_0 ip); [constructor|]. rewrite Lp. lia.
    - apply Z.gt_lt, positive_sample_positive_level in Hz.
      eapply Forall_impl; [exact Fp|]. intros j Hj. split; [exact Hj|].
      split; [|exact Hrange]. intros _.
      pose proof (np_sqrt_nonneg
        (np_mean
           (map (fun x => Qabs (x - np_mean (map (fun n => inject_Z (pitch n))
                                               (notes i)))
                          * Qabs (x - np_mean (map (fun n => inject_Z (pitch n))
                                                 (notes i))))%Q
              (map (fun n => inject_Z (pitch n)) (notes i))))) as Hs.
      unfold np_std. Lqa.nra. }
  rewrite (bind_Ok _ _ _ _ _ E2). unfold ret. eexists _, _.
  split; [reflexivity|]. apply set_notes_post.
  eapply Forall2_impl; [exact Hns|].
  intros n0 n ([Hp|Hp] & Ht); split; auto.
Qed.

Lemma randomize_instrument_raises (nl : Q) (pr : bool) (i : Instrument)
  (g : G) :
  ~ sample_size_ok nl i -> randomize_instrument nl pr i g = Raise ValueError.
Proof.
  intros Hk. unfold randomize_instrument, sample_size_ok in *.
  destruct (Nat.eqb_spec (length (notes i)) 0) as [E|_].
  { exfalso. apply Hk. rewrite E, py_int_zero_notes. cbn. lia. }
  destruct (if pr then get_pitch_range i 12 else (21, 108)) as [lo hi].
  apply bind_Raise, draw_indices_Raise. lia.
Qed.

Lemma randomize_midi_total (pm : PrettyMIDI) (nl : Q) (pr : bool) (g : G) :
  Forall (sample_size_ok nl) (instruments pm) ->
  exists pm' g',
    randomize_midi pm nl pr g = Ok (pm', g')
    /\ Forall2 (track_post (assigned_pitch pr))
               (instruments pm) (instruments pm').
Proof.
  intros Hk. unfold randomize_midi.
  destruct (each_instrument_total (sample_size_ok nl)
              (track_post (assigned_pitch pr)) (randomize_instrument nl pr)
              (instruments pm) g Hk) as (tracks & g' & E & HR).
  { intros; apply randomize_instrument_total; assumption. }
  rewrite (bind_Ok _ _ _ _ _ E). unfold ret. eexists _, _.
  split; [reflexivity|exact HR].
Qed.

Lemma randomize_midi_raises (pm : PrettyMIDI) (nl : Q) (pr : bool) (g : G) :
  Exists (fun i => ~ sample_size_ok nl i) (instruments pm) ->
  randomize_midi pm nl pr g = Raise ValueError.
Proof.
  intros Hk. unfold randomize_midi. apply bind_Raise.
  apply (each_instrument_raises (fun i => ~ sample_size_ok nl i));
    [exact Hk| |].
  - intros; apply randomize_instrument_raises; assumption.
  - intros i t.
    destruct (Z_le_dec 0 (num_notes_to_randomize nl (length (notes i))));
      [destruct (Z_le_dec (num_notes_to_randomize nl (length (notes i)))
                          (Z.of_nat (length (notes i))))|].
    + left. destruct (randomize_instrument_total nl pr i t) as (i' & t' & E & _);
        [split; assumption|eauto].
    + right. apply randomize_instrument_raises. unfold sample_size_ok. lia.
    + right. apply randomize_instrument_raises. unfold sample_size_ok. lia.
Qed.
End Facts.
End MusConstPertFacts.

Module MusicalPertCombFacts.
Import MusicalPertComb.
Section Facts.
Context {G : Type} `{RandomState G}.

Lemma comb_randomize_pitch_total (ns0 ns : list Note) (idx : nat) (g : G) :
  (idx < length ns0)%nat ->
  Forall2 (note_post (pitch_ok false 21 108)) ns0 ns ->
  exists ns' g', randomize_pitch idx ns g = Ok (ns', g')
                 /\ Forall2 (note_post (pitch_ok false 21 108)) ns0 ns'.
Proof.
  intros Hi HR. rewrite (Forall2_length _ _ _ HR) in Hi.
  destruct (note_at_Ok ns idx g Hi) as (n & Hn & E).
  unfold randomize_pitch. rewrite (bind_Ok _ _ _ _ _ E).
  destruct (randint_Ok 21 109 g ltac:(lia)) as (r & Er & Hr).
  rewrite (bind_Ok _ _ _ _ _ Er). unfold ret. eexists _, _.
  split; [reflexivity|].
  apply set_pitch_post; [exact HR|exact Hn|]. cbn. lia.
Qed.

Lemma comb_perturb_notes_total (ip it id : list nat) (ns0 : list Note) (g : G) :
  Forall (fun i => (i < length ns0)%nat) ip ->
  Forall (fun i => (i < length ns0)%nat) it ->
  Forall (fun i => (i < length ns0)%nat) id ->
  exists ns' g',
    perturb_notes ip it id ns0 g = Ok (ns', g')
    /\ Forall2 (note_post (pitch_ok false 21 108)) ns0 ns'.
Proof.
  intros Hip Hit Hid. unfold perturb_notes.
  destruct (for_each_total _
              (fun ns => Forall2 (note_post (pitch_ok false 21 108)) ns0 ns)
              ip randomize_pitch ns0 g Hip (notes_post_refl _ ns0))
    as (ns1 & g1 & E1 & H1).
  { intros; apply comb_randomize_pitch_total; assumption. }
  rewrite (bind_Ok _ _ _ _ _ E1).
  destruct (for_each_total _
              (fun ns => Forall2 (note_post (pitch_ok false 21 108)) ns0 ns)
              it (shift_note (1 # 2)) ns1 g1 Hit H1)
    as (ns2 & g2 & E2 & H2).
  { intros; apply shift_note_total; assumption. }
  rewrite (bind_Ok _ _ _ _ _ E2).
  apply (for_each_total _
           (fun ns => Forall2 (note_post (pitch_ok false 21 108)) ns0 ns)
           id (stretch_note (1 # 2)) ns2 g2 Hid H2).
  intros; apply stretch_note_total; assumption.
Qed.

Lemma comb_randomize_instrument_total (nl : Q) (i : Instrument) (g : G) :
  sample_size_ok nl i ->
  exists i' g', randomize_instrument nl i g = Ok (i', g')
                /\ track_post (assigned_pitch false) i i'.
Proof.
  intros Hk. unfold randomize_instrument.
  destruct (Nat.eqb_spec (length (notes i)) 0) as [_|_].
  { unfold ret. eexists _, _. split; [reflexivity|apply track_post_refl]. }
  destruct (draw_indices_Ok nl (length (notes i)) g Hk)
    as (ip & it & id & g1 & E).
  rewrite (bind_Ok _ _ _ _ _ E).
  apply draw_indices_spec in E as (_ & (_ & _ & Fp) & (_ & _ & Ft)
                                     & (_ & _ & Fd)).
  destruct (comb_perturb_notes_total ip it id (notes i) g1 Fp Ft Fd)
    as (ns & g2 & E2 & Hns).
  rewrite (bind_Ok _ _ _ _ _ E2). unfold ret. eexists _, _.
  split; [reflexivity|]. apply set_notes_post, Hns.
Qed.

Lemma comb_randomize_midi_total (pm : PrettyMIDI) (nl : Q) (g : G) :
  Forall (sample_size_ok nl) (instruments pm) ->
  exists pm' g',
    randomize_midi pm nl g = Ok (pm', g')
    /\ Forall2 (track_post (assigned_pitch false))
               (instruments pm) (instruments pm').
Proof.
  intros Hk. unfold randomize_midi.
  destruct (each_instrument_total (sample_size_ok nl)
              (track_post (assigned_pitch false)) (randomize_instrument nl)
              (instruments pm) g Hk) as (tracks & g' & E & HR).
  { intros; apply comb_randomize_instrument_total; assumption. }
  rewrite (bind_Ok _ _ _ _ _ E). unfold ret. eexists _, _.
  split; [reflexivity|exact HR].
Qed.
End Facts.
End MusicalPertCombFacts.

Module MusicalPertFacts.
Import MusicalPert.
Section Facts.
Context {G : Type} `{RandomState G}.

Lemma notes_randomize_instrument_total (nl : Q) (i : Instrument) (g : G) :
  sample_size_ok nl i ->
  exists i' g', randomize_instrument nl i g = Ok (i', g')
                /\ track_post (assigned_pitch false) i i'.
Proof.
  intros Hk. unfold randomize_instrument.
  rewrite (bind_Ok _ _ _ _ _ (choice_in_range _ _ g Hk)).
  pose proof (choice_spec _ _ _ _ _ (choice_in_range _ _ g Hk))
    as (_ & _ & _ & Fi).
  destruct (for_each_total _
              (fun ns => Forall2 (note_post (pitch_ok false 21 108))
                                 (notes i) ns)
              _ MusicalPertComb.randomize_pitch (notes i)
              (snd (permutation (length (notes i)) g)) Fi
              (notes_post_refl _ _))
    as (ns1 & g1 & E1 & H1).
  { intros; apply MusicalPertCombFacts.comb_randomize_pitch_total; assumption. }
  rewrite (bind_Ok _ _ _ _ _ E1). unfold ret. eexists _, _.
  split; [reflexivity|]. apply set_notes_post, H1.
Qed.

Lemma randomize_midi_notes_total (pm : PrettyMIDI) (nl : Q) (g : G) :
  Forall (sample_size_ok nl) (instruments pm) ->
  exists pm' g',
    randomize_midi_notes pm nl g = Ok (pm', g')
    /\ Forall2 (track_post (assigned_pitch false))
               (instruments pm) (instruments pm').
Proof.
  intros Hk. unfold randomize_midi_notes.
  destruct (each_instrument_total (sample_size_ok nl)
              (track_post (assigned_pitch false)) (randomize_instrument nl)
              (instruments pm) g Hk) as (tracks & g' & E & HR).
  { intros; apply notes_randomize_instrument_total; assumption. }
  rewrite (bind_Ok _ _ _ _ _ E). unfold ret. eexists _, _.
  split; [reflexivity|exact HR].
Qed.
End Facts.
End MusicalPertFacts.

(** For a noise level in [0, 1] every track has a valid sample size. *)
Lemma sample_size_ok_unit_interval (nl : Q) (tracks : list Instrument) :
  (0 <= nl)%Q -> (nl <= 1)%Q -> Forall (sample_size_ok nl) tracks.
Proof.
  intros H0 H1. apply Forall_forall. intros i _.
  apply num_notes_to_randomize_bounds; assumption.
Qed.

(** ** Loops over notes and tracks *)

Lemma for_each_inv {S A B} (I : list A -> B -> Prop)
  (xs : list A) (body : A -> B -> M S B) (acc : B) (s : S) (b' : B) (s' : S) :
  for_each xs body acc s = Ok (b', s') -> I [] acc ->
  (forall done x b t b2 t2,
     I done b -> body x b t = Ok (b2, t2) -> I (done ++ [x]) b2) ->
  I xs b'.
Proof.
  intros E HI Hbody.
  enough (Hgen : forall done acc s,
            for_each xs body acc s = Ok (b', s') -> I done acc ->
            I (done ++ xs) b') by exact (Hgen [] acc s E HI).
  clear acc s E HI.
  induction xs as [|x xs IH]; intros done acc s E HI; cbn in E.
  - unfold ret in E. injection E as <- <-. rewrite app_nil_r. exact HI.
  - apply bind_inv in E as (b1 & s1 & E1 & E).
    replace (done ++ x :: xs) with ((done ++ [x]) ++ xs)
      by (rewrite <- app_assoc; reflexivity).
    eapply IH; [exact E|]. eapply Hbody; eassumption.
Qed.

Lemma each_instrument_inv {G : Type} (R : Instrument -> Instrument -> Prop)
  (body : Instrument -> M G Instrument) (tracks tracks' : list Instrument)
  (g g' : G) :
  each_instrument body tracks g = Ok (tracks', g') ->
  (forall i t i' t', body i t = Ok (i', t') -> R i i') ->
  Forall2 R tracks tracks'.
Proof.
  intros E Hbody. revert tracks' g g' E.
  induction tracks as [|i rest IH]; intros tracks' g g' E; cbn in E.
  - unfold ret in E. injection E as <- <-. constructor.
  - apply bind_inv in E as (i' & g1 & E1 & E).
    apply bind_inv in E as (rest' & g2 & E2 & E).
    unfold ret in E. injection E as <- <-.
    constructor; [eapply Hbody, E1|eapply IH, E2].
Qed.

Lemma pointwise_refl (R : nat -> Note -> Note -> Prop) (ns : list Note) :
  (forall j n, R j n n) -> pointwise R ns ns.
Proof.
  intros HR. split; [reflexivity|]. intros j n0 n H0 Hn.
  rewrite H0 in Hn. injection Hn as <-. apply HR.
Qed.

Lemma pointwise_impl (R R' : nat -> Note -> Note -> Prop)
  (ns0 ns : list Note) :
  pointwise R ns0 ns -> (forall j n0 n, R j n0 n -> R' j n0 n) ->
  pointwise R' ns0 ns.
Proof. intros (Hl & HR) Himp. split; [exact Hl|]. eauto. Qed.

(** Rewriting the note at [idx]: the relation must be re-established there
    and carried over everywhere else. *)
Lemma pointwise_update (R R' : nat -> Note -> Note -> Prop)
  (ns0 ns : list Note) (idx : nat) (n n' : Note) :
  pointwise R ns0 ns -> ns !! idx = Some n ->
  (forall n0, ns0 !! idx = Some n0 -> R idx n0 n -> R' idx n0 n') ->
  (forall j n0 m, j <> idx -> R j n0 m -> R' j n0 m) ->
  pointwise R' ns0 (<[idx := n']> ns).
Proof.
  intros (Hl & HR) Hn Hat Helse. split; [rewrite length_insert; exact Hl|].
  intros j n0 m H0 Hm. destruct (decide (j = idx)) as [->|Hne].
  - rewrite list_lookup_insert_eq in Hm
      by (eapply lookup_lt_is_Some_1; eauto).
    injection Hm as <-. eauto.
  - rewrite list_lookup_insert_ne in Hm by congruence. eauto.
Qed.

Section StepInversion.
Context {G : Type} `{RandomState G} `{FloatSqrt}.

Lemma note_at_inv (ns : list Note) (idx : nat) (g g' : G) (n : Note) :
  note_at ns idx g = Ok (n, g') -> ns !! idx = Some n.
Proof.
  unfold note_at. destruct (ns !! idx); [|discriminate].
  unfold ret. intros [= -> _]. reflexivity.
Qed.

End StepInversion.

(** ** Claims on the note-event randomizers *)

Import Counter.

Lemma sample_size_ok_dec (nl : Q) (i : Instrument) :
  {sample_size_ok nl i} + {~ sample_size_ok nl i}.
Proof.
  unfold sample_size_ok.
  destruct (Z_le_dec 0 (num_notes_to_randomize nl (length (notes i))));
    [destruct (Z_le_dec (num_notes_to_randomize nl (length (notes i)))
                        (Z.of_nat (length (notes i))))|];
    [left|right|right]; lia.
Qed.

Lemma musical_pert_raises {G : Type} `{RandomState G} (pm : PrettyMIDI)
  (nl : Q) (g : G) :
  Exists (fun i => ~ sample_size_ok nl i) (instruments pm) ->
  MusicalPert.randomize_midi_notes pm nl g = Raise ValueError.
Proof.
  intros Hk. unfold MusicalPert.randomize_midi_notes. apply bind_Raise.
  assert (Hbad : forall i t, ~ sample_size_ok nl i ->
            MusicalPert.randomize_instrument nl i t = Raise ValueError).
  { intros i t Hi. unfold MusicalPert.randomize_instrument.
    apply bind_Raise, choice_out_of_range. unfold sample_size_ok in Hi. lia. }
  apply (each_instrument_raises (fun i => ~ sample_size_ok nl i));
    [exact Hk|exact Hbad|].
  intros i t. destruct (sample_size_ok_dec nl i) as [Hi|Hi].
  - left.
    destruct (MusicalPertFacts.notes_randomize_instrument_total nl i t Hi)
      as (i' & t' & E & _). eauto.
  - right. apply Hbad, Hi.
Qed.



(** C5 at its failing input.  A track whose only pitch is 125 has the
    inverted pitch range (113, 108); at noise level 1 its note is assigned
    pitch 113, above the upper bound 108. *)
Theorem inverted_pitch_range_assigns_lower_bound :
  get_pitch_range
    {| program := 0; is_drum := false; notes := [high_note] |} 12 = (113, 108)
  /\ MusConstPert.randomize_midi (one_track [high_note]) 1 true 0%Z
     = Ok (one_track [ {| pitch := 113; start := 0; end_ := 72 # 64 |} ], 6).
Proof. split; vm_compute; reflexivity. Qed.

(** Where the pitch range of a track is not inverted the claim of C5 on
    the bounds holds: every note keeps its pitch or is assigned one within
    the range. *)
Lemma preserved_range_bounds_assigned_pitches
  {G : Type} `{RandomState G} `{FloatSqrt}
  (pm pm' : PrettyMIDI) (noise_level : Q) (g g' : G) :
  Forall (sample_size_ok noise_level) (instruments pm) ->
  MusConstPert.randomize_midi pm noise_level true g = Ok (pm', g') ->
  Forall2 (fun i0 i =>
             let (lo, hi) := get_pitch_range i0 12 in
             lo <= hi ->
             Forall2 (fun n0 n => pitch n = pitch n0 \/ lo <= pitch n <= hi)
                     (notes i0) (notes i))
          (instruments pm) (instruments pm').
Proof.
  intros Hk E.
  destruct (MusConstPertFacts.randomize_midi_total pm noise_level true g Hk)
    as (pm2 & g2 & E2 & HR).
  rewrite E in E2. injection E2 as <- <-.
  eapply Forall2_impl; [exact HR|]. intros i0 i (_ & _ & Hns).
  unfold assigned_pitch in Hns. destruct (get_pitch_range i0 12) as [lo hi].
  cbn [fst snd] in Hns. intros Hlh.
  eapply Forall2_impl; [exact Hns|]. intros n0 n ([Hp|(x & Hp)] & _).
  - left; exact Hp.
  - right. rewrite Hp. apply py_clamp_range, Hlh.
Qed.

(** ** The score object across the noise-level loop *)

Lemma percent_to_level (noise_percent : Q) :
  (0 <= noise_percent)%Q -> (noise_percent <= 100)%Q ->
  (0 <= noise_percent / 100)%Q /\ (noise_percent / 100 <= 1)%Q.
Proof.
  intros Hlo Hhi. split.
  - apply Qle_shift_div_l; [reflexivity|]. Lqa.lra.
  - apply Qle_shift_div_r; [reflexivity|]. Lqa.lra.
Qed.

Section ObjectFacts.
Context {G : Type}.

(** At level 0 the loop hands on the original object and touches neither
    the store nor the generator. *)
Lemma noisy_score_level_zero
  (randomize : ref -> Q -> M (gmap ref PrettyMIDI * G) ref)
  (pm_original : ref) (noise_percent : Q) (s : gmap ref PrettyMIDI * G) :
  Qeq_bool (noise_percent / 100) 0 = true ->
  noisy_score randomize pm_original noise_percent s = Ok (pm_original, s).
Proof. intros E. unfold noisy_score. rewrite E. reflexivity. Qed.

(** Above level 0 the randomizer is run on a fresh copy: the object it
    returns is new, and the original object holds what it held. *)
Lemma noisy_score_frame (f : Q -> PrettyMIDI -> M G PrettyMIDI)
  (h : gmap ref PrettyMIDI) (g : G) (pm_original : ref) (v : PrettyMIDI)
  (noise_percent : Q) :
  h !! pm_original = Some v ->
  (forall w t, exists r, f (noise_percent / 100)%Q w t = Ok r) ->
  exists pm_noisy h' g',
    noisy_score (fun pm nl => in_place (f nl) pm) pm_original noise_percent
                (h, g) = Ok (pm_noisy, (h', g'))
    /\ h' !! pm_original = Some v
    /\ is_Some (h' !! pm_noisy)
    /\ (Qeq_bool (noise_percent / 100) 0 = false -> pm_noisy <> pm_original).
Proof.
  intros Hv Hf. unfold noisy_score.
  destruct (Qeq_bool (noise_percent / 100) 0) eqn:E.
  { exists pm_original, h, g. unfold ret. rewrite Hv. eauto. }
  assert (Hne : fresh (dom h) <> pm_original).
  { intros Heq. apply (is_fresh (dom h)). rewrite Heq.
    apply elem_of_dom. eauto. }
  unfold bind, deepcopy, in_place. rewrite Hv, lookup_insert_eq.
  destruct (Hf v g) as ([v' g'] & Ef). rewrite Ef.
  eexists _, _, _. split; [reflexivity|].
  rewrite !lookup_insert_ne by exact Hne. rewrite lookup_insert_eq.
  split; [exact Hv|]. split; [eauto|]. intros _. exact Hne.
Qed.
End ObjectFacts.

(** C3, amended.  In the noise-level loops of the three scripts, for every
    store, every original score object and every percentage in [0, 100],
    choosing [pm_noisy] returns, and afterwards the original object holds
    exactly the score it held before; above level 0 [pm_noisy] is another
    object than the original. *)
Theorem noisy_score_leaves_original_unchanged
  {G : Type} `{RandomState G} `{FloatSqrt}
  (h : gmap ref PrettyMIDI) (g : G) (pm_original : ref) (v : PrettyMIDI)
  (noise_percent : Q) :
  h !! pm_original = Some v ->
  (0 <= noise_percent)%Q -> (noise_percent <= 100)%Q ->
  let kept (randomize : ref -> Q -> M (gmap ref PrettyMIDI * G) ref) :=
    exists pm_noisy h' g',
      noisy_score randomize pm_original noise_percent (h, g)
        = Ok (pm_noisy, (h', g'))
      /\ h' !! pm_original = Some v
      /\ is_Some (h' !! pm_noisy)
      /\ (Qeq_bool (noise_percent / 100) 0 = false
          -> pm_noisy <> pm_original) in
  kept (mus_const_pert_randomize true)
  /\ kept musical_pert_comb_randomize
  /\ kept musical_pert_randomize.
Proof.
  intros Hv Hlo Hhi kept.
  destruct (percent_to_level noise_percent Hlo Hhi) as (Hl0 & Hl1).
  subst kept. cbv beta. split; [|split].
  - apply (noisy_score_frame
             (fun nl w => MusConstPert.randomize_midi w nl true));
      [exact Hv|].
    intros w t.
    destruct (MusConstPertFacts.randomize_midi_total w _ true t
                (sample_size_ok_unit_interval _ _ Hl0 Hl1))
      as (w' & t' & E & _). eauto.
  - apply (noisy_score_frame
             (fun nl w => MusicalPertComb.randomize_midi w nl));
      [exact Hv|].
    intros w t.
    destruct (MusicalPertCombFacts.comb_randomize_midi_total w _ t
                (sample_size_ok_unit_interval _ _ Hl0 Hl1))
      as (w' & t' & E & _). eauto.
  - apply (noisy_score_frame
             (fun nl w => MusicalPert.randomize_midi_notes w nl));
      [exact Hv|].
    intros w t.
    destruct (MusicalPertFacts.randomize_midi_notes_total w _ t
                (sample_size_ok_unit_interval _ _ Hl0 Hl1))
      as (w' & t' & E & _). eauto.
Qed.

Lemma noisy_score_leaves_original_unchanged_witness :
  (<[1%positive := one_track two_notes]> ∅ : gmap ref PrettyMIDI)
    !! 1%positive = Some (one_track two_notes)
  /\ (0 <= 100)%Q /\ (100 <= 100)%Q
  /\ exists pm_noisy h' g',
       noisy_score (mus_const_pert_randomize true) 1%positive 100
         (<[1%positive := one_track two_notes]> ∅, 0%Z)
         = Ok (pm_noisy, (h', g'))
       /\ h' !! 1%positive = Some (one_track two_notes).
Proof.
  assert (Hv : (<[1%positive := one_track two_notes]> ∅
                : gmap ref PrettyMIDI) !! 1%positive
               = Some (one_track two_notes)) by reflexivity.
  assert (Ha : (0 <= 100)%Q) by (unfold Qle; cbn; lia).
  assert (Hb : (100 <= 100)%Q) by (unfold Qle; cbn; lia).
  split; [exact Hv|]. split; [exact Ha|]. split; [exact Hb|].
  destruct (proj1 (noisy_score_leaves_original_unchanged
                     _ 0%Z 1%positive _ 100 Hv Ha Hb))
    as (pm_noisy & h' & g' & E & Hkept & _).
  exists pm_noisy, h', g'. split; assumption.
Defined.

(** C3 as stated fails for the randomizer itself: [randomize_midi] rewrites
    the object it is called on and returns that object. *)
Lemma randomize_midi_rewrites_its_argument :
  exists h' g',
    mus_const_pert_randomize true 1%positive 1
      (<[1%positive := one_track two_notes]> ∅, 0%Z)
      = Ok (1%positive, (h', g'))
    /\ h' !! 1%positive <> Some (one_track two_notes).
Proof.
  eexists _, _. split; [vm_compute; reflexivity|].
  vm_compute. discriminate.
Qed.

(** ** Peak normalisation *)

Lemma map_fmap {A B} (f : A -> B) (l : list A) : map f l = f <$> l.
Proof. reflexivity. Qed.

Lemma fold_py_max_spec (rest : list Q) (a : Q) :
  let m := fold_left py_max rest a in
  (a <= m)%Q /\ Forall (fun v => (v <= m)%Q) rest /\ (m = a \/ In m rest).
Proof.
  revert a. induction rest as [|b rest IH]; intros a; cbn.
  - split; [Lqa.lra|]. split; [constructor|left; reflexivity].
  - destruct (IH (py_max a b)) as (Hm & Hrest & Hin).
    pose proof (py_max_ge_l a b). pose proof (py_max_ge_r a b).
    split; [Lqa.lra|]. split; [constructor; [Lqa.lra|exact Hrest]|].
    destruct Hin as [Hin|Hin]; [|right; right; exact Hin].
    rewrite Hin. unfold py_max. destruct (Qlt_le_dec a b); auto.
Qed.

(** The peak of a non-empty buffer bounds every sample and is attained. *)
Lemma peak_spec (x : list Q) (m : Q) :
  peak x = Ok m ->
  Forall (fun v => (Qabs v <= m)%Q) x /\ exists v, In v x /\ m = Qabs v.
Proof.
  unfold peak. destruct x as [|a rest]; [discriminate|]. cbn.
  intros [= <-].
  destruct (fold_py_max_spec (map Qabs rest) (Qabs a)) as (Ha & Hrest & Hin).
  split.
  - constructor; [exact Ha|].
    rewrite Forall_forall in Hrest |- *. intros v Hv. apply Hrest.
    rewrite map_fmap. apply list_elem_of_fmap_2, Hv.
  - destruct Hin as [Hin|Hin].
    + exists a. split; [left; reflexivity|exact Hin].
    + apply in_map_iff in Hin as (v & Hv & Hin).
      exists v. split; [right; exact Hin|symmetry; exact Hv].
Qed.

Lemma peak_Ok (x : list Q) : x <> [] -> exists m, peak x = Ok m.
Proof. destruct x; [congruence|]. intros _. unfold peak. cbn. eauto. Qed.

Lemma peak_nonneg (x : list Q) (m : Q) : peak x = Ok m -> (0 <= m)%Q.
Proof.
  intros Hp. destruct (peak_spec x m Hp) as (_ & v & _ & ->).
  apply Qabs_nonneg.
Qed.

Lemma Qabs_div_pos (v m : Q) : (0 < m)%Q -> (Qabs (v / m) == Qabs v / m)%Q.
Proof.
  intros Hm. unfold Qdiv. rewrite Qabs_Qmult.
  rewrite (Qabs_pos (/ m)); [reflexivity|].
  apply Qlt_le_weak, Qinv_lt_0_compat, Hm.
Qed.

(** Dividing by a positive peak yields peak one. *)
Lemma peak_of_scaled (x : list Q) (m p : Q) :
  peak x = Ok m -> (0 < m)%Q ->
  peak (map (fun v => (v / m)%Q) x) = Ok p -> (p == 1)%Q.
Proof.
  intros Hx Hm Hp.
  destruct (peak_spec _ _ Hx) as (Hle & v & Hv & Hmv).
  destruct (peak_spec _ _ Hp) as (Hle' & w & Hw & Hpw).
  apply Qle_antisym.
  - apply in_map_iff in Hw as (u & <- & Hu). rewrite Hpw, Qabs_div_pos by exact Hm.
    apply Qle_shift_div_r; [exact Hm|].
    rewrite Forall_forall in Hle. specialize (Hle u).
    rewrite list_elem_of_In in Hle. specialize (Hle Hu). Lqa.lra.
  - rewrite Forall_forall in Hle'. specialize (Hle' (v / m)%Q).
    rewrite list_elem_of_In in Hle'.
    assert (Hin : In (v / m)%Q (map (fun v => (v / m)%Q) x))
      by (apply in_map_iff; eauto).
    specialize (Hle' Hin). rewrite Qabs_div_pos in Hle' by exact Hm.
    rewrite <- Hmv in Hle'.
    assert (m / m == 1)%Q by (field; Lqa.lra). Lqa.lra.
Qed.

Lemma silent_of_zero_peak (x : list Q) (m : Q) :
  peak x = Ok m -> (m <= 0)%Q -> silent x.
Proof.
  intros Hx Hm. destruct (peak_spec _ _ Hx) as (Hle & _).
  eapply Forall_impl; [exact Hle|]. intros v Hv. cbv beta in Hv.
  pose proof (Qabs_nonneg v).
  destruct (Qabs_Qle_condition v 0) as [Hc _].
  destruct Hc as [Hc1 Hc2]; [Lqa.lra|]. Lqa.lra.
Qed.

(** The guarded normalisation applied to a non-empty buffer: the result
    has the same length and peak exactly one, unless the buffer is silent,
    which is returned as it is. *)
Lemma normalize_spec (x : list Q) :
  x <> [] ->
  exists out p,
    normalize x = Ok out /\ length out = length x /\ peak out = Ok p
    /\ ((p == 1)%Q \/ ((p == 0)%Q /\ out = x /\ silent x))
    /\ forall i v w, x !! i = Some v -> (v == 0)%Q -> out !! i = Some w
                     -> (w == 0)%Q.
Proof.
  intros Hx. destruct (peak_Ok x Hx) as (m & Hm). unfold normalize.
  rewrite Hm. destruct (Qlt_le_dec 0 m) as [Hpos|Hzero].
  - destruct (peak_Ok (map (fun v => (v / m)%Q) x)) as (p & Hp).
    { destruct x; [congruence|discriminate]. }
    exists (map (fun v => (v / m)%Q) x), p.
    split; [reflexivity|]. split; [apply length_map|]. split; [exact Hp|].
    split; [left; exact (peak_of_scaled x m p Hm Hpos Hp)|].
    intros i v w Hv Hv0 Hw. rewrite map_fmap, list_lookup_fmap, Hv in Hw.
    injection Hw as <-. rewrite Hv0. unfold Qdiv. Lqa.lra.
  - exists x, m. split; [reflexivity|]. split; [reflexivity|].
    split; [exact Hm|]. pose proof (peak_nonneg _ _ Hm).
    split; [right; split; [Lqa.lra|]; split;
              [reflexivity|eapply silent_of_zero_peak; eassumption]|].
    intros i v w Hv Hv0 Hw. rewrite Hv in Hw. injection Hw as <-. exact Hv0.
Qed.

Lemma lift_Ok {S A} (o : outcome A) (a : A) (s : S) :
  o = Ok a -> lift o s = Ok (a, s).
Proof. intros ->. reflexivity. Qed.

Lemma lift_inv {S A} (o : outcome A) (a : A) (s s' : S) :
  lift o s = Ok (a, s') -> o = Ok a /\ s' = s.
Proof. unfold lift. destruct o; [|discriminate]. intros [= -> ->]. auto. Qed.

(** ** Frame placement *)

Lemma slice_bound_in_range (n i : Z) : 0 <= i <= n -> slice_bound n i = i.
Proof. unfold slice_bound. destruct (Z.ltb_spec i 0); lia. Qed.

Lemma py_slice_length {A} (l : list A) (lo hi : Z) :
  0 <= lo <= hi -> hi <= Z.of_nat (length l) ->
  length (py_slice l lo hi) = Z.to_nat (hi - lo).
Proof.
  intros Hlo Hhi. unfold py_slice.
  rewrite !slice_bound_in_range by lia.
  rewrite length_take, length_drop. lia.
Qed.

(** An in-place addition on a slice within the buffer, with a frame of the
    slice's length: no exception, the same length, and nothing written at
    or after the end of the slice. *)
Lemma iadd_slice_ok (out : list Q) (lo hi : Z) (frame : list Q) :
  0 <= lo <= hi -> hi <= Z.of_nat (length out) ->
  length frame = Z.to_nat (hi - lo) ->
  exists out',
    iadd_slice out lo hi frame = Ok out' /\ length out' = length out
    /\ forall p, (Z.to_nat hi <= p)%nat -> out' !! p = out !! p.
Proof.
  intros Hlo Hhi Hf. unfold iadd_slice.
  rewrite !slice_bound_in_range by lia. rewrite Hf, Nat.eqb_refl.
  eexists. split; [reflexivity|].
  assert (Hz : length (zip_with Qplus
                         (take (Z.to_nat (hi - lo)) (drop (Z.to_nat lo) out))
                         frame) = Z.to_nat (hi - lo)).
  { rewrite length_zip_with_l_eq; rewrite length_take, length_drop; lia. }
  split.
  - rewrite !length_app, Hz, length_take, !length_drop. lia.
  - intros p Hp.
    rewrite lookup_app_r by (rewrite length_take; lia).
    rewrite lookup_app_r by (rewrite Hz, length_take; lia).
    rewrite !lookup_drop, Hz, length_take. f_equal. lia.
Qed.

Lemma lookup_repeat_Some {A} (x y : A) (n p : nat) :
  repeat x n !! p = Some y -> y = x.
Proof.
  revert p. induction n as [|n IH]; intros [|p]; cbn; try discriminate.
  - intros [= <-]. reflexivity.
  - apply IH.
Qed.

Section FrameJitter.
Context {G : Type} `{RandomState G}.

Lemma place_frame_ok (signal : list Q) (L ms i : Z) (out : list Q) (g : G) :
  0 < L -> 0 <= ms <= L -> 0 <= i ->
  (i + 1) * L <= Z.of_nat (length signal) ->
  length out = length signal ->
  exists out' g',
    AudioPert.place_frame signal L ms i out g = Ok (out', g')
    /\ length out' = length signal
    /\ forall p, (Z.to_nat ((i + 1) * L + ms) <= p)%nat
                 -> out' !! p = out !! p.
Proof.
  intros HL Hms Hi Hfit Hout.
  assert (Hframe : length (py_slice signal (i * L) (i * L + L)) = Z.to_nat L).
  { rewrite py_slice_length by nia. f_equal. lia. }
  unfold AudioPert.place_frame.
  destruct (randint_Ok (- ms) (ms + 1) g ltac:(lia)) as (r & Er & Hr).
  rewrite (bind_Ok _ _ _ _ _ Er). cbv zeta. rewrite Hframe.
  set (frame := py_slice signal (i * L) (i * L + L)) in *.
  set (g' := snd (random_below (ms + 1 - - ms) g)).
  destruct (Z.ltb_spec (i * L + r) 0) as [Hneg|Hpos].
  - replace (Z.of_nat (length signal) <? i * L + r + Z.of_nat (Z.to_nat L))
      with false by (symmetry; apply Z.ltb_ge; nia).
    destruct (iadd_slice_ok out 0 (i * L + r + Z.of_nat (Z.to_nat L))
                (py_slice_from frame (- (i * L + r))))
      as (out' & E & Hlen & Hfar); [nia|nia| |].
    { unfold py_slice_from. rewrite py_slice_length by (rewrite ?Hframe; nia).
      rewrite Hframe. f_equal. lia. }
    rewrite (lift_Ok _ _ _ E). exists out', g'.
    split; [reflexivity|]. split; [congruence|].
    intros p Hp. apply Hfar. nia.
  - destruct (Z.ltb_spec (Z.of_nat (length signal))
                         (i * L + r + Z.of_nat (Z.to_nat L))) as [Hover|Hin].
    + destruct (iadd_slice_ok out (i * L + r) (Z.of_nat (length signal))
                  (py_slice_to frame (Z.of_nat (length signal) - (i * L + r))))
        as (out' & E & Hlen & Hfar); [nia|lia| |].
      { unfold py_slice_to. rewrite py_slice_length by (rewrite ?Hframe; nia).
        f_equal. lia. }
      rewrite (lift_Ok _ _ _ E). exists out', g'.
      split; [reflexivity|]. split; [congruence|].
      intros p Hp. apply Hfar. nia.
    + destruct (iadd_slice_ok out (i * L + r)
                  (i * L + r + Z.of_nat (Z.to_nat L)) frame)
        as (out' & E & Hlen & Hfar); [nia|lia| |].
      { rewrite Hframe. f_equal. lia. }
      rewrite (lift_Ok _ _ _ E). exists out', g'.
      split; [reflexivity|]. split; [congruence|].
      intros p Hp. apply Hfar. nia.
Qed.

Lemma shift_bound (noise_level : Q) (sr : Z) :
  (0 <= noise_level)%Q -> (noise_level <= 1)%Q ->
  0 < AudioPert.frame_length_samples sr ->
  0 <= AudioPert.max_shift_samples noise_level sr
    <= AudioPert.frame_length_samples sr.
Proof.
  intros Hlo Hhi HL. unfold AudioPert.frame_length_samples in *.
  unfold AudioPert.max_shift_samples.
  apply py_int_pos in HL.
  assert (Hsr : (0 < inject_Z sr)%Q).
  { destruct (Qlt_le_dec 0 (inject_Z sr)) as [Hs|Hs]; [exact Hs|exfalso].
    assert (inject_Z sr * 10 / 1000 <= 0)%Q; [|Lqa.lra].
    apply Qle_shift_div_r; [reflexivity|]. Lqa.lra. }
  apply py_int_mono.
  - apply Qle_shift_div_l; [reflexivity|]. Lqa.nra.
  - apply Qle_shift_div_l; [reflexivity|].
    assert (E : (inject_Z sr * (10 * noise_level) / 1000 * 1000
                 == inject_Z sr * (10 * noise_level))%Q) by (field; discriminate).
    rewrite E. Lqa.nra.
Qed.

(** The frame loop, for a noise level in [0, 1]: every frame is placed
    without an exception, the buffer keeps the signal's length, and no
    sample at or after the end of the last full frame plus the largest
    shift is written. *)
Lemma jitter_frames_ok (signal : list Q) (noise_level : Q) (sr : Z) (g : G) :
  (0 <= noise_level)%Q -> (noise_level <= 1)%Q ->
  0 < AudioPert.frame_length_samples sr ->
  exists out g',
    AudioPert.jitter_frames signal noise_level sr g = Ok (out, g')
    /\ length out = length signal
    /\ forall p v,
         last_frame_end signal sr + AudioPert.max_shift_samples noise_level sr
           <= Z.of_nat p ->
         out !! p = Some v -> v = 0%Q.
Proof.
  intros Hlo Hhi HL. pose proof (shift_bound noise_level sr Hlo Hhi HL) as Hms.
  unfold AudioPert.jitter_frames, last_frame_end.
  set (L := AudioPert.frame_length_samples sr) in *.
  set (ms := AudioPert.max_shift_samples noise_level sr) in *.
  set (n := length signal). set (F := Z.of_nat n / L).
  replace (L =? 0) with false by (symmetry; apply Z.eqb_neq; lia).
  assert (HF : 0 <= F /\ F * L <= Z.of_nat n).
  { subst F. split; [apply Z.div_pos; lia|].
    rewrite Z.mul_comm. apply Z.mul_div_le. lia. }
  destruct (for_each_total (fun i => 0 <= i < F)
              (fun out => length out = n
                          /\ forall p, (Z.to_nat (F * L + ms) <= p)%nat
                                       -> out !! p = repeat 0%Q n !! p)
              (map Z.of_nat (seq 0 (Z.to_nat F)))
              (AudioPert.place_frame signal L ms) (repeat 0%Q n) g)
    as (out & g' & E & Hlen & Hfar).
  - apply Forall_forall. intros i Hi.
    rewrite map_fmap in Hi. apply list_elem_of_fmap_1 in Hi as (j & -> & Hj).
    apply elem_of_seq in Hj. lia.
  - split; [apply repeat_length|reflexivity].
  - intros i out t Hi (Hlen & Hfar).
    destruct (place_frame_ok signal L ms i out t HL Hms ltac:(lia)
                ltac:(fold n; nia) Hlen) as (out' & t' & E & Hlen' & Hfar').
    exists out', t'. split; [exact E|]. split; [exact Hlen'|].
    intros p Hp. rewrite Hfar' by nia. apply Hfar, Hp.
  - exists out, g'. split; [exact E|]. split; [exact Hlen|].
    intros p v Hp Hv. rewrite Hfar in Hv by lia.
    eapply lookup_repeat_Some, Hv.
Qed.
End FrameJitter.

(** ** Claims on the transforms of audio_pert.py *)

Lemma normalize_emits (x : list Q) :
  x <> [] ->
  exists out, normalize x = Ok out /\ length out = length x
              /\ unit_peak_or_silent out
              /\ (silent x -> out = x).
Proof.
  intros Hx.
  destruct (normalize_spec x Hx) as (out & p & En & Hlen & Hp & Hcase & _).
  exists out. split; [exact En|]. split; [exact Hlen|]. split.
  - exists p. split; [exact Hp|]. destruct Hcase as [H1|(H0 & -> & Hs)]; auto.
  - intros Hs. unfold normalize in En.
    destruct (peak x) as [m|] eqn:Em; [|discriminate].
    destruct (Qlt_le_dec 0 m) as [Hpos|_]; [|congruence].
    destruct (peak_spec _ _ Em) as (_ & v & Hv & ->).
    unfold silent in Hs. rewrite Forall_forall in Hs.
    apply list_elem_of_In, Hs in Hv. rewrite Hv in Hpos.
    exfalso. revert Hpos. cbn. apply Qlt_irrefl.
Qed.

Lemma nonempty_of_length {A B} (x : list A) (y : list B) :
  length x = length y -> y <> [] -> x <> [].
Proof. destruct x, y; cbn; congruence. Qed.




(** ** The SNR injector *)

Module NoiseAdderFacts.
Import NoiseAdder.
Local Open Scope R_scope.

Lemma Rsum_scaled_squares (s : R) (xs : list R) :
  Rsum (map (fun x => x ^ 2) (map (fun x => x * s) xs))
  = s * s * Rsum (map (fun x => x ^ 2) xs).
Proof.
  induction xs as [|x xs IH]; cbn [map Rsum fold_right].
  - ring.
  - fold (Rsum (map (fun x => x ^ 2) (map (fun x => x * s) xs))).
    fold (Rsum (map (fun x => x ^ 2) xs)). rewrite IH. ring.
Qed.

(** Scaling a sequence by [s] scales its power by [s * s]. *)
Lemma calculate_power_scaled (s : R) (xs : list R) :
  calculate_power (map (fun x => x * s) xs) = s * s * calculate_power xs.
Proof.
  unfold calculate_power, Rmean.
  rewrite Rsum_scaled_squares, !length_map. unfold Rdiv. ring.
Qed.

Lemma ln_10_pos : 0 < ln 10.
Proof. rewrite <- ln_1. apply ln_increasing; lra. Qed.

Lemma Rpower_10_pos (x : R) : 0 < Rpower 10 x.
Proof. unfold Rpower. apply exp_pos. Qed.

Lemma Rsum_squares_nonneg (xs : list R) : 0 <= Rsum (map (fun x => x ^ 2) xs).
Proof.
  induction xs as [|x xs IH]; cbn [map Rsum fold_right]; [lra|].
  fold (Rsum (map (fun x => x ^ 2) xs)). pose proof (pow2_ge_0 x). lra.
Qed.

Lemma calculate_power_nil : calculate_power [] = 0.
Proof. unfold calculate_power, Rmean, Rsum. cbn. unfold Rdiv. ring. Qed.

Lemma calculate_power_silent (xs : list R) :
  Forall (fun x => x = 0) xs -> calculate_power xs = 0.
Proof.
  intros Hz. unfold calculate_power, Rmean.
  assert (E : Rsum (map (fun x => x ^ 2) xs) = 0).
  { induction Hz as [|x xs -> _ IH]; cbn [map Rsum fold_right]; [reflexivity|].
    fold (Rsum (map (fun x => x ^ 2) xs)). rewrite IH. ring. }
  rewrite E. unfold Rdiv. ring.
Qed.

Lemma fold_Rmax_spec (rest : list R) (a : R) :
  let m := fold_left Rmax rest a in
  a <= m /\ Forall (fun v => v <= m) rest /\ (m = a \/ In m rest).
Proof.
  revert a. induction rest as [|b rest IH]; intros a; cbn.
  - split; [lra|]. split; [constructor|left; reflexivity].
  - destruct (IH (Rmax a b)) as (Hm & Hrest & Hin).
    pose proof (Rmax_l a b). pose proof (Rmax_r a b).
    split; [lra|]. split; [constructor; [lra|exact Hrest]|].
    destruct Hin as [Hin|Hin]; [|right; right; exact Hin].
    rewrite Hin. apply Rmax_case; auto.
Qed.

Lemma max_abs_spec (x : list R) (m : R) :
  max_abs x = Ok m ->
  Forall (fun v => Rabs v <= m) x /\ exists v, In v x /\ m = Rabs v.
Proof.
  unfold max_abs. destruct x as [|a rest]; [discriminate|]. cbn.
  intros [= <-].
  destruct (fold_Rmax_spec (map Rabs rest) (Rabs a)) as (Ha & Hrest & Hin).
  split.
  - constructor; [exact Ha|].
    rewrite Forall_forall in Hrest |- *. intros v Hv. apply Hrest.
    rewrite map_fmap. apply list_elem_of_fmap_2, Hv.
  - destruct Hin as [Hin|Hin].
    + exists a. split; [left; reflexivity|exact Hin].
    + apply in_map_iff in Hin as (v & Hv & Hin).
      exists v. split; [right; exact Hin|symmetry; exact Hv].
Qed.

Lemma max_abs_Ok (x : list R) : x <> [] -> exists m, max_abs x = Ok m.
Proof. destruct x; [congruence|]. intros _. unfold max_abs. cbn. eauto. Qed.

Lemma Rabs_div_pos (v m : R) : 0 < m -> Rabs (v / m) = Rabs v / m.
Proof.
  intros Hm. unfold Rdiv. rewrite Rabs_mult, Rabs_inv.
  rewrite (Rabs_pos_eq m) by lra. reflexivity.
Qed.

(** Dividing by a positive peak yields peak exactly one. *)
Lemma max_abs_of_scaled (x : list R) (m p : R) :
  max_abs x = Ok m -> 0 < m ->
  max_abs (map (fun v => v / m) x) = Ok p -> p = 1.
Proof.
  intros Hx Hm Hp.
  destruct (max_abs_spec _ _ Hx) as (Hle & v & Hv & Hmv).
  destruct (max_abs_spec _ _ Hp) as (Hle' & w & Hw & Hpw).
  apply Rle_antisym.
  - apply in_map_iff in Hw as (u & <- & Hu).
    rewrite Hpw, Rabs_div_pos by exact Hm.
    rewrite Forall_forall in Hle. specialize (Hle u).
    rewrite list_elem_of_In in Hle. specialize (Hle Hu).
    apply (Rmult_le_reg_r m); [exact Hm|]. unfold Rdiv.
    rewrite Rmult_assoc, Rinv_l by lra. lra.
  - rewrite Forall_forall in Hle'. specialize (Hle' (v / m)).
    rewrite list_elem_of_In in Hle'.
    assert (Hin : In (v / m) (map (fun v => v / m) x))
      by (apply in_map_iff; eauto).
    specialize (Hle' Hin). rewrite Rabs_div_pos in Hle' by exact Hm.
    rewrite <- Hmv in Hle'. unfold Rdiv in Hle'.
    rewrite Rinv_r in Hle' by lra. exact Hle'.
Qed.

Lemma zip_silent (signal noise : list R) :
  Forall (fun x => x = 0) signal -> length noise = length signal ->
  zip_with Rplus signal (map (fun x => x * 0) noise)
  = repeat 0 (length signal).
Proof.
  intros Hz. revert noise.
  induction Hz as [|x xs -> _ IH]; intros [|n noise]; cbn; try discriminate.
  - reflexivity.
  - intros [= Hlen]. rewrite IH by exact Hlen. f_equal. ring.
Qed.

Lemma max_abs_zeros (n : nat) : n <> 0%nat -> max_abs (repeat 0 n) = Ok 0.
Proof.
  destruct n as [|n]; [congruence|]. intros _. unfold max_abs. cbn.
  rewrite Rabs_R0. f_equal.
  induction n as [|n IH]; cbn; [reflexivity|].
  rewrite Rabs_R0. unfold Rmax at 2.
  destruct (Rle_dec 0 0); exact IH.
Qed.

Section Facts.
Context {G : Type} `{ColoredNoise G}.

Lemma add_noise_with_snr_unfold (signal : list R) (snr : R) (g : G) :
  add_noise_with_snr signal snr g =
  let noise := fst (powerlaw_psd_gaussian (length signal) g) in
  let g' := snd (powerlaw_psd_gaussian (length signal) g) in
  let noisy_signal := zip_with Rplus signal (scale_noise signal noise snr) in
  match max_abs noisy_signal with
  | Ok max_val =>
      if Rlt_dec 1 max_val
      then Ok (map (fun v => v / max_val) noisy_signal, g')
      else Ok (noisy_signal, g')
  | Raise e => Raise e
  end.
Proof.
  unfold add_noise_with_snr, bind, draw, lift, ret.
  destruct (powerlaw_psd_gaussian (length signal) g) as [noise g']. cbn.
  destruct (max_abs _) as [m|e]; [|reflexivity].
  destruct (Rlt_dec 1 m); reflexivity.
Qed.

Lemma scale_noise_length (signal noise : list R) (snr : R) :
  length (scale_noise signal noise snr) = length noise.
Proof. unfold scale_noise. apply length_map. Qed.

(** The power of the scaled noise, for positive signal and noise power. *)
Lemma scale_noise_power (signal noise : list R) (snr : R) :
  0 < calculate_power signal -> 0 < calculate_power noise ->
  calculate_power (scale_noise signal noise snr)
  = calculate_power signal / Rpower 10 (snr / 10).
Proof.
  intros Hs Hn. unfold scale_noise. rewrite calculate_power_scaled.
  pose proof (Rpower_10_pos (snr / 10)) as HP.
  rewrite sqrt_sqrt.
  - field. split; lra.
  - apply Rlt_le, Rdiv_lt_0_compat; [|exact Hn].
    apply Rdiv_lt_0_compat; assumption.
Qed.

Lemma snr_of_scaled (sp snr : R) :
  0 < sp -> snr_db_of sp (sp / Rpower 10 (snr / 10)) = snr.
Proof.
  intros Hs. unfold snr_db_of.
  pose proof (Rpower_10_pos (snr / 10)) as HP. pose proof ln_10_pos as Hl.
  replace (sp / (sp / Rpower 10 (snr / 10))) with (Rpower 10 (snr / 10))
    by (field; split; lra).
  unfold Rpower. rewrite ln_exp. field. lra.
Qed.
End Facts.
End NoiseAdderFacts.

(** ** Claims on the SNR injector *)

Section SnrClaims.
Import NoiseAdder NoiseAdderFacts.
Local Open Scope R_scope.

(** C8.  When the signal and the generated noise both have positive
    mean-square power, the noise that [add_noise_with_snr] adds has power
    exactly the signal power over [10 ** (desired_snr_db / 10)], so the
    ratio of signal power to injected noise power, in dB, is the requested
    one.  The statement is in exact real arithmetic. *)
Theorem injected_noise_meets_target_snr
  {G : Type} `{ColoredNoise G}
  (signal : list R) (desired_snr_db : R) (g : G) :
  let noise := fst (powerlaw_psd_gaussian (length signal) g) in
  let injected := scale_noise signal noise desired_snr_db in
  0 < calculate_power signal -> 0 < calculate_power noise ->
  calculate_power injected
    = calculate_power signal / Rpower 10 (desired_snr_db / 10)
  /\ snr_db_of (calculate_power signal) (calculate_power injected)
     = desired_snr_db
  /\ exists out,
       add_noise_with_snr signal desired_snr_db g
         = Ok (out, snd (powerlaw_psd_gaussian (length signal) g))
       /\ (out = zip_with Rplus signal injected
           \/ exists max_val,
                1 < max_val
                /\ out = map (fun v => v / max_val)
                             (zip_with Rplus signal injected)).
Proof.
  intros noise injected Hs Hn.
  assert (Hp : calculate_power injected
               = calculate_power signal / Rpower 10 (desired_snr_db / 10))
    by (apply scale_noise_power; assumption).
  split; [exact Hp|]. split; [rewrite Hp; apply snr_of_scaled, Hs|].
  rewrite add_noise_with_snr_unfold. cbv zeta. fold noise. fold injected.
  pose proof (powerlaw_psd_gaussian_length (length signal) g) as Hlen.
  fold noise in Hlen. clearbody noise.
  destruct (max_abs_Ok (zip_with Rplus signal injected)) as (m & Em).
  { subst injected. unfold scale_noise.
    destruct signal as [|s rest]; [rewrite calculate_power_nil in Hs; lra|].
    destruct noise as [|n noise']; discriminate. }
  rewrite Em. destruct (Rlt_dec 1 m) as [Hm|Hm]; eexists;
    (split; [reflexivity|]); [right; eauto|left; reflexivity].
Qed.

(** C10.  When every sample of the signal is zero and the generated noise
    has non-zero mean-square power, the scaled noise is zero and
    [add_noise_with_snr] returns, for any target ratio, the all-zero buffer
    of the signal's length. *)
Theorem silent_signal_gets_no_noise
  {G : Type} `{ColoredNoise G}
  (signal : list R) (desired_snr_db : R) (g : G) :
  let noise := fst (powerlaw_psd_gaussian (length signal) g) in
  Forall (fun x => x = 0) signal -> calculate_power noise <> 0 ->
  Forall (fun x => x = 0) (scale_noise signal noise desired_snr_db)
  /\ add_noise_with_snr signal desired_snr_db g
     = Ok (repeat 0 (length signal),
           snd (powerlaw_psd_gaussian (length signal) g)).
Proof.
  intros noise Hz Hn.
  assert (Hlen : length noise = length signal)
    by apply powerlaw_psd_gaussian_length.
  assert (Hscaled : scale_noise signal noise desired_snr_db
                    = map (fun x => x * 0) noise).
  { unfold scale_noise. rewrite (calculate_power_silent _ Hz).
    replace (0 / Rpower 10 (desired_snr_db / 10) / calculate_power noise)
      with 0 by (unfold Rdiv; ring).
    rewrite sqrt_0. reflexivity. }
  split.
  - rewrite Hscaled. apply Forall_forall. intros x Hx.
    rewrite map_fmap in Hx. apply list_elem_of_fmap_1 in Hx as (y & -> & _).
    ring.
  - rewrite add_noise_with_snr_unfold. cbv zeta. fold noise.
    rewrite Hscaled, (zip_silent _ _ Hz Hlen), max_abs_zeros.
    + destruct (Rlt_dec 1 0) as [Hlt|_]; [lra|reflexivity].
    + intros E0. apply Hn. rewrite E0 in Hlen.
      rewrite (nil_of_length_0 _ Hlen). apply calculate_power_nil.
Qed.
End SnrClaims.

(** ** The randomizers called at level 0 *)

Lemma set_notes_same (i : Instrument) : set_notes i (notes i) = i.
Proof. destruct i; reflexivity. Qed.

Lemma each_instrument_identity {G : Type}
  (body : Instrument -> M G Instrument) (tracks : list Instrument) (g : G) :
  (forall i t, exists t', body i t = Ok (i, t')) ->
  exists g', each_instrument body tracks g = Ok (tracks, g').
Proof.
  intros Hbody. revert g. induction tracks as [|i rest IH]; intros g; cbn.
  - unfold ret. eauto.
  - destruct (Hbody i g) as (g1 & E). rewrite (bind_Ok _ _ _ _ _ E).
    destruct (IH g1) as (g2 & E'). rewrite (bind_Ok _ _ _ _ _ E').
    unfold ret. eauto.
Qed.

Section LevelZero.
Context {G : Type} `{RandomState G} `{FloatSqrt}.

Lemma choice_zero (n : nat) (g : G) :
  choice n 0 g = Ok ([], snd (permutation n g)).
Proof. rewrite choice_in_range by lia. reflexivity. Qed.

Lemma draw_indices_level_zero (num_notes : nat) (g : G) :
  exists g', draw_indices 0 num_notes g = Ok (([], [], []), g').
Proof.
  unfold draw_indices.
  change (num_notes_to_randomize 0 num_notes) with 0.
  rewrite (bind_Ok _ _ _ _ _ (choice_zero _ _)).
  rewrite (bind_Ok _ _ _ _ _ (choice_zero _ _)).
  rewrite (bind_Ok _ _ _ _ _ (choice_zero _ _)).
  unfold ret. eauto.
Qed.

(** Called at noise level 0, the randomizers draw empty index arrays and
    return the score they were given, whatever the generator state; the
    generator itself is advanced by the draws. *)
Lemma randomizers_level_zero (pm : PrettyMIDI) (preserve_range : bool)
  (g : G) :
  (exists g', MusConstPert.randomize_midi pm 0 preserve_range g = Ok (pm, g'))
  /\ (exists g', MusicalPertComb.randomize_midi pm 0 g = Ok (pm, g'))
  /\ (exists g', MusicalPert.randomize_midi_notes pm 0 g = Ok (pm, g')).
Proof.
  destruct pm as [tracks]. split; [|split].
  - unfold MusConstPert.randomize_midi. cbn [instruments].
    destruct (each_instrument_identity
                (MusConstPert.randomize_instrument 0 preserve_range) tracks g)
      as (g' & E).
    { intros i t. unfold MusConstPert.randomize_instrument.
      destruct (length (notes i) =? 0)%nat; [unfold ret; eauto|].
      destruct (if preserve_range then get_pitch_range i 12 else (21, 108))
        as [lo hi].
      destruct (draw_indices_level_zero (length (notes i)) t) as (t' & E).
      rewrite (bind_Ok _ _ _ _ _ E). cbn. unfold bind, ret.
      rewrite set_notes_same. eauto. }
    rewrite (bind_Ok _ _ _ _ _ E). unfold ret. eauto.
  - unfold MusicalPertComb.randomize_midi. cbn [instruments].
    destruct (each_instrument_identity
                (MusicalPertComb.randomize_instrument 0) tracks g)
      as (g' & E).
    { intros i t. unfold MusicalPertComb.randomize_instrument.
      destruct (length (notes i) =? 0)%nat; [unfold ret; eauto|].
      destruct (draw_indices_level_zero (length (notes i)) t) as (t' & E).
      rewrite (bind_Ok _ _ _ _ _ E). cbn. unfold bind, ret.
      rewrite set_notes_same. eauto. }
    rewrite (bind_Ok _ _ _ _ _ E). unfold ret. eauto.
  - unfold MusicalPert.randomize_midi_notes. cbn [instruments].
    destruct (each_instrument_identity
                (MusicalPert.randomize_instrument 0) tracks g)
      as (g' & E).
    { intros i t. unfold MusicalPert.randomize_instrument.
      change (num_notes_to_randomize 0 (length (notes i))) with 0.
      rewrite (bind_Ok _ _ _ _ _ (choice_zero _ _)). cbn. unfold bind, ret.
      rewrite set_notes_same. eauto. }
    rewrite (bind_Ok _ _ _ _ _ E). unfold ret. eauto.
Qed.
End LevelZero.

(** ** The injector on two samples *)

Section TwoSamples.
Import NoiseAdder NoiseAdderFacts.
Local Open Scope R_scope.

Lemma Rpower_10_4 : Rpower 10 (40 / 10) = 10000.
Proof.
  replace (40 / 10) with (INR 4) by (simpl; lra).
  rewrite Rpower_pow by lra. simpl. lra.
Qed.

Lemma calculate_power_pair (x : R) : calculate_power [x; x] = x * x.
Proof. unfold calculate_power, Rmean, Rsum. cbn. field. Qed.

(** Two samples of value 1 and two noise samples of value 1 or of value -1,
    at 40 dB: the noise is scaled by 1/100. *)
Lemma scale_noise_pair (n : R) :
  n * n = 1 -> scale_noise [1; 1] [n; n] 40 = [n * (1 / 100); n * (1 / 100)].
Proof.
  intros Hn. unfold scale_noise.
  rewrite !calculate_power_pair, Rpower_10_4, Hn.
  assert (E : sqrt (1 * 1 / 10000 / 1) = 1 / 100)
    by (apply sqrt_lem_1; lra).
  rewrite E. reflexivity.
Qed.

Lemma max_abs_pair (x : R) : 0 <= x -> max_abs [x; x] = Ok x.
Proof.
  intros Hx. unfold max_abs. cbn. rewrite Rabs_pos_eq by exact Hx.
  f_equal. apply Rmax_case; reflexivity.
Qed.

(** The injector run on the two-sample signal [1; 1] at 40 dB with the
    counter generator: an even state adds 1/100 and the sum is rescaled to
    peak 1; an odd state subtracts 1/100 and the sum, of peak 99/100, is
    returned as it is. *)
Lemma two_samples_at_40_dB (g : Z) :
  add_noise_with_snr [1; 1] 40 g
  = Ok (if Z.even g then [1; 1] else [99 / 100; 99 / 100], (g + 1)%Z).
Proof.
  rewrite add_noise_with_snr_unfold.
  unfold powerlaw_psd_gaussian, Counter.colored_noise, Counter.pink.
  cbn [fst snd length repeat]. cbv zeta.
  destruct (Z.even g).
  - rewrite scale_noise_pair by lra. cbn [zip_with].
    replace (1 + 1 * (1 / 100)) with (101 / 100) by lra.
    rewrite max_abs_pair by lra.
    destruct (Rlt_dec 1 (101 / 100)) as [_|Hn]; [|lra].
    cbn [map]. replace (101 / 100 / (101 / 100)) with 1 by field.
    reflexivity.
  - rewrite scale_noise_pair by lra. cbn [zip_with].
    replace (1 + -1 * (1 / 100)) with (99 / 100) by lra.
    rewrite max_abs_pair by lra.
    destruct (Rlt_dec 1 (99 / 100)) as [Hn|_]; [lra|]. reflexivity.
Qed.

Lemma snr_of_percent_0 : snr_of_percent 0 = 40.
Proof. unfold snr_of_percent. lra. Qed.
End TwoSamples.

(** ** Claims across the transforms *)

Section TransformClaims.
Import NoiseAdder NoiseAdderFacts.

Lemma injected_noise_meets_target_snr_witness :
  (0 < calculate_power [1%R; 1%R])%R
  /\ (0 < calculate_power
            (fst (powerlaw_psd_gaussian (length [1%R; 1%R]) 0%Z)))%R
  /\ snr_db_of (calculate_power [1%R; 1%R])
       (calculate_power
          (scale_noise [1%R; 1%R]
             (fst (powerlaw_psd_gaussian (length [1%R; 1%R]) 0%Z)) 40%R))
     = 40%R.
Proof.
  assert (Hs : (0 < calculate_power [1%R; 1%R])%R)
    by (rewrite calculate_power_pair; lra).
  assert (Hn : (0 < calculate_power
                      (fst (powerlaw_psd_gaussian (length [1%R; 1%R]) 0%Z)))%R).
  { change (fst (powerlaw_psd_gaussian (length [1%R; 1%R]) 0%Z))
      with [1%R; 1%R].
    exact Hs. }
  split; [exact Hs|]. split; [exact Hn|].
  exact (proj1 (proj2 (injected_noise_meets_target_snr
                         [1%R; 1%R] 40%R 0%Z Hs Hn))).
Defined.

Lemma silent_signal_gets_no_noise_witness :
  Forall (fun x => x = 0%R) [0%R; 0%R]
  /\ calculate_power (fst (powerlaw_psd_gaussian (length [0%R; 0%R]) 0%Z))
     <> 0%R
  /\ add_noise_with_snr [0%R; 0%R] 10%R 0%Z = Ok ([0%R; 0%R], 1%Z).
Proof.
  assert (Hz : Forall (fun x => x = 0%R) [0%R; 0%R])
    by (repeat constructor).
  assert (Hn : calculate_power
                 (fst (powerlaw_psd_gaussian (length [0%R; 0%R]) 0%Z))
               <> 0%R).
  { change (fst (powerlaw_psd_gaussian (length [0%R; 0%R]) 0%Z))
      with [1%R; 1%R].
    unfold calculate_power, Rmean, Rsum. cbn. lra. }
  split; [exact Hz|]. split; [exact Hn|].
  exact (proj2 (silent_signal_gets_no_noise [0%R; 0%R] 10%R 0%Z Hz Hn)).
Defined.




(** C1, amended.  In the noise-level loops of audio_pert.py and of the
    three note-event scripts, level 0 skips the transform: the frame-jitter
    loop writes the input divided by its peak and the note-event loops
    hand on the original score object, the generator (and the store) being
    left as they were, so that the result is the same for every generator
    state.  The note-event randomizers called at level 0 return the score
    they were given, for every generator state. *)
Theorem level_zero_skips_jitter_and_randomizers
  {G : Type} `{RandomState G} `{FloatSqrt}
  (y : list Q) (sr : Z) (pm_original : ref) (h : gmap ref PrettyMIDI)
  (g g2 : G) :
  AudioPert.noisy_audio y sr 0 g = lift (scale_by_peak y) g
  /\ value (AudioPert.noisy_audio y sr 0 g)
     = value (AudioPert.noisy_audio y sr 0 g2)
  /\ noisy_score (mus_const_pert_randomize true) pm_original 0 (h, g)
     = Ok (pm_original, (h, g))
  /\ noisy_score musical_pert_comb_randomize pm_original 0 (h, g)
     = Ok (pm_original, (h, g))
  /\ noisy_score musical_pert_randomize pm_original 0 (h, g)
     = Ok (pm_original, (h, g))
  /\ (forall pm preserve_range,
        value (MusConstPert.randomize_midi pm 0 preserve_range g) = Ok pm
        /\ value (MusicalPertComb.randomize_midi pm 0 g) = Ok pm
        /\ value (MusicalPert.randomize_midi_notes pm 0 g) = Ok pm).
Proof.
  assert (E : forall t : G,
            AudioPert.noisy_audio y sr 0 t = lift (scale_by_peak y) t).
  { intros t. unfold AudioPert.noisy_audio.
    change (Qeq_bool (0 / 100) 0) with true. reflexivity. }
  split; [apply E|]. split.
  - rewrite !E. unfold lift, value. destruct (scale_by_peak y); reflexivity.
  - do 3 (split; [apply noisy_score_level_zero; reflexivity|]).
    intros pm preserve_range.
    destruct (randomizers_level_zero pm preserve_range g)
      as ((g1 & E1) & (g3 & E2) & (g4 & E3)).
    rewrite E1, E2, E3. repeat split.
Qed.

(** C1 as stated fails for the SNR injector: its loop has no level-0
    branch, 0 % is a target of 40 dB, and on the two-sample signal [1; 1]
    the output is [1; 1] from generator state 0 and [0.99; 0.99] from
    state 1. *)
Lemma snr_loop_at_zero_percent_depends_on_seed :
  NoiseAdder.noisy_audio [1%R; 1%R] 0%R 0%Z = Ok ([1%R; 1%R], 1%Z)
  /\ NoiseAdder.noisy_audio [1%R; 1%R] 0%R 1%Z
     = Ok ([(99 / 100)%R; (99 / 100)%R], 2%Z)
  /\ [1%R; 1%R] <> [(99 / 100)%R; (99 / 100)%R].
Proof.
  unfold NoiseAdder.noisy_audio. rewrite snr_of_percent_0.
  split; [exact (two_samples_at_40_dB 0)|].
  split; [exact (two_samples_at_40_dB 1)|].
  intros [= E _]. lra.
Qed.
End TransformClaims.

(** * Further properties of the scripts *)

(** ** The audio clip *)

Lemma lookup_repeat_lt {A} (x : A) (n p : nat) :
  (p < n)%nat -> repeat x n !! p = Some x.
Proof.
  revert p. induction n as [|n IH]; intros [|p] Hp; cbn; try lia.
  - reflexivity.
  - apply IH. lia.
Qed.

(** The length of a clip. *)
Lemma clip_length (y_noisy : list Q) (clip_samples : Z) :
  0 <= clip_samples ->
  length (clip_audio y_noisy clip_samples) = Z.to_nat clip_samples.
Proof.
  intros Hc. unfold clip_audio.
  destruct (Z.ltb_spec clip_samples (Z.of_nat (length y_noisy))) as [Hlt|Hge].
  - assert (0 <= (Z.of_nat (length y_noisy) - clip_samples) / 2
            <= Z.of_nat (length y_noisy) - clip_samples).
    { split; [apply Z.div_pos; lia|].
      apply Z.div_le_upper_bound; lia. }
    rewrite py_slice_length by lia. f_equal. lia.
  - assert (0 <= (clip_samples - Z.of_nat (length y_noisy)) / 2
            <= clip_samples - Z.of_nat (length y_noisy)).
    { split; [apply Z.div_pos; lia|].
      apply Z.div_le_upper_bound; lia. }
    rewrite !length_app, !repeat_length. lia.
Qed.

(** X1.  For a clip length that is not negative, the clipped buffer has
    exactly that length, whether the input was cut or padded. *)
Theorem clip_audio_length (y_noisy : list Q) (clip_samples : Z) :
  0 <= clip_samples ->
  length (clip_audio y_noisy clip_samples) = Z.to_nat clip_samples.
Proof.
  intros Hc. unfold clip_audio.
  destruct (Z.ltb_spec clip_samples (Z.of_nat (length y_noisy))) as [Hlt|Hge].
  - assert (0 <= (Z.of_nat (length y_noisy) - clip_samples) / 2
            <= Z.of_nat (length y_noisy) - clip_samples).
    { split; [apply Z.div_pos; lia|].
      apply Z.div_le_upper_bound; lia. }
    rewrite py_slice_length by lia. f_equal. lia.
  - assert (0 <= (clip_samples - Z.of_nat (length y_noisy)) / 2
            <= clip_samples - Z.of_nat (length y_noisy)).
    { split; [apply Z.div_pos; lia|].
      apply Z.div_le_upper_bound; lia. }
    rewrite !length_app, !repeat_length. lia.
Qed.

Lemma clip_audio_length_witness :
  0 <= 4 /\ length (clip_audio [1%Q; 2%Q; 3%Q; 4%Q; 5%Q; 6%Q; 7%Q] 4) = 4%nat.
Proof.
  split; [lia|]. exact (clip_audio_length _ 4 ltac:(lia)).
Defined.

(** X2.  A buffer longer than the clip is cut to one contiguous window:
    sample [j] of the clip is sample [start_idx + j] of the input, where
    [start_idx] is half the excess, rounded down; what is dropped behind
    the window is as much as what is dropped before it, or one sample
    more. *)
Theorem clip_audio_crop_window (y_noisy : list Q) (clip_samples : Z) :
  0 <= clip_samples < Z.of_nat (length y_noisy) ->
  let excess := Z.of_nat (length y_noisy) - clip_samples in
  let start_idx := excess / 2 in
  (forall j, (j < Z.to_nat clip_samples)%nat ->
             clip_audio y_noisy clip_samples !! j
             = y_noisy !! (Z.to_nat start_idx + j)%nat)
  /\ 0 <= start_idx
  /\ 0 <= (excess - start_idx) - start_idx <= 1.
Proof.
  intros Hc excess start_idx.
  assert (Hs : 0 <= start_idx /\ 0 <= excess - start_idx - start_idx <= 1).
  { subst start_idx. pose proof (Z.div_mod excess 2 ltac:(lia)).
    pose proof (Z.mod_pos_bound excess 2 ltac:(lia)).
    subst excess. split; [apply Z.div_pos; lia|]. lia. }
  split; [|exact Hs].
  intros j Hj. unfold clip_audio.
  replace (clip_samples <? Z.of_nat (length y_noisy)) with true
    by (symmetry; apply Z.ltb_lt; lia).
  fold excess. fold start_idx. unfold py_slice.
  rewrite !slice_bound_in_range by (subst excess; lia).
  rewrite lookup_take_lt by lia. rewrite lookup_drop. reflexivity.
Qed.

Lemma clip_audio_crop_window_witness :
  0 <= 4 < Z.of_nat (length [1%Q; 2%Q; 3%Q; 4%Q; 5%Q; 6%Q; 7%Q])
  /\ clip_audio [1%Q; 2%Q; 3%Q; 4%Q; 5%Q; 6%Q; 7%Q] 4 !! 0%nat
     = [1%Q; 2%Q; 3%Q; 4%Q; 5%Q; 6%Q; 7%Q] !! 1%nat.
Proof.
  assert (Hc : 0 <= 4 < Z.of_nat (length [1%Q; 2%Q; 3%Q; 4%Q; 5%Q; 6%Q; 7%Q]))
    by (cbn; lia).
  split; [exact Hc|].
  exact (proj1 (clip_audio_crop_window _ 4 Hc) 0%nat ltac:(cbn; lia)).
Defined.

(** X3.  A buffer not longer than the clip is kept whole and in order
    between two runs of zeros: [pad_left] zeros, the input, [pad_right]
    zeros, where [pad_left] is half the missing length, rounded down, and
    [pad_right] is [pad_left] or one more. *)
Theorem clip_audio_pad_centres (y_noisy : list Q) (clip_samples : Z) :
  Z.of_nat (length y_noisy) <= clip_samples ->
  let padding := clip_samples - Z.of_nat (length y_noisy) in
  let pad_left := Z.to_nat (padding / 2) in
  let pad_right := Z.to_nat (padding - padding / 2) in
  (forall j, (j < length y_noisy)%nat ->
             clip_audio y_noisy clip_samples !! (pad_left + j)%nat
             = y_noisy !! j)
  /\ (forall p, (p < pad_left)%nat ->
                clip_audio y_noisy clip_samples !! p = Some 0%Q)
  /\ (forall p, (pad_left + length y_noisy <= p)%nat ->
                (p < Z.to_nat clip_samples)%nat ->
                clip_audio y_noisy clip_samples !! p = Some 0%Q)
  /\ (pad_left <= pad_right <= pad_left + 1)%nat.
Proof.
  intros Hc padding pad_left pad_right.
  assert (Hp : 0 <= padding / 2
               /\ 0 <= padding - padding / 2 - padding / 2 <= 1).
  { pose proof (Z.div_mod padding 2 ltac:(lia)).
    pose proof (Z.mod_pos_bound padding 2 ltac:(lia)).
    subst padding. split; [apply Z.div_pos; lia|]. lia. }
  assert (E : clip_audio y_noisy clip_samples
              = repeat 0%Q pad_left ++ y_noisy ++ repeat 0%Q pad_right).
  { unfold clip_audio.
    replace (clip_samples <? Z.of_nat (length y_noisy)) with false
      by (symmetry; apply Z.ltb_ge; lia).
    reflexivity. }
  rewrite E. split; [|split; [|split]].
  - intros j Hj. rewrite lookup_app_r by (rewrite repeat_length; lia).
    rewrite repeat_length, lookup_app_l by lia. f_equal. lia.
  - intros p Hp'. rewrite lookup_app_l by (rewrite repeat_length; lia).
    apply lookup_repeat_lt, Hp'.
  - intros p Hlo Hhi. rewrite lookup_app_r by (rewrite repeat_length; lia).
    rewrite lookup_app_r by (rewrite repeat_length; lia).
    apply lookup_repeat_lt. rewrite repeat_length.
    subst pad_left pad_right padding. lia.
  - subst pad_left pad_right. lia.
Qed.

Lemma clip_audio_pad_centres_witness :
  Z.of_nat (length [1%Q; 2%Q]) <= 5
  /\ clip_audio [1%Q; 2%Q] 5 !! 1%nat = Some 1%Q.
Proof.
  assert (Hc : Z.of_nat (length [1%Q; 2%Q]) <= 5) by (cbn; lia).
  split; [exact Hc|].
  exact (proj1 (clip_audio_pad_centres [1%Q; 2%Q] 5 Hc) 0%nat
           ltac:(cbn; lia)).
Defined.

Lemma Forall_repeat {A} (P : A -> Prop) (x : A) (n : nat) :
  P x -> Forall P (repeat x n).
Proof. intros Hx. induction n; cbn; constructor; auto. Qed.

Lemma clip_audio_Forall (P : Q -> Prop) (y : list Q) (clip_samples : Z) :
  Forall P y -> P 0%Q -> Forall P (clip_audio y clip_samples).
Proof.
  intros Hy H0. unfold clip_audio.
  destruct (clip_samples <? Z.of_nat (length y)).
  - unfold py_slice. apply Forall_take, Forall_drop, Hy.
  - repeat apply Forall_app_2; auto using Forall_repeat.
Qed.

Lemma normalize_bounded (x out : list Q) :
  normalize x = Ok out -> Forall (fun v => (Qabs v <= 1)%Q) out.
Proof.
  intros En.
  assert (Hx : x <> []).
  { intros ->. discriminate. }
  destruct (normalize_spec x Hx) as (out' & p & En' & _ & Hp & Hcase & _).
  rewrite En in En'. injection En' as <-.
  destruct (peak_spec _ _ Hp) as (Hle & _).
  eapply Forall_impl; [exact Hle|]. intros v Hv. cbv beta in Hv.
  destruct Hcase as [H1|(H0 & _)]; Lqa.lra.
Qed.

(** X4.  The buffer that mus_const_pert.py and musical_pert_comb.py write
    out: for a non-empty synthesized buffer and a clip length that is not
    negative, normalisation and clipping return a buffer of exactly the
    clip length in which no sample exceeds 1 in absolute value. *)
Theorem written_clip_is_bounded (y_noisy : list Q) (clip_duration : Q)
  (sr : Z) :
  y_noisy <> [] -> 0 <= clip_samples_of clip_duration sr ->
  exists out,
    normalize_and_clip y_noisy clip_duration sr = Ok out
    /\ length out = Z.to_nat (clip_samples_of clip_duration sr)
    /\ Forall (fun v => (Qabs v <= 1)%Q) out.
Proof.
  intros Hy Hc. unfold normalize_and_clip.
  destruct (normalize_spec y_noisy Hy) as (y & p & En & _).
  rewrite En. eexists. split; [reflexivity|].
  split; [apply clip_length, Hc|].
  apply clip_audio_Forall; [eapply normalize_bounded, En|].
  cbn. unfold Qle. cbn. lia.
Qed.

Lemma written_clip_is_bounded_witness :
  [1%Q; (-4)%Q; 2%Q] <> [] /\ 0 <= clip_samples_of (1 # 2) 4
  /\ exists out,
       normalize_and_clip [1%Q; (-4)%Q; 2%Q] (1 # 2) 4 = Ok out
       /\ length out = Z.to_nat (clip_samples_of (1 # 2) 4)
       /\ Forall (fun v => (Qabs v <= 1)%Q) out.
Proof.
  assert (Hy : [1%Q; (-4)%Q; 2%Q] <> []) by discriminate.
  assert (Hc : 0 <= clip_samples_of (1 # 2) 4) by (vm_compute; discriminate).
  split; [exact Hy|]. split; [exact Hc|].
  exact (written_clip_is_bounded _ (1 # 2) 4 Hy Hc).
Defined.

(** An empty synthesized buffer makes the normalisation raise, before any
    clipping. *)
Lemma normalize_and_clip_empty (clip_duration : Q) (sr : Z) :
  normalize_and_clip [] clip_duration sr = Raise ValueError.
Proof. reflexivity. Qed.

(** ** The SNR injector in its loop *)

Section SnrExtras.
Import NoiseAdder NoiseAdderFacts.
Local Open Scope R_scope.

Lemma Rpower_10_le (x y : R) : x <= y -> Rpower 10 x <= Rpower 10 y.
Proof.
  intros Hxy. unfold Rpower. pose proof ln_10_pos as Hl.
  destruct (Req_dec x y) as [->|Hne]; [lra|].
  apply Rlt_le, exp_increasing. nra.
Qed.

(** X5.  A higher noise percentage never lowers the noise that is added:
    for a signal of positive power and generated noise of positive power,
    the power of the noise injected at a percentage is at most the power
    injected at any higher percentage. *)
Theorem injected_power_grows_with_percent
  (signal noise_p noise_q : list R) (p q : R) :
  0 < calculate_power signal ->
  0 < calculate_power noise_p -> 0 < calculate_power noise_q ->
  p <= q ->
  snr_of_percent q <= snr_of_percent p
  /\ calculate_power (scale_noise signal noise_p (snr_of_percent p))
     <= calculate_power (scale_noise signal noise_q (snr_of_percent q)).
Proof.
  intros Hs Hp Hq Hpq.
  assert (Hsnr : snr_of_percent q <= snr_of_percent p)
    by (unfold snr_of_percent; lra).
  split; [exact Hsnr|].
  rewrite !scale_noise_power by assumption.
  pose proof (Rpower_10_pos (snr_of_percent p / 10)) as Pp.
  pose proof (Rpower_10_pos (snr_of_percent q / 10)) as Pq.
  assert (Hle : Rpower 10 (snr_of_percent q / 10)
                <= Rpower 10 (snr_of_percent p / 10))
    by (apply Rpower_10_le; lra).
  unfold Rdiv. apply Rmult_le_compat_l; [lra|].
  apply Rinv_le_contravar; assumption.
Qed.

Lemma injected_power_grows_with_percent_witness :
  0 < calculate_power [1; 1]
  /\ 0 <= 100
  /\ calculate_power (scale_noise [1; 1] [1; 1] (snr_of_percent 0))
     <= calculate_power (scale_noise [1; 1] [1; 1] (snr_of_percent 100)).
Proof.
  assert (Hs : 0 < calculate_power [1; 1])
    by (rewrite calculate_power_pair; lra).
  assert (Hpq : 0 <= 100) by lra.
  split; [exact Hs|]. split; [exact Hpq|].
  exact (proj2 (injected_power_grows_with_percent
                  [1; 1] [1; 1] [1; 1] 0 100 Hs Hs Hs Hpq)).
Defined.

Lemma map_div_zip (c : R) (xs ys : list R) :
  map (fun v => v / c) (zip_with Rplus xs ys)
  = zip_with Rplus (map (fun v => v * / c) xs) (map (fun v => v * / c) ys).
Proof.
  revert ys. induction xs as [|x xs IH]; intros [|y ys]; cbn;
    try reflexivity.
  rewrite IH. f_equal. unfold Rdiv. ring.
Qed.

Lemma map_div_1 (xs : list R) : map (fun v => v * / 1) xs = xs.
Proof.
  induction xs as [|x xs IH]; cbn; [reflexivity|].
  rewrite IH. f_equal. field.
Qed.

(** X6.  The injector never clamps a sample: what it returns is the signal
    and the scaled noise, both divided by one factor [c] and added, where
    [c] is the peak [max_val] of their sum when that peak is above 1 and
    [c = 1] otherwise, so [c >= 1]; and dividing both by [c] leaves the
    ratio of signal power to noise power, in dB, at the requested value. *)
Theorem injector_rescales_signal_and_noise_alike
  {G : Type} `{ColoredNoise G}
  (signal : list R) (desired_snr_db : R) (g : G) :
  let noise := fst (powerlaw_psd_gaussian (length signal) g) in
  let injected := scale_noise signal noise desired_snr_db in
  0 < calculate_power signal -> 0 < calculate_power noise ->
  exists out max_val,
    add_noise_with_snr signal desired_snr_db g
      = Ok (out, snd (powerlaw_psd_gaussian (length signal) g))
    /\ max_abs (zip_with Rplus signal injected) = Ok max_val
    /\ let c := if Rlt_dec 1 max_val then max_val else 1 in
       1 <= c
       /\ out = zip_with Rplus (map (fun v => v * / c) signal)
                               (map (fun v => v * / c) injected)
       /\ length out = length signal
       /\ snr_db_of (calculate_power (map (fun v => v * / c) signal))
                    (calculate_power (map (fun v => v * / c) injected))
          = desired_snr_db.
Proof.
  intros noise injected Hs Hn.
  assert (Hp : calculate_power injected
               = calculate_power signal / Rpower 10 (desired_snr_db / 10))
    by (apply scale_noise_power; assumption).
  assert (Hlen : length (zip_with Rplus signal injected) = length signal).
  { rewrite length_zip_with_l_eq; [reflexivity|].
    subst injected. rewrite scale_noise_length. subst noise.
    symmetry. apply powerlaw_psd_gaussian_length. }
  assert (Hsnr : forall c, 1 <= c ->
            snr_db_of (calculate_power (map (fun v => v * / c) signal))
                      (calculate_power (map (fun v => v * / c) injected))
            = desired_snr_db).
  { intros c Hc. rewrite !calculate_power_scaled, Hp.
    pose proof (Rpower_10_pos (desired_snr_db / 10)) as HP.
    transitivity (snr_db_of (calculate_power signal)
                    (calculate_power signal
                     / Rpower 10 (desired_snr_db / 10)));
      [|apply snr_of_scaled, Hs].
    unfold snr_db_of. do 3 f_equal. field. repeat split; lra. }
  rewrite add_noise_with_snr_unfold. cbv zeta. fold noise. fold injected.
  destruct (max_abs_Ok (zip_with Rplus signal injected)) as (m & Em).
  { intros E. rewrite E in Hlen. destruct signal; [|discriminate].
    rewrite calculate_power_nil in Hs. lra. }
  rewrite Em. destruct (Rlt_dec 1 m) as [Hm|Hm] eqn:Ed.
  - exists (map (fun v => v / m) (zip_with Rplus signal injected)), m.
    split; [reflexivity|]. split; [reflexivity|]. cbv zeta. rewrite Ed.
    split; [lra|]. split; [apply map_div_zip|].
    split; [rewrite length_map; exact Hlen|apply Hsnr; lra].
  - exists (zip_with Rplus signal injected), m.
    split; [reflexivity|]. split; [reflexivity|]. cbv zeta. rewrite Ed.
    split; [lra|].
    split; [rewrite !map_div_1; reflexivity|].
    split; [exact Hlen|apply Hsnr; lra].
Qed.

Lemma injector_rescales_signal_and_noise_alike_witness :
  0 < calculate_power [1; 1]
  /\ 0 < calculate_power (fst (powerlaw_psd_gaussian (length [1; 1]) 0%Z))
  /\ exists out max_val,
       add_noise_with_snr [1; 1] 40 0%Z = Ok (out, 1%Z)
       /\ max_abs (zip_with Rplus [1; 1]
                     (scale_noise [1; 1]
                        (fst (powerlaw_psd_gaussian (length [1; 1]) 0%Z))
                        40))
          = Ok max_val
       /\ length out = 2%nat.
Proof.
  assert (Hs : 0 < calculate_power [1; 1])
    by (rewrite calculate_power_pair; lra).
  assert (Hn : 0 < calculate_power
                     (fst (powerlaw_psd_gaussian (length [1; 1]) 0%Z))).
  { change (fst (powerlaw_psd_gaussian (length [1; 1]) 0%Z)) with [1; 1].
    exact Hs. }
  split; [exact Hs|]. split; [exact Hn|].
  destruct (injector_rescales_signal_and_noise_alike [1; 1] 40 0%Z Hs Hn)
    as (out & m & E & Em & _ & _ & Hl & _).
  exists out, m. repeat split; assumption.
Defined.

End SnrExtras.

(** ** The frame-jitter transform at its edges *)

Lemma Qplus_0_l_eq (x : Q) : (0 + x)%Q = x.
Proof.
  destruct x as [n d]. unfold Qplus. cbn. rewrite Z.mul_1_r. reflexivity.
Qed.

Lemma take_repeat {A} (x : A) (k n : nat) :
  (k <= n)%nat -> take k (repeat x n) = repeat x k.
Proof.
  revert n. induction k as [|k IH]; intros [|n] Hk; cbn; try lia;
    try reflexivity.
  rewrite IH by lia. reflexivity.
Qed.

Lemma drop_repeat {A} (x : A) (k n : nat) :
  drop k (repeat x n) = repeat x (n - k).
Proof.
  revert n. induction k as [|k IH]; intros [|n]; cbn; try reflexivity.
  apply IH.
Qed.

Lemma zip_zeros (frame : list Q) :
  zip_with Qplus (repeat 0%Q (length frame)) frame = frame.
Proof.
  induction frame as [|x frame IH]; cbn; [reflexivity|].
  rewrite IH, Qplus_0_l_eq. reflexivity.
Qed.

Section JitterEdges.
Context {G : Type} `{RandomState G}.

(** With a maximum shift of zero the only shift that can be drawn is
    zero, and the frame is added where it was cut. *)
Lemma place_frame_unshifted (signal : list Q) (Ln i : nat) (g : G) :
  (0 < Ln)%nat -> ((i + 1) * Ln <= length signal)%nat ->
  exists g',
    AudioPert.place_frame signal (Z.of_nat Ln) 0 (Z.of_nat i)
      (take (i * Ln) signal ++ repeat 0%Q (length signal - i * Ln)) g
    = Ok (take ((i + 1) * Ln) signal
          ++ repeat 0%Q (length signal - (i + 1) * Ln), g').
Proof.
  intros HL Hfit. unfold AudioPert.place_frame.
  destruct (randint_Ok (- 0) (0 + 1) g ltac:(lia)) as (r & Er & Hr).
  rewrite (bind_Ok _ _ _ _ _ Er). cbv zeta.
  assert (r = 0) as -> by lia.
  assert (Hframe : py_slice signal (Z.of_nat i * Z.of_nat Ln)
                     (Z.of_nat i * Z.of_nat Ln + Z.of_nat Ln)
                   = take Ln (drop (i * Ln) signal)).
  { unfold py_slice. rewrite !slice_bound_in_range by nia.
    f_equal; [lia|f_equal; lia]. }
  rewrite Hframe.
  assert (Hlenf : length (take Ln (drop (i * Ln) signal)) = Ln).
  { rewrite length_take, length_drop. nia. }
  rewrite Hlenf.
  replace (Z.of_nat i * Z.of_nat Ln + 0 <? 0) with false
    by (symmetry; apply Z.ltb_ge; nia).
  replace (Z.of_nat (length signal)
           <? Z.of_nat i * Z.of_nat Ln + 0 + Z.of_nat Ln) with false
    by (symmetry; apply Z.ltb_ge; nia).
  eexists. apply lift_Ok. unfold iadd_slice.
  assert (Hout : length (take (i * Ln) signal
                         ++ repeat 0%Q (length signal - i * Ln))
                 = length signal).
  { rewrite length_app, length_take, repeat_length. nia. }
  rewrite Hout. rewrite !slice_bound_in_range by nia.
  replace (Z.to_nat (Z.of_nat i * Z.of_nat Ln + 0)) with (i * Ln)%nat by lia.
  replace (Z.to_nat (Z.of_nat i * Z.of_nat Ln + 0 + Z.of_nat Ln
                     - (Z.of_nat i * Z.of_nat Ln + 0))) with Ln by lia.
  rewrite Hlenf, Nat.eqb_refl.
  assert (Ha : length (take (i * Ln) signal) = (i * Ln)%nat)
    by (rewrite length_take; nia).
  rewrite (take_app_length' _ _ _ (eq_sym Ha)).
  rewrite (drop_app_length' _ _ _ (eq_sym Ha)).
  rewrite take_repeat by nia. rewrite drop_repeat.
  pose proof (zip_zeros (take Ln (drop (i * Ln) signal))) as Hz.
  rewrite Hlenf in Hz. rewrite Hz.
  rewrite app_assoc, take_take_drop.
  replace ((i + 1) * Ln)%nat with (i * Ln + Ln)%nat by lia.
  replace (length signal - (i * Ln + Ln))%nat
    with (length signal - i * Ln - Ln)%nat by lia.
  reflexivity.
Qed.

Lemma frames_unshifted (signal : list Q) (Ln : nat) (k i : nat) (g : G) :
  (0 < Ln)%nat -> ((i + k) * Ln <= length signal)%nat ->
  exists g',
    for_each (map Z.of_nat (seq i k))
      (AudioPert.place_frame signal (Z.of_nat Ln) 0)
      (take (i * Ln) signal ++ repeat 0%Q (length signal - i * Ln)) g
    = Ok (take ((i + k) * Ln) signal
          ++ repeat 0%Q (length signal - (i + k) * Ln), g').
Proof.
  intros HL. revert i g. induction k as [|k IH]; intros i g Hfit; cbn.
  - unfold ret. rewrite Nat.add_0_r. eauto.
  - destruct (place_frame_unshifted signal Ln i g HL ltac:(nia))
      as (g1 & E).
    rewrite (bind_Ok _ _ _ _ _ E).
    destruct (IH (S i) g1 ltac:(nia)) as (g2 & E2).
    replace (i + 1)%nat with (S i) by lia.
    rewrite E2. replace (S i + k)%nat with (i + S k)%nat by lia. eauto.
Qed.

(** X7.  Called at noise level 0 the frame-jitter transform is not the
    identity on every buffer: before normalisation its output is the input
    up to the end of the last full frame, followed by zeros in place of
    the remaining samples. *)
Theorem jitter_level_zero_clears_partial_frame
  (signal : list Q) (sr : Z) (g : G) :
  0 < AudioPert.frame_length_samples sr ->
  let kept := Z.to_nat (last_frame_end signal sr) in
  exists g',
    AudioPert.jitter_frames signal 0 sr g
    = Ok (take kept signal ++ repeat 0%Q (length signal - kept), g')
    /\ (kept <= length signal)%nat.
Proof.
  intros HL kept. unfold AudioPert.jitter_frames.
  replace (AudioPert.frame_length_samples sr =? 0) with false
    by (symmetry; apply Z.eqb_neq; lia).
  assert (Hms : AudioPert.max_shift_samples 0 sr = 0).
  { unfold AudioPert.max_shift_samples, py_int. cbn.
    rewrite Z.mul_0_r. reflexivity. }
  rewrite Hms.
  set (L := AudioPert.frame_length_samples sr) in *.
  set (F := Z.of_nat (length signal) / L).
  assert (HF : 0 <= F /\ F * L <= Z.of_nat (length signal)).
  { subst F. split; [apply Z.div_pos; lia|].
    rewrite Z.mul_comm. apply Z.mul_div_le. lia. }
  assert (Hkept : kept = (Z.to_nat F * Z.to_nat L)%nat).
  { subst kept. unfold last_frame_end. fold L. fold F. nia. }
  destruct (frames_unshifted signal (Z.to_nat L) (Z.to_nat F) 0 g
              ltac:(lia) ltac:(nia)) as (g' & E).
  exists g'. split; [|nia].
  rewrite Z2Nat.id in E by lia.
  change (0 * Z.to_nat L)%nat with 0%nat in E.
  change (take 0 signal) with (@nil Q) in E.
  change (0 + Z.to_nat F)%nat with (Z.to_nat F) in E.
  rewrite Nat.sub_0_r in E. cbn [app] in E.
  rewrite E, Hkept. reflexivity.
Qed.

End JitterEdges.

Lemma jitter_level_zero_clears_partial_frame_witness :
  0 < AudioPert.frame_length_samples 44100
  /\ exists g',
       AudioPert.jitter_frames short_buffer 0 44100 0%Z
       = Ok (take 441 short_buffer ++ repeat 0%Q 9, g').
Proof.
  assert (HL : 0 < AudioPert.frame_length_samples 44100) by reflexivity.
  split; [exact HL|].
  destruct (jitter_level_zero_clears_partial_frame short_buffer 44100 0%Z HL)
    as (g' & E & _).
  exists g'. exact E.
Defined.

(** X8.  A negative noise level whose maximum shift is negative makes the
    frame-jitter transform raise [ValueError] at the first frame: the
    bounds handed to [randint] are then empty.  It takes a signal of at
    least one full frame. *)
Theorem jitter_negative_shift_raises {G : Type} `{RandomState G}
  (signal : list Q) (noise_level : Q) (sr : Z) (g : G) :
  0 < AudioPert.frame_length_samples sr ->
  AudioPert.frame_length_samples sr <= Z.of_nat (length signal) ->
  AudioPert.max_shift_samples noise_level sr < 0 ->
  AudioPert.add_time_domain_jitter signal noise_level sr g = Raise ValueError.
Proof.
  intros HL Hfit Hms. unfold AudioPert.add_time_domain_jitter.
  apply bind_Raise. unfold AudioPert.jitter_frames.
  replace (AudioPert.frame_length_samples sr =? 0) with false
    by (symmetry; apply Z.eqb_neq; lia).
  set (L := AudioPert.frame_length_samples sr) in *.
  set (ms := AudioPert.max_shift_samples noise_level sr) in *.
  assert (HF : 1 <= Z.of_nat (length signal) / L).
  { apply Z.div_le_lower_bound; lia. }
  destruct (Z.to_nat (Z.of_nat (length signal) / L)) as [|k] eqn:Ek; [lia|].
  cbn [seq map for_each]. apply bind_Raise.
  unfold AudioPert.place_frame. apply bind_Raise. unfold randint.
  replace (- ms <? ms + 1) with false by (symmetry; apply Z.ltb_ge; lia).
  reflexivity.
Qed.

Lemma jitter_negative_shift_raises_witness :
  0 < AudioPert.frame_length_samples 44100
  /\ AudioPert.frame_length_samples 44100 <= Z.of_nat (length short_buffer)
  /\ AudioPert.max_shift_samples (- (1 # 2)) 44100 < 0
  /\ AudioPert.add_time_domain_jitter short_buffer (- (1 # 2)) 44100 0%Z
     = Raise ValueError.
Proof.
  assert (HL : 0 < AudioPert.frame_length_samples 44100) by reflexivity.
  assert (Hfit : AudioPert.frame_length_samples 44100
                 <= Z.of_nat (length short_buffer))
    by (vm_compute; discriminate).
  assert (Hms : AudioPert.max_shift_samples (- (1 # 2)) 44100 < 0)
    by reflexivity.
  split; [exact HL|]. split; [exact Hfit|]. split; [exact Hms|].
  exact (jitter_negative_shift_raises short_buffer (- (1 # 2)) 44100 0%Z
           HL Hfit Hms).
Defined.

(** X9.  The frame-jitter transform on degenerate input: a sample rate
    whose frame length is zero samples raises [ZeroDivisionError] for
    every signal, and with any other sample rate the empty signal raises
    [ValueError] (the peak of an empty buffer), for every noise level and
    generator. *)
Theorem jitter_degenerate_inputs_raise {G : Type} `{RandomState G}
  (signal : list Q) (noise_level : Q) (sr : Z) (g : G) :
  if AudioPert.frame_length_samples sr =? 0
  then AudioPert.add_time_domain_jitter signal noise_level sr g
       = Raise ZeroDivisionError
  else AudioPert.add_time_domain_jitter [] noise_level sr g
       = Raise ValueError.
Proof.
  unfold AudioPert.add_time_domain_jitter, AudioPert.jitter_frames.
  destruct (AudioPert.frame_length_samples sr =? 0); reflexivity.
Qed.

(** X10.  In the noise-level loop of audio_pert.py the second
    normalisation changes no sample of a jittered buffer that is not
    silent: above level 0 the loop writes what the transform returned. *)
Theorem loop_writes_jitter_output {G : Type} `{RandomState G} `{Spectral G}
  (y : list Q) (sr : Z) (noise_percent : Q) (g g' : G) (out : list Q) :
  Qeq_bool (noise_percent / 100) 0 = false ->
  AudioPert.add_time_domain_jitter y (noise_percent / 100) sr g
    = Ok (out, g') ->
  ~ silent out ->
  exists written,
    AudioPert.noisy_audio y sr noise_percent g = Ok (written, g')
    /\ Forall2 Qeq out written.
Proof.
  intros Hlevel Ej Hs. unfold AudioPert.noisy_audio. rewrite Hlevel.
  rewrite (bind_Ok _ _ _ _ _ Ej).
  pose proof Ej as Ej'. unfold AudioPert.add_time_domain_jitter in Ej'.
  apply bind_inv in Ej' as (pre & g1 & _ & En).
  apply lift_inv in En as (En & _).
  assert (Hpre : pre <> []) by (intros ->; discriminate).
  destruct (normalize_spec pre Hpre) as (out' & p & En' & _ & Hp & Hcase & _).
  rewrite En in En'. injection En' as <-.
  destruct Hcase as [H1|(_ & E & Hsil)]; [|subst; contradiction].
  unfold scale_by_peak. rewrite Hp. eexists. split; [reflexivity|].
  clear -H1. induction out as [|v out IH]; cbn; constructor; [|exact IH].
  rewrite H1. unfold Qdiv. field.
Qed.

Lemma loop_writes_jitter_output_witness :
  exists out g' written,
    Qeq_bool (50 / 100) 0 = false
    /\ AudioPert.add_time_domain_jitter short_buffer (50 / 100) 44100 0%Z
       = Ok (out, g')
    /\ ~ silent out
    /\ AudioPert.noisy_audio short_buffer 44100 50 0%Z = Ok (written, g')
    /\ Forall2 Qeq out written.
Proof.
  destruct (AudioPert.add_time_domain_jitter short_buffer (50 / 100) 44100 0%Z)
    as [[out g']|e] eqn:E; [|vm_compute in E; discriminate].
  assert (Hl : Qeq_bool (50 / 100) 0 = false) by reflexivity.
  assert (Hs : ~ silent out).
  { intros Hs. vm_compute in E. injection E as <- _.
    pose proof (Forall_lookup_1 _ _ 100%nat 1%Q Hs eq_refl) as Hv.
    vm_compute in Hv. discriminate. }
  destruct (loop_writes_jitter_output short_buffer 44100 50 0%Z g' out
              Hl E Hs) as (written & Ew & Heq).
  exists out, g', written. repeat split; assumption.
Defined.

(** ** What the three loops do to each note *)

Lemma for_each_inv_fresh {S A B} (I : list A -> B -> Prop)
  (xs : list A) (body : A -> B -> M S B) (acc : B) (s : S) (b' : B) (s' : S) :
  NoDup xs -> for_each xs body acc s = Ok (b', s') -> I [] acc ->
  (forall done x b t b2 t2,
     x ∉ done -> I done b -> body x b t = Ok (b2, t2) ->
     I (done ++ [x]) b2) ->
  I xs b'.
Proof.
  intros Hnd E HI Hbody.
  enough (Hgen : forall done acc s,
            NoDup (done ++ xs) ->
            for_each xs body acc s = Ok (b', s') -> I done acc ->
            I (done ++ xs) b') by exact (Hgen [] acc s Hnd E HI).
  clear acc s E HI Hnd.
  induction xs as [|x xs IH]; intros done acc s Hnd E HI; cbn in E.
  - unfold ret in E. injection E as <- <-. rewrite app_nil_r. exact HI.
  - apply bind_inv in E as (b1 & s1 & E1 & E).
    assert (Hx : x ∉ done).
    { apply NoDup_app in Hnd as (_ & Hdis & _). intros Hin.
      apply (Hdis x Hin). left. }
    replace (done ++ x :: xs) with ((done ++ [x]) ++ xs) in *
      by (rewrite <- app_assoc; reflexivity).
    eapply IH; [exact Hnd|exact E|]. eapply Hbody; eassumption.
Qed.

Lemma py_max_compat (a b b' : Q) :
  (b == b')%Q -> (py_max a b == py_max a b')%Q.
Proof.
  intros Hb. unfold py_max.
  destruct (Qlt_le_dec a b), (Qlt_le_dec a b'); Lqa.lra.
Qed.

Section LoopSpecs.
Context {G : Type} `{RandomState G} `{FloatSqrt}.

Lemma uniform_window (c : Q) (g g' : G) (x : Q) :
  (0 <= c)%Q -> uniform (- c) c g = Ok (x, g') ->
  (- c <= x)%Q /\ (x <= c)%Q.
Proof.
  intros Hc. unfold uniform, bind, draw, ret.
  pose proof (random_sample_range g) as (Hu0 & Hu1).
  destruct (random_sample g) as [u g1]. cbn [fst] in *.
  intros [= <- _]. split; Lqa.nra.
Qed.

Lemma shift_note_step (max_shift : Q) (idx : nat) (ns ns' : list Note)
  (g g' : G) :
  (0 <= max_shift)%Q ->
  shift_note max_shift idx ns g = Ok (ns', g') ->
  exists n shift,
    ns !! idx = Some n
    /\ (- max_shift <= shift)%Q /\ (shift <= max_shift)%Q
    /\ ns' = <[idx := set_end (set_start n (py_max 0 (start n + shift)))
                         (py_max 0 (start n + shift)
                          + (end_ n - start n))]> ns.
Proof.
  intros Hc. unfold shift_note. intros E.
  apply bind_inv in E as (n & g1 & En & E).
  unfold note_at in En. destruct (ns !! idx) as [n'|] eqn:Hn; [|discriminate].
  unfold ret in En. injection En as -> ->.
  apply bind_inv in E as (shift & g2 & Eu & E).
  apply (uniform_window _ _ _ _ Hc) in Eu as (Hlo & Hhi).
  unfold ret in E. injection E as <- <-. eauto 8.
Qed.

Lemma stretch_note_step (max_change : Q) (idx : nat) (ns ns' : list Note)
  (g g' : G) :
  (0 <= max_change)%Q ->
  stretch_note max_change idx ns g = Ok (ns', g') ->
  exists n change,
    ns !! idx = Some n
    /\ (- max_change <= change)%Q /\ (change <= max_change)%Q
    /\ ns' = <[idx := set_end n (start n
                                 + py_max (1 # 10)
                                     (end_ n - start n + change))]> ns.
Proof.
  intros Hc. unfold stretch_note. intros E.
  apply bind_inv in E as (n & g1 & En & E).
  unfold note_at in En. destruct (ns !! idx) as [n'|] eqn:Hn; [|discriminate].
  unfold ret in En. injection En as -> ->.
  apply bind_inv in E as (change & g2 & Eu & E).
  apply (uniform_window _ _ _ _ Hc) in Eu as (Hlo & Hhi).
  unfold ret in E. injection E as <- <-. eauto 8.
Qed.

Lemma randint_range (low high r : Z) (g g' : G) :
  randint low high g = Ok (r, g') -> low <= r < high.
Proof.
  intros E. destruct (randint_outcome low high g)
    as [(r' & g1 & E' & Hr)|E']; rewrite E' in E; [|discriminate].
  injection E as <- _. exact Hr.
Qed.

Lemma const_pitch_step (pr : bool) (lo hi : Z) (std nl : Q)
  (idx : nat) (ns ns' : list Note) (g g' : G) :
  MusConstPert.randomize_pitch pr lo hi std nl idx ns g = Ok (ns', g') ->
  exists n p, ns !! idx = Some n /\ pitch_ok pr lo hi p
              /\ ns' = <[idx := set_pitch n p]> ns.
Proof.
  unfold MusConstPert.randomize_pitch. intros E.
  apply bind_inv in E as (n & g1 & En & E).
  unfold note_at in En. destruct (ns !! idx) as [n'|] eqn:Hn; [|discriminate].
  unfold ret in En. injection En as -> ->.
  apply bind_inv in E as (p & g2 & Ep & E).
  unfold ret in E. injection E as <- <-.
  exists n, p. split; [reflexivity|]. split; [|reflexivity].
  destruct pr; cbn.
  - apply bind_inv in Ep as (x & g3 & _ & Ep).
    unfold ret in Ep. injection Ep as <- _. eexists; reflexivity.
  - apply randint_range in Ep. lia.
Qed.

Lemma comb_pitch_step (idx : nat) (ns ns' : list Note) (g g' : G) :
  MusicalPertComb.randomize_pitch idx ns g = Ok (ns', g') ->
  exists n p, ns !! idx = Some n /\ 21 <= p <= 108
              /\ ns' = <[idx := set_pitch n p]> ns.
Proof.
  unfold MusicalPertComb.randomize_pitch. intros E.
  apply bind_inv in E as (n & g1 & En & E).
  unfold note_at in En. destruct (ns !! idx) as [n'|] eqn:Hn; [|discriminate].
  unfold ret in En. injection En as -> ->.
  apply bind_inv in E as (p & g2 & Ep & E).
  unfold ret in E. injection E as <- <-.
  apply randint_range in Ep. exists n, p. repeat split; lia.
Qed.

(** The pitch loop: start and end times are untouched, a drawn position
    holds an accepted pitch, any other position the pitch it had. *)
Lemma pitch_loop_spec (ok : Z -> Prop)
  (pitch_step : nat -> list Note -> M G (list Note))
  (ip : list nat) (ns0 ns1 : list Note) (g g1 : G) :
  (forall idx ns t ns' t',
     pitch_step idx ns t = Ok (ns', t') ->
     exists n p, ns !! idx = Some n /\ ok p
                 /\ ns' = <[idx := set_pitch n p]> ns) ->
  for_each ip pitch_step ns0 g = Ok (ns1, g1) ->
  pointwise (fun j a b =>
               start b = start a /\ end_ b = end_ a
               /\ (j ∈ ip -> ok (pitch b)) /\ (j ∉ ip -> pitch b = pitch a))
            ns0 ns1.
Proof.
  intros Hstep E.
  apply (for_each_inv
           (fun done ns =>
              pointwise
                (fun j a b =>
                   start b = start a /\ end_ b = end_ a
                   /\ (j ∈ done -> ok (pitch b))
                   /\ (j ∉ done -> pitch b = pitch a)) ns0 ns)
           _ _ _ _ _ _ E).
  - apply pointwise_refl. intros j n. repeat split; auto.
    intros Hj. apply not_elem_of_nil in Hj. contradiction.
  - intros done idx ns t ns' t' HI Hs.
    apply Hstep in Hs as (n & p & Hn & Hp & ->).
    eapply pointwise_update; [exact HI|exact Hn| |]; cbv beta.
    + intros n0 _ (Hs & He & _ & _). cbn. repeat split; auto.
      intros Hj. exfalso. apply Hj, elem_of_app. right.
      apply list_elem_of_singleton. reflexivity.
    + intros j n0 m Hne (Hs & He & Hin & Hout). repeat split; auto.
      * intros Hj. apply elem_of_app in Hj as [Hj|Hj]; [auto|].
        apply list_elem_of_singleton in Hj. contradiction.
      * intros Hj. apply Hout. intros Hd. apply Hj, elem_of_app. auto.
Qed.

(** The start-time loop over distinct positions. *)
Lemma shift_loop_spec (max_shift : Q) (it : list nat)
  (ns1 ns2 : list Note) (g g2 : G) :
  (0 <= max_shift)%Q -> NoDup it ->
  for_each it (shift_note max_shift) ns1 g = Ok (ns2, g2) ->
  pointwise (fun j a b =>
               pitch b = pitch a /\ (duration b == duration a)%Q
               /\ (j ∉ it -> b = a)
               /\ (j ∈ it ->
                   exists shift,
                     (- max_shift <= shift)%Q /\ (shift <= max_shift)%Q
                     /\ start b = py_max 0 (start a + shift)))
            ns1 ns2.
Proof.
  intros Hc Hnd E.
  apply (for_each_inv_fresh
           (fun done ns =>
              pointwise
                (fun j a b =>
                   pitch b = pitch a /\ (duration b == duration a)%Q
                   /\ (j ∉ done -> b = a)
                   /\ (j ∈ done ->
                       exists shift,
                         (- max_shift <= shift)%Q /\ (shift <= max_shift)%Q
                         /\ start b = py_max 0 (start a + shift)))
                ns1 ns)
           _ _ _ _ _ _ Hnd E).
  - apply pointwise_refl. intros j n. repeat split; auto; try reflexivity.
    intros Hj. apply not_elem_of_nil in Hj. contradiction.
  - intros done idx ns t ns' t' Hfresh HI Hs.
    apply (shift_note_step _ _ _ _ _ _ Hc) in Hs
      as (n & shift & Hn & Hlo & Hhi & ->).
    eapply pointwise_update; [exact HI|exact Hn| |]; cbv beta.
    + intros n0 _ (_ & _ & Hkeep & _). rewrite (Hkeep Hfresh).
      unfold duration. cbn. split; [reflexivity|]. split; [Lqa.lra|].
      split.
      * intros Hj. exfalso. apply Hj, elem_of_app. right.
        apply list_elem_of_singleton. reflexivity.
      * intros _. exists shift. auto.
    + intros j n0 m Hne (Hp & Hd & Hout & Hin). repeat split; auto.
      * intros Hj. apply Hout. intros Hd'. apply Hj, elem_of_app. auto.
      * intros Hj. apply elem_of_app in Hj as [Hj|Hj]; [auto|].
        apply list_elem_of_singleton in Hj. contradiction.
Qed.

(** The duration loop over distinct positions. *)
Lemma stretch_loop_spec (max_change : Q) (id : list nat)
  (ns2 ns3 : list Note) (g g3 : G) :
  (0 <= max_change)%Q -> NoDup id ->
  for_each id (stretch_note max_change) ns2 g = Ok (ns3, g3) ->
  pointwise (fun j a b =>
               pitch b = pitch a /\ start b = start a
               /\ (j ∉ id -> b = a)
               /\ (j ∈ id ->
                   exists change,
                     (- max_change <= change)%Q /\ (change <= max_change)%Q
                     /\ (duration b
                         == py_max (1 # 10) (duration a + change))%Q))
            ns2 ns3.
Proof.
  intros Hc Hnd E.
  apply (for_each_inv_fresh
           (fun done ns =>
              pointwise
                (fun j a b =>
                   pitch b = pitch a /\ start b = start a
                   /\ (j ∉ done -> b = a)
                   /\ (j ∈ done ->
                       exists change,
                         (- max_change <= change)%Q
                         /\ (change <= max_change)%Q
                         /\ (duration b
                             == py_max (1 # 10) (duration a + change))%Q))
                ns2 ns)
           _ _ _ _ _ _ Hnd E).
  - apply pointwise_refl. intros j n. repeat split; auto.
    intros Hj. apply not_elem_of_nil in Hj. contradiction.
  - intros done idx ns t ns' t' Hfresh HI Hs.
    apply (stretch_note_step _ _ _ _ _ _ Hc) in Hs
      as (n & change & Hn & Hlo & Hhi & ->).
    eapply pointwise_update; [exact HI|exact Hn| |]; cbv beta.
    + intros n0 _ (_ & _ & Hkeep & _). rewrite (Hkeep Hfresh).
      cbn. split; [reflexivity|]. split; [reflexivity|]. split.
      * intros Hj. exfalso. apply Hj, elem_of_app. right.
        apply list_elem_of_singleton. reflexivity.
      * intros _. exists change. split; [exact Hlo|]. split; [exact Hhi|].
        unfold duration. cbn. Lqa.lra.
    + intros j n0 m Hne (Hp & Hd & Hout & Hin). repeat split; auto.
      * intros Hj. apply Hout. intros Hd'. apply Hj, elem_of_app. auto.
      * intros Hj. apply elem_of_app in Hj as [Hj|Hj]; [auto|].
        apply list_elem_of_singleton in Hj. contradiction.
Qed.

(** The three loops in a row. *)
Lemma three_loops_change (ok : Z -> Prop)
  (pitch_step : nat -> list Note -> M G (list Note))
  (max_shift max_change : Q) (ip it id : list nat) (ns0 ns3 : list Note)
  (g g3 : G) :
  (0 <= max_shift)%Q -> (0 <= max_change)%Q -> NoDup it -> NoDup id ->
  (forall idx ns t ns' t',
     pitch_step idx ns t = Ok (ns', t') ->
     exists n p, ns !! idx = Some n /\ ok p
                 /\ ns' = <[idx := set_pitch n p]> ns) ->
  (let* ns := for_each ip pitch_step ns0 in
   let* ns := for_each it (shift_note max_shift) ns in
   for_each id (stretch_note max_change) ns) g = Ok (ns3, g3) ->
  pointwise (note_change ok max_shift max_change ip it id) ns0 ns3.
Proof.
  intros Hs Hc Nt Nd Hstep E.
  apply bind_inv in E as (ns1 & g1 & E1 & E).
  apply bind_inv in E as (ns2 & g2 & E2 & E).
  pose proof (pitch_loop_spec ok pitch_step ip ns0 ns1 g g1 Hstep E1) as P1.
  pose proof (shift_loop_spec max_shift it ns1 ns2 g1 g2 Hs Nt E2) as P2.
  pose proof (stretch_loop_spec max_change id ns2 ns3 g2 g3 Hc Nd E) as P3.
  destruct P1 as (L1 & P1), P2 as (L2 & P2), P3 as (L3 & P3).
  split; [congruence|]. intros j a d Ha Hd.
  destruct (lookup_lt_is_Some_2 ns1 j) as [b Hb].
  { rewrite L1. eapply lookup_lt_is_Some_1. eauto. }
  destruct (lookup_lt_is_Some_2 ns2 j) as [c Hc'].
  { rewrite L2, L1. eapply lookup_lt_is_Some_1. eauto. }
  destruct (P1 j a b Ha Hb) as (Sa & Ea & Pin & Pout).
  destruct (P2 j b c Hb Hc') as (Pb & Db & Keep2 & In2).
  destruct (P3 j c d Hc' Hd) as (Pc & Sc & Keep3 & In3).
  unfold note_change. split; [|split].
  - rewrite Pc, Pb. auto.
  - split.
    + intros Hj. rewrite Sc, (Keep2 Hj). exact Sa.
    + intros Hj. destruct (In2 Hj) as (shift & Hlo & Hhi & Eb).
      exists shift. rewrite Sc, Eb, Sa. auto.
  - assert (Dab : (duration c == duration a)%Q).
    { rewrite Db. unfold duration. rewrite Sa, Ea. reflexivity. }
    split.
    + intros Hj. rewrite (Keep3 Hj). exact Dab.
    + intros Hj. destruct (In3 Hj) as (change & Hlo & Hhi & Ec).
      exists change. split; [exact Hlo|]. split; [exact Hhi|].
      rewrite Ec. apply py_max_compat. rewrite Dab. reflexivity.
Qed.
End LoopSpecs.

(** ** The pitch range of a track *)

Lemma list_minZ_spec (x : Z) (xs : list Z) :
  Forall (fun y => list_minZ x xs <= y) (x :: xs)
  /\ In (list_minZ x xs) (x :: xs).
Proof.
  unfold list_minZ. revert x. induction xs as [|y ys IH]; intros x; cbn.
  - split; [repeat constructor; lia|left; reflexivity].
  - destruct (IH (py_minZ x y)) as (Hall & Hin).
    assert (Hm : py_minZ x y <= x /\ py_minZ x y <= y
                 /\ (py_minZ x y = x \/ py_minZ x y = y)).
    { unfold py_minZ. destruct (Z.ltb_spec y x); lia. }
    apply Forall_cons in Hall as (Hhd & Htl). split.
    + repeat constructor; [lia|lia|exact Htl].
    + destruct Hin as [Hin|Hin]; [|right; right; exact Hin].
      destruct Hm as (_ & _ & [Hx|Hy]); [left|right; left]; congruence.
Qed.

Lemma list_maxZ_spec (x : Z) (xs : list Z) :
  Forall (fun y => y <= list_maxZ x xs) (x :: xs)
  /\ In (list_maxZ x xs) (x :: xs).
Proof.
  unfold list_maxZ. revert x. induction xs as [|y ys IH]; intros x; cbn.
  - split; [repeat constructor; lia|left; reflexivity].
  - destruct (IH (py_maxZ x y)) as (Hall & Hin).
    assert (Hm : x <= py_maxZ x y /\ y <= py_maxZ x y
                 /\ (py_maxZ x y = x \/ py_maxZ x y = y)).
    { unfold py_maxZ. destruct (Z.ltb_spec x y); lia. }
    apply Forall_cons in Hall as (Hhd & Htl). split.
    + repeat constructor; [lia|lia|exact Htl].
    + destruct Hin as [Hin|Hin]; [|right; right; exact Hin].
      destruct Hm as (_ & _ & [Hx|Hy]); [left|right; left]; congruence.
Qed.

(** The pitch range of a track lies in the piano range, and contains the
    track when the track lies in the piano range. *)
Lemma pitch_range_facts (instrument : Instrument) (padding : Z) :
  0 <= padding ->
  let lo := fst (get_pitch_range instrument padding) in
  let hi := snd (get_pitch_range instrument padding) in
  21 <= lo /\ hi <= 108
  /\ (Forall (fun n => 21 <= pitch n <= 108) (notes instrument) ->
      Forall (fun n => lo <= pitch n <= hi) (notes instrument)).
Proof.
  intros Hpad lo hi. subst lo hi. unfold get_pitch_range.
  destruct (notes instrument) as [|n ns] eqn:En; cbn [map fst snd].
  { split; [lia|]. split; [lia|]. constructor. }
  destruct (list_minZ_spec (pitch n) (map pitch ns)) as (Hmin & _).
  destruct (list_maxZ_spec (pitch n) (map pitch ns)) as (Hmax & _).
  set (m := list_minZ (pitch n) (map pitch ns)) in *.
  set (M := list_maxZ (pitch n) (map pitch ns)) in *.
  change (pitch n :: map pitch ns) with (map pitch (n :: ns)) in *.
  assert (Hlo : py_maxZ 21 (m - padding) = Z.max 21 (m - padding))
    by (unfold py_maxZ; destruct (Z.ltb_spec 21 (m - padding)); lia).
  assert (Hhi : py_minZ 108 (M + padding) = Z.min 108 (M + padding))
    by (unfold py_minZ; destruct (Z.ltb_spec (M + padding) 108); lia).
  rewrite Hlo, Hhi. split; [lia|]. split; [lia|].
  intros Hpiano. apply Forall_forall. intros x Hx.
  rewrite Forall_forall in Hmin. rewrite Forall_forall in Hmax.
  rewrite Forall_forall in Hpiano.
  specialize (Hpiano x Hx).
  assert (m <= pitch x <= M).
  { split; [apply Hmin|apply Hmax]; rewrite map_fmap;
      apply list_elem_of_fmap_2, Hx. }
  lia.
Qed.

(** X11.  The pitch range of a track, for a padding that is not negative:
    its lower bound is at least 21 and its upper bound at most 108; it is
    inverted, the lower bound above the upper one, exactly when the track
    has notes and they all lie more than the padding above 108, or all more
    than the padding below 21; and when every pitch of the track is in
    [21, 108] the range contains every pitch of the track. *)
Theorem get_pitch_range_bounds (instrument : Instrument) (padding : Z) :
  0 <= padding ->
  let lo := fst (get_pitch_range instrument padding) in
  let hi := snd (get_pitch_range instrument padding) in
  21 <= lo /\ hi <= 108
  /\ (hi < lo <->
      notes instrument <> []
      /\ (Forall (fun n => 108 + padding < pitch n) (notes instrument)
          \/ Forall (fun n => pitch n < 21 - padding) (notes instrument)))
  /\ (Forall (fun n => 21 <= pitch n <= 108) (notes instrument) ->
      Forall (fun n => lo <= pitch n <= hi) (notes instrument)).
Proof.
  intros Hpad lo hi. subst lo hi. unfold get_pitch_range.
  destruct (notes instrument) as [|n ns] eqn:En; cbn [map fst snd].
  { split; [lia|]. split; [lia|]. split; [|constructor].
    split; [lia|]. intros (Hne & _). congruence. }
  destruct (list_minZ_spec (pitch n) (map pitch ns)) as (Hmin & Hmin_in).
  destruct (list_maxZ_spec (pitch n) (map pitch ns)) as (Hmax & Hmax_in).
  set (m := list_minZ (pitch n) (map pitch ns)) in *.
  set (M := list_maxZ (pitch n) (map pitch ns)) in *.
  change (pitch n :: map pitch ns) with (map pitch (n :: ns)) in *.
  assert (Hlo : py_maxZ 21 (m - padding) = Z.max 21 (m - padding))
    by (unfold py_maxZ; destruct (Z.ltb_spec 21 (m - padding)); lia).
  assert (Hhi : py_minZ 108 (M + padding) = Z.min 108 (M + padding))
    by (unfold py_minZ; destruct (Z.ltb_spec (M + padding) 108); lia).
  rewrite Hlo, Hhi.
  assert (Hall : forall x, x ∈ (n :: ns) -> m <= pitch x <= M).
  { intros x Hx. rewrite Forall_forall in Hmin, Hmax.
    split; [apply Hmin|apply Hmax]; rewrite map_fmap;
      apply list_elem_of_fmap_2, Hx. }
  assert (HmM : m <= M).
  { specialize (Hall n ltac:(left)). lia. }
  split; [lia|]. split; [lia|]. split; [split|].
  - intros Hinv. split; [discriminate|].
    destruct (Z_lt_dec 108 (m - padding)) as [Hhigh|Hlow].
    + left. apply Forall_forall. intros x Hx. specialize (Hall x Hx). lia.
    + right. apply Forall_forall. intros x Hx. specialize (Hall x Hx). lia.
  - intros (_ & [Hhigh|Hlow]).
    + apply in_map_iff in Hmin_in as (x & Hx & Hin).
      rewrite Forall_forall in Hhigh.
      apply list_elem_of_In, Hhigh in Hin. lia.
    + apply in_map_iff in Hmax_in as (x & Hx & Hin).
      rewrite Forall_forall in Hlow.
      apply list_elem_of_In, Hlow in Hin. lia.
  - intros Hpiano. apply Forall_forall. intros x Hx.
    specialize (Hall x Hx). rewrite Forall_forall in Hpiano.
    specialize (Hpiano x Hx). lia.
Qed.


Lemma get_pitch_range_bounds_witness :
  0 <= 12
  /\ 21 <= fst (get_pitch_range
                  {| program := 0; is_drum := false; notes := two_notes |} 12)
  /\ snd (get_pitch_range
            {| program := 0; is_drum := false; notes := two_notes |} 12)
     <= 108.
Proof.
  assert (Hp : 0 <= 12) by lia.
  split; [exact Hp|].
  destruct (get_pitch_range_bounds
              {| program := 0; is_drum := false; notes := two_notes |} 12 Hp)
    as (Hlo & Hhi & _).
  split; assumption.
Defined.

(** ** The randomizers, note by note *)

Lemma drawn_nil (N : nat) : drawn 0 N [].
Proof. split; [reflexivity|]. split; constructor. Qed.

Lemma note_change_nil (ok : Z -> Prop) (ms mc : Q) (ns : list Note) :
  pointwise (note_change ok ms mc [] [] []) ns ns.
Proof.
  apply pointwise_refl. intros j n. unfold note_change.
  repeat split; auto; try reflexivity;
    intros Hj; apply not_elem_of_nil in Hj; contradiction.
Qed.

(** Every position below [N] is in an array of [N] distinct positions
    below [N]. *)
Lemma drawn_all (N : nat) (idx : list nat) (j : nat) :
  drawn (Z.of_nat N) N idx -> (j < N)%nat -> j ∈ idx.
Proof.
  intros (Hlen & Hnd & Hlt) Hj.
  assert (Hsub : idx ⊆+ seq 0 N).
  { apply NoDup_submseteq; [exact Hnd|]. intros x Hx.
    rewrite Forall_forall in Hlt. apply elem_of_seq. specialize (Hlt x Hx).
    lia. }
  assert (Hperm : idx ≡ₚ seq 0 N).
  { apply submseteq_length_Permutation; [exact Hsub|].
    rewrite length_seq, Hlen. lia. }
  rewrite Hperm. apply elem_of_seq. lia.
Qed.

Lemma num_notes_level_one (N : nat) :
  num_notes_to_randomize 1 N = Z.of_nat N.
Proof.
  unfold num_notes_to_randomize, py_int. cbn.
  destruct (Z.of_nat N); cbn; try reflexivity.
  - rewrite Z.quot_1_r. reflexivity.
  - rewrite Z.quot_1_r. reflexivity.
Qed.

Section TrackSpecs.
Context {G : Type} `{RandomState G} `{FloatSqrt}.

Lemma draw_indices_drawn (nl : Q) (N : nat) (g g' : G) (ip it id : list nat) :
  draw_indices nl N g = Ok ((ip, it, id), g') ->
  drawn (num_notes_to_randomize nl N) N ip
  /\ drawn (num_notes_to_randomize nl N) N it
  /\ drawn (num_notes_to_randomize nl N) N id.
Proof.
  intros E. apply draw_indices_spec in E as (_ & Hp & Ht & Hd).
  unfold drawn. tauto.
Qed.

(** One track of mus_const_pert.py. *)
Lemma const_track_change (nl : Q) (pr : bool) (i i' : Instrument) (g g' : G) :
  (0 <= nl)%Q ->
  MusConstPert.randomize_instrument nl pr i g = Ok (i', g') ->
  track_change (assigned_pitch pr i) ((1 # 2) * nl) ((1 # 2) * nl) nl i i'.
Proof.
  intros Hnl. unfold MusConstPert.randomize_instrument.
  destruct (Nat.eqb_spec (length (notes i)) 0) as [E0|_].
  { unfold ret. intros [= <- _]. split; [reflexivity|].
    split; [reflexivity|]. exists [], [], []. cbv zeta.
    rewrite E0, py_int_zero_notes.
    split; [apply drawn_nil|]. split; [apply drawn_nil|].
    split; [apply drawn_nil|apply note_change_nil]. }
  set (range := if pr then get_pitch_range i 12 else (21, 108)).
  assert (Hok : forall p, pitch_ok pr (fst range) (snd range) p
                          -> assigned_pitch pr i p).
  { subst range. unfold pitch_ok, assigned_pitch. destruct pr; cbn; auto. }
  destruct range as [lo hi]. cbn [fst snd] in Hok.
  intros E. apply bind_inv in E as ([[ip it] id] & g1 & Ed & E).
  apply bind_inv in E as (ns & g2 & Ep & E).
  unfold ret in E. injection E as <- <-.
  apply draw_indices_drawn in Ed as (Dp & Dt & Dd).
  split; [reflexivity|]. split; [reflexivity|].
  exists ip, it, id. cbv zeta. split; [exact Dp|]. split; [exact Dt|].
  split; [exact Dd|]. cbn [notes set_notes].
  eapply three_loops_change; [Lqa.lra|Lqa.lra|apply Dt|apply Dd| |exact Ep].
  intros idx ms t ms' t' Es.
  apply const_pitch_step in Es as (n & p & Hn & Hp & ->).
  exists n, p. split; [exact Hn|]. split; [apply Hok, Hp|reflexivity].
Qed.

(** One track of musical_pert_comb.py. *)
Lemma comb_track_change (nl : Q) (i i' : Instrument) (g g' : G) :
  MusicalPertComb.randomize_instrument nl i g = Ok (i', g') ->
  track_change (fun p => 21 <= p <= 108) (1 # 2) (1 # 2) nl i i'.
Proof.
  unfold MusicalPertComb.randomize_instrument.
  destruct (Nat.eqb_spec (length (notes i)) 0) as [E0|_].
  { unfold ret. intros [= <- _]. split; [reflexivity|].
    split; [reflexivity|]. exists [], [], []. cbv zeta.
    rewrite E0, py_int_zero_notes.
    split; [apply drawn_nil|]. split; [apply drawn_nil|].
    split; [apply drawn_nil|apply note_change_nil]. }
  intros E. apply bind_inv in E as ([[ip it] id] & g1 & Ed & E).
  apply bind_inv in E as (ns & g2 & Ep & E).
  unfold ret in E. injection E as <- <-.
  apply draw_indices_drawn in Ed as (Dp & Dt & Dd).
  split; [reflexivity|]. split; [reflexivity|].
  exists ip, it, id. cbv zeta. split; [exact Dp|]. split; [exact Dt|].
  split; [exact Dd|]. cbn [notes set_notes].
  eapply three_loops_change;
    [Lqa.lra|Lqa.lra|apply Dt|apply Dd| |exact Ep].
  intros idx ms t ms' t'. apply comb_pitch_step.
Qed.

(** One track of musical_pert.py: only pitches are written. *)
Lemma notes_track_change (nl : Q) (i i' : Instrument) (g g' : G) :
  MusicalPert.randomize_instrument nl i g = Ok (i', g') ->
  program i' = program i /\ is_drum i' = is_drum i
  /\ exists indices,
       drawn (num_notes_to_randomize nl (length (notes i)))
             (length (notes i)) indices
       /\ pointwise (fun j a b =>
                       start b = start a /\ end_ b = end_ a
                       /\ (j ∈ indices -> 21 <= pitch b <= 108)
                       /\ (j ∉ indices -> pitch b = pitch a))
                    (notes i) (notes i').
Proof.
  unfold MusicalPert.randomize_instrument. intros E.
  apply bind_inv in E as (indices & g1 & Ec & E).
  apply bind_inv in E as (ns & g2 & Ep & E).
  unfold ret in E. injection E as <- <-.
  apply choice_spec in Ec as (_ & Hl & Hn & Hf).
  split; [reflexivity|]. split; [reflexivity|].
  exists indices. split; [repeat split; assumption|]. cbn [notes set_notes].
  apply (pitch_loop_spec (fun p => 21 <= p <= 108)
           MusicalPertComb.randomize_pitch indices (notes i) ns g1 g2);
    [|exact Ep].
  intros idx ms t ms' t'. apply comb_pitch_step.
Qed.
End TrackSpecs.

(** X12.  What mus_const_pert.py does to a score, note by note, for a
    noise level that is not negative and whenever the call returns: tracks
    keep their program and drum flag, and in each track three arrays of
    [int(noise_level * N)] distinct positions decide everything.  A note
    drawn for the pitch loop gets a pitch the loop can assign, one drawn
    for the start-time loop starts at [max(0, old start + shift)] with
    [|shift| <= 0.5 * noise_level], one drawn for the duration loop lasts
    [max(0.1, old duration + change)] with [|change| <= 0.5 * noise_level];
    a note that is not drawn for an attribute keeps it. *)
Theorem mus_const_pert_note_by_note
  {G : Type} `{RandomState G} `{FloatSqrt}
  (pm pm' : PrettyMIDI) (noise_level : Q) (preserve_range : bool) (g g' : G) :
  (0 <= noise_level)%Q ->
  MusConstPert.randomize_midi pm noise_level preserve_range g = Ok (pm', g') ->
  Forall2 (fun i0 i =>
             track_change (assigned_pitch preserve_range i0)
               ((1 # 2) * noise_level) ((1 # 2) * noise_level)
               noise_level i0 i)
          (instruments pm) (instruments pm').
Proof.
  intros Hnl E. unfold MusConstPert.randomize_midi in E.
  apply bind_inv in E as (tracks & g1 & Et & E).
  unfold ret in E. injection E as <- <-. cbn [instruments].
  eapply each_instrument_inv; [exact Et|].
  intros i t i' t'. apply const_track_change, Hnl.
Qed.

(** X13.  The same for musical_pert_comb.py, for any noise level with
    which the call returns: a drawn pitch lies in [21, 108], and the
    windows for the shift of a start time and for the change of a duration
    are 0.5 s whatever the noise level. *)
Theorem musical_pert_comb_note_by_note
  {G : Type} `{RandomState G}
  (pm pm' : PrettyMIDI) (noise_level : Q) (g g' : G) :
  MusicalPertComb.randomize_midi pm noise_level g = Ok (pm', g') ->
  Forall2 (track_change (fun p => 21 <= p <= 108) (1 # 2) (1 # 2)
                        noise_level)
          (instruments pm) (instruments pm').
Proof.
  intros E. unfold MusicalPertComb.randomize_midi in E.
  apply bind_inv in E as (tracks & g1 & Et & E).
  unfold ret in E. injection E as <- <-. cbn [instruments].
  eapply each_instrument_inv; [exact Et|].
  intros i t i' t'. apply comb_track_change.
Qed.


Lemma mus_const_pert_note_by_note_witness :
  exists pm' g',
    (0 <= 1 # 2)%Q
    /\ MusConstPert.randomize_midi (one_track two_notes) (1 # 2) true 0%Z
       = Ok (pm', g')
    /\ Forall2 (fun i0 i =>
                  track_change (assigned_pitch true i0)
                    ((1 # 2) * (1 # 2)) ((1 # 2) * (1 # 2)) (1 # 2) i0 i)
               (instruments (one_track two_notes)) (instruments pm').
Proof.
  destruct (MusConstPert.randomize_midi (one_track two_notes) (1 # 2) true 0%Z)
    as [[pm' g']|e] eqn:E; [|vm_compute in E; discriminate].
  assert (Ha : (0 <= 1 # 2)%Q) by (unfold Qle; cbn; lia).
  exists pm', g'. split; [exact Ha|]. split; [reflexivity|].
  exact (mus_const_pert_note_by_note _ _ _ _ _ _ Ha E).
Defined.

Lemma musical_pert_comb_note_by_note_witness :
  exists pm' g',
    MusicalPertComb.randomize_midi (one_track two_notes) (1 # 2) 0%Z
    = Ok (pm', g')
    /\ Forall2 (track_change (fun p => 21 <= p <= 108) (1 # 2) (1 # 2)
                             (1 # 2))
               (instruments (one_track two_notes)) (instruments pm').
Proof.
  destruct (MusicalPertComb.randomize_midi (one_track two_notes) (1 # 2) 0%Z)
    as [[pm' g']|e] eqn:E; [|vm_compute in E; discriminate].
  exists pm', g'. split; [reflexivity|].
  exact (musical_pert_comb_note_by_note _ _ _ _ _ E).
Defined.


(** ** Bounds that follow for the times and the pitches *)

Lemma note_change_window (ok : Z -> Prop) (ms mc : Q) (ip it id : list nat)
  (j : nat) (n0 n : Note) :
  note_change ok ms mc ip it id j n0 n -> (0 <= ms)%Q -> (0 <= mc)%Q ->
  ((0 <= start n0)%Q ->
   (- ms <= start n - start n0)%Q /\ (start n - start n0 <= ms)%Q)
  /\ ((1 # 10 <= duration n0)%Q ->
      (- mc <= duration n - duration n0)%Q
      /\ (duration n - duration n0 <= mc)%Q).
Proof.
  intros (_ & (Skeep & Sin) & (Dkeep & Din)) Hms Hmc. split.
  - intros Hs0. destruct (decide (j ∈ it)) as [Hj|Hj].
    + destruct (Sin Hj) as (shift & Hlo & Hhi & ->). unfold py_max.
      destruct (Qlt_le_dec 0 (start n0 + shift)); split; Lqa.lra.
    + rewrite (Skeep Hj). split; Lqa.lra.
  - intros Hd0. destruct (decide (j ∈ id)) as [Hj|Hj].
    + destruct (Din Hj) as (change & Hlo & Hhi & E). rewrite E.
      unfold py_max.
      destruct (Qlt_le_dec (1 # 10) (duration n0 + change)); split; Lqa.lra.
    + rewrite (Dkeep Hj). split; Lqa.lra.
Qed.

Lemma track_change_window (ok : Z -> Prop) (ms mc nl : Q)
  (i0 i : Instrument) :
  (0 <= ms)%Q -> (0 <= mc)%Q -> track_change ok ms mc nl i0 i ->
  pointwise (fun _ n0 n =>
               ((0 <= start n0)%Q ->
                (- ms <= start n - start n0)%Q
                /\ (start n - start n0 <= ms)%Q)
               /\ ((1 # 10 <= duration n0)%Q ->
                   (- mc <= duration n - duration n0)%Q
                   /\ (duration n - duration n0 <= mc)%Q))
            (notes i0) (notes i).
Proof.
  intros Hms Hmc (_ & _ & ip & it & id & _ & _ & _ & Hp).
  eapply pointwise_impl; [exact Hp|]. intros j n0 n Hc.
  cbv beta. eapply note_change_window; eassumption.
Qed.

(** X15.  For a noise level in [0, 1] both randomizers return a score in
    which no note that started at a non-negative time has moved by more
    than the shift window, and no note that lasted at least 0.1 s has
    changed its duration by more than the change window: the window is
    [0.5 * noise_level] seconds in mus_const_pert.py and 0.5 s in
    musical_pert_comb.py. *)
Theorem randomize_moves_times_within_window
  {G : Type} `{RandomState G} `{FloatSqrt}
  (pm : PrettyMIDI) (noise_level : Q) (preserve_range : bool) (g : G) :
  (0 <= noise_level)%Q -> (noise_level <= 1)%Q ->
  let within (w : Q) (i0 i : Instrument) :=
    pointwise (fun _ n0 n =>
                 ((0 <= start n0)%Q ->
                  (- w <= start n - start n0)%Q
                  /\ (start n - start n0 <= w)%Q)
                 /\ ((1 # 10 <= duration n0)%Q ->
                     (- w <= duration n - duration n0)%Q
                     /\ (duration n - duration n0 <= w)%Q))
              (notes i0) (notes i) in
  (exists pm' g',
     MusConstPert.randomize_midi pm noise_level preserve_range g = Ok (pm', g')
     /\ Forall2 (within ((1 # 2) * noise_level)%Q)
                (instruments pm) (instruments pm'))
  /\ (exists pm' g',
        MusicalPertComb.randomize_midi pm noise_level g = Ok (pm', g')
        /\ Forall2 (within (1 # 2)%Q) (instruments pm) (instruments pm')).
Proof.
  intros Hlo Hhi within.
  pose proof (sample_size_ok_unit_interval noise_level (instruments pm)
                Hlo Hhi) as Hk.
  split.
  - destruct (MusConstPertFacts.randomize_midi_total pm noise_level
                preserve_range g Hk) as (pm' & g' & E & _).
    exists pm', g'. split; [exact E|].
    unfold MusConstPert.randomize_midi in E.
    apply bind_inv in E as (tracks & g1 & Et & E).
    unfold ret in E. injection E as <- <-. cbn [instruments].
    eapply each_instrument_inv; [exact Et|].
    intros i t i' t' Ei. apply (const_track_change _ _ _ _ _ _ Hlo) in Ei.
    eapply track_change_window; [| |exact Ei]; Lqa.lra.
  - destruct (MusicalPertCombFacts.comb_randomize_midi_total pm noise_level
                g Hk) as (pm' & g' & E & _).
    exists pm', g'. split; [exact E|].
    unfold MusicalPertComb.randomize_midi in E.
    apply bind_inv in E as (tracks & g1 & Et & E).
    unfold ret in E. injection E as <- <-. cbn [instruments].
    eapply each_instrument_inv; [exact Et|].
    intros i t i' t' Ei. apply comb_track_change in Ei.
    eapply track_change_window; [| |exact Ei]; Lqa.lra.
Qed.

Lemma randomize_moves_times_within_window_witness :
  (0 <= 1 # 2)%Q /\ (1 # 2 <= 1)%Q
  /\ exists pm' g',
       MusicalPertComb.randomize_midi (one_track two_notes) (1 # 2) 0%Z
       = Ok (pm', g').
Proof.
  assert (Ha : (0 <= 1 # 2)%Q) by (unfold Qle; cbn; lia).
  assert (Hb : (1 # 2 <= 1)%Q) by (unfold Qle; cbn; lia).
  split; [exact Ha|]. split; [exact Hb|].
  destruct (proj2 (randomize_moves_times_within_window
                     (one_track two_notes) (1 # 2) true 0%Z Ha Hb))
    as (pm' & g' & E & _).
  exists pm', g'. exact E.
Defined.

Lemma all_drawn_pitches (ok : Z -> Prop) (ms mc : Q) (i0 i : Instrument) :
  track_change ok ms mc 1 i0 i -> Forall (fun n => ok (pitch n)) (notes i).
Proof.
  intros (_ & _ & ip & it & id & Dp & _ & _ & (Hlen & Hp)).
  cbv zeta in Dp. rewrite num_notes_level_one in Dp.
  apply Forall_lookup. intros j n Hn.
  destruct (lookup_lt_is_Some_2 (notes i0) j) as [n0 Hn0].
  { rewrite <- Hlen. eapply lookup_lt_is_Some_1. eauto. }
  destruct (Hp j n0 n Hn0 Hn) as ((Hin & _) & _). apply Hin.
  eapply drawn_all; [exact Dp|]. eapply lookup_lt_is_Some_1. eauto.
Qed.

(** X16.  At noise level 1 every note is drawn in every loop, as the
    docstrings say: the three randomizers return for every score and
    generator, and
    in the result of musical_pert_comb.py, of musical_pert.py and of
    mus_const_pert.py without range preservation every note of every track
    has a pitch in [21, 108]. *)
Theorem level_one_redraws_every_pitch
  {G : Type} `{RandomState G} `{FloatSqrt} (pm : PrettyMIDI) (g : G) :
  let piano (pm' : PrettyMIDI) :=
    Forall (fun i => Forall (fun n => 21 <= pitch n <= 108) (notes i))
           (instruments pm') in
  (exists pm' g',
     MusicalPertComb.randomize_midi pm 1 g = Ok (pm', g') /\ piano pm')
  /\ (exists pm' g',
        MusicalPert.randomize_midi_notes pm 1 g = Ok (pm', g') /\ piano pm')
  /\ (exists pm' g',
        MusConstPert.randomize_midi pm 1 false g = Ok (pm', g')
        /\ piano pm').
Proof.
  intros piano.
  assert (H01 : (0 <= 1)%Q) by (unfold Qle; cbn; lia).
  assert (H11 : (1 <= 1)%Q) by (unfold Qle; cbn; lia).
  pose proof (sample_size_ok_unit_interval 1 (instruments pm) H01 H11) as Hk.
  assert (Hall : forall (R : Instrument -> Instrument -> Prop) tracks tracks',
            Forall2 R tracks tracks' ->
            (forall i0 i, R i0 i ->
                          Forall (fun n => 21 <= pitch n <= 108) (notes i)) ->
            Forall (fun i => Forall (fun n => 21 <= pitch n <= 108) (notes i))
                   tracks').
  { intros R tracks tracks' HR Himp.
    induction HR; constructor; eauto. }
  split; [|split].
  - destruct (MusicalPertCombFacts.comb_randomize_midi_total pm 1 g Hk)
      as (pm' & g' & E & _).
    exists pm', g'. split; [exact E|].
    unfold MusicalPertComb.randomize_midi in E.
    apply bind_inv in E as (tracks & g1 & Et & E).
    unfold ret in E. injection E as <- <-. subst piano. cbn [instruments].
    eapply Hall.
    + eapply each_instrument_inv; [exact Et|].
      intros i t i' t'. apply comb_track_change.
    + intros i0 i. apply all_drawn_pitches.
  - destruct (MusicalPertFacts.randomize_midi_notes_total pm 1 g Hk)
      as (pm' & g' & E & _).
    exists pm', g'. split; [exact E|].
    unfold MusicalPert.randomize_midi_notes in E.
    apply bind_inv in E as (tracks & g1 & Et & E).
    unfold ret in E. injection E as <- <-. subst piano. cbn [instruments].
    eapply Hall.
    + eapply each_instrument_inv; [exact Et|].
      intros i t i' t'. apply notes_track_change.
    + cbv beta. intros i0 i (_ & _ & indices & Dp & (Hlen & Hp)).
      rewrite num_notes_level_one in Dp.
      apply Forall_lookup. intros j n Hn.
      destruct (lookup_lt_is_Some_2 (notes i0) j) as [n0 Hn0].
      { rewrite <- Hlen. eapply lookup_lt_is_Some_1. eauto. }
      destruct (Hp j n0 n Hn0 Hn) as (_ & _ & Hin & _). apply Hin.
      eapply drawn_all; [exact Dp|]. eapply lookup_lt_is_Some_1. eauto.
  - destruct (MusConstPertFacts.randomize_midi_total pm 1 false g Hk)
      as (pm' & g' & E & _).
    exists pm', g'. split; [exact E|].
    unfold MusConstPert.randomize_midi in E.
    apply bind_inv in E as (tracks & g1 & Et & E).
    unfold ret in E. injection E as <- <-. subst piano. cbn [instruments].
    eapply Hall.
    + eapply each_instrument_inv; [exact Et|].
      intros i t i' t'. apply const_track_change, H01.
    + intros i0 i Hc. apply all_drawn_pitches in Hc. exact Hc.
Qed.

(** ** Range preservation on tracks in the piano range *)

Lemma Forall2_right_weaken {A B} (R : A -> B -> Prop) (P : B -> Prop)
  (l : list A) (k : list B) :
  Forall2 R l k -> (forall x y, R x y -> P y) -> Forall P k.
Proof. intros HR Himp. induction HR; constructor; eauto. Qed.

Lemma clamped_between (lo hi p : Z) :
  lo <= hi -> clamped lo hi p -> lo <= p <= hi.
Proof.
  intros Hle (x & ->). unfold py_maxZ, py_minZ.
  destruct (Z.ltb_spec x hi).
  - destruct (Z.ltb_spec lo x); lia.
  - destruct (Z.ltb_spec lo hi); lia.
Qed.

Lemma track_stays_in_range (ms mc nl : Q) (i0 i : Instrument) :
  Forall (fun n => 21 <= pitch n <= 108) (notes i0) ->
  track_change (assigned_pitch true i0) ms mc nl i0 i ->
  Forall (fun n => fst (get_pitch_range i0 12) <= pitch n
                   <= snd (get_pitch_range i0 12)) (notes i).
Proof.
  intros Hpiano (_ & _ & ip & it & id & _ & _ & _ & (Hlen & Hp)).
  destruct (pitch_range_facts i0 12 ltac:(lia)) as (_ & _ & Hin).
  cbv zeta in Hin. specialize (Hin Hpiano).
  apply Forall_lookup. intros j n Hn.
  destruct (lookup_lt_is_Some_2 (notes i0) j) as [n0 Hn0].
  { rewrite <- Hlen. eapply lookup_lt_is_Some_1. eauto. }
  assert (Hn0r : fst (get_pitch_range i0 12) <= pitch n0
                 <= snd (get_pitch_range i0 12)).
  { rewrite Forall_lookup in Hin. exact (Hin j n0 Hn0). }
  destruct (Hp j n0 n Hn0 Hn) as ((Hdrawn & Hkept) & _).
  destruct (decide (j ∈ ip)) as [Hj|Hj].
  - apply clamped_between; [lia|]. exact (Hdrawn Hj).
  - rewrite (Hkept Hj). exact Hn0r.
Qed.

(** X17.  With [preserve_range] a score whose pitches all lie in the piano
    range [21, 108] keeps every track inside the range that track had:
    whenever mus_const_pert.py's randomizer returns at a noise level that
    is not negative, every note of every track has a pitch between the
    bounds [get_pitch_range] gives for the original track, drawn or not,
    and so between 21 and 108. *)
Theorem preserve_range_keeps_piano_tracks_in_range
  {G : Type} `{RandomState G} `{FloatSqrt}
  (pm pm' : PrettyMIDI) (noise_level : Q) (g g' : G) :
  (0 <= noise_level)%Q ->
  Forall (fun i => Forall (fun n => 21 <= pitch n <= 108) (notes i))
         (instruments pm) ->
  MusConstPert.randomize_midi pm noise_level true g = Ok (pm', g') ->
  Forall2 (fun i0 i =>
             Forall (fun n =>
                       (fst (get_pitch_range i0 12) <= pitch n
                        <= snd (get_pitch_range i0 12))
                       /\ 21 <= pitch n <= 108)
                    (notes i))
          (instruments pm) (instruments pm').
Proof.
  intros Hnl Hpiano E.
  unfold MusConstPert.randomize_midi in E.
  apply bind_inv in E as (tracks & g1 & Et & E).
  unfold ret in E. injection E as <- <-. cbn [instruments].
  assert (HR : Forall2 (fun i0 i =>
                          track_change (assigned_pitch true i0)
                            ((1 # 2) * noise_level) ((1 # 2) * noise_level)
                            noise_level i0 i)
                       (instruments pm) tracks).
  { eapply each_instrument_inv; [exact Et|].
    intros i t i' t' Ei. exact (const_track_change _ _ _ _ _ _ Hnl Ei). }
  clear Et. induction HR as [|i0 i l0 l Hc _ IH]; [constructor|].
  apply Forall_cons in Hpiano as (Hi0 & Hrest).
  constructor; [|exact (IH Hrest)].
  pose proof (track_stays_in_range _ _ _ _ _ Hi0 Hc) as Hin.
  destruct (pitch_range_facts i0 12 ltac:(lia)) as (Hlo & Hhi & _).
  cbv zeta in Hlo, Hhi.
  eapply Forall_impl; [exact Hin|]. cbv beta. intros n Hn. lia.
Qed.

Lemma preserve_range_keeps_piano_tracks_in_range_witness :
  exists pm' g',
    (0 <= 1)%Q
    /\ MusConstPert.randomize_midi (one_track two_notes) 1 true 0%Z
       = Ok (pm', g')
    /\ Forall (fun i => Forall (fun n => 21 <= pitch n <= 108) (notes i))
              (instruments pm').
Proof.
  destruct (MusConstPert.randomize_midi (one_track two_notes) 1 true 0%Z)
    as [[pm' g']|e] eqn:E; [|vm_compute in E; discriminate].
  assert (Ha : (0 <= 1)%Q) by (unfold Qle; cbn; lia).
  assert (Hp : Forall (fun i => Forall (fun n => 21 <= pitch n <= 108)
                                       (notes i))
                      (instruments (one_track two_notes))).
  { repeat constructor; cbn; lia. }
  exists pm', g'. split; [exact Ha|]. split; [reflexivity|].
  pose proof (preserve_range_keeps_piano_tracks_in_range
                _ _ _ _ _ Ha Hp E) as HR.
  eapply Forall2_right_weaken; [exact HR|]. cbv beta. intros i0 i Hi.
  eapply Forall_impl; [exact Hi|]. cbv beta. tauto.
Defined.

(** ** The noise-level loop over all levels *)

Section LoopFacts2.
Context {G : Type} `{Synthesizer}.

Lemma written_frame (f : Q -> PrettyMIDI -> M G PrettyMIDI)
  (emit : list Q -> outcome (list Q))
  (p : ref) (v : PrettyMIDI) (h h2 : gmap ref PrettyMIDI)
  (qs : list Q) (ws : list (ref * list Q)) :
  (forall r w, h !! r = Some w -> h2 !! r = Some w) ->
  Forall2 (written_from_original f emit p v h) qs ws ->
  Forall2 (written_from_original f emit p v h2) qs ws.
Proof.
  intros Hsub HF. induction HF as [|q r qs rs Hq _ IH]; constructor;
    [|exact IH].
  destruct Hq as (Hfrom & w & Hw & He). split.
  - unfold from_original in *. destruct (Qeq_bool (q / 100) 0); [exact Hfrom|].
    destruct Hfrom as (Hne & t & v' & t' & Ef & Hl).
    split; [exact Hne|]. exists t, v', t'. split; [exact Ef|].
    apply Hsub, Hl.
  - exists w. split; [apply Hsub, Hw|exact He].
Qed.

(** Choosing the score of one level. *)
Lemma noisy_score_chosen (f : Q -> PrettyMIDI -> M G PrettyMIDI)
  (p : ref) (v : PrettyMIDI) (q : Q) (h : gmap ref PrettyMIDI) (g : G) :
  h !! p = Some v ->
  (forall w t, exists r, f (q / 100)%Q w t = Ok r) ->
  exists r h1 g1 w,
    noisy_score (fun pm nl => in_place (f nl) pm) p q (h, g)
    = Ok (r, (h1, g1))
    /\ (forall r' w', h !! r' = Some w' -> h1 !! r' = Some w')
    /\ h1 !! r = Some w
    /\ from_original f p v h1 q r
    /\ (w = v \/ exists t t', f (q / 100)%Q v t = Ok (w, t')).
Proof.
  intros Hv Hf. unfold noisy_score, from_original.
  destruct (Qeq_bool (q / 100) 0) eqn:Eq.
  { exists p, h, g, v. unfold ret. repeat split; auto. }
  set (r := fresh (dom h)).
  assert (Hr : h !! r = None) by (apply not_elem_of_dom, is_fresh).
  assert (Hne : r <> p) by (intros ->; congruence).
  destruct (Hf v g) as ([v' g1] & Ef).
  exists r, (<[r := v']> (<[r := v]> h)), g1, v'.
  split.
  { unfold bind, deepcopy, in_place. rewrite Hv. fold r.
    rewrite lookup_insert_eq, Ef. reflexivity. }
  split.
  { intros r' w' Hl. assert (r <> r') by (intros ->; congruence).
    rewrite !lookup_insert_ne by assumption. exact Hl. }
  split; [apply lookup_insert_eq|]. split.
  - split; [exact Hne|]. exists g, v', g1. split; [exact Ef|].
    apply lookup_insert_eq.
  - right. eauto.
Qed.

Lemma process_levels_outcome (f : Q -> PrettyMIDI -> M G PrettyMIDI)
  (emit : list Q -> outcome (list Q))
  (p : ref) (v : PrettyMIDI) (levels : list Q) :
  (forall y e, emit y = Raise e -> e = ValueError) ->
  Forall (fun q => forall w t, exists r, f (q / 100)%Q w t = Ok r) levels ->
  forall (done : list Q) (written : list (ref * list Q))
         (h : gmap ref PrettyMIDI) (g : G),
    h !! p = Some v ->
    Forall2 (written_from_original f emit p v h) done written ->
    let run :=
      for_each levels
        (fun noise_percent written =>
           let* pm_noisy :=
             noisy_score (fun pm nl => in_place (f nl) pm) p noise_percent in
           let* score := read pm_noisy in
           let* y_noisy := lift (emit (synthesize score)) in
           ret (written ++ [(pm_noisy, y_noisy)]))
        written (h, g) in
    run = Raise ValueError
    \/ exists written' h' g',
         run = Ok (written', (h', g'))
         /\ h' !! p = Some v
         /\ Forall2 (written_from_original f emit p v h')
                    (done ++ levels) written'.
Proof.
  intros Hemit Hf. induction Hf as [|q levels Hq _ IH];
    intros done written h g Hv Hdone; cbn [for_each]; cbv zeta.
  { right. exists written, h, g. unfold ret. rewrite app_nil_r. auto. }
  destruct (noisy_score_chosen f p v q h g Hv Hq)
    as (r & h1 & g1 & w & Es & Hsub & Hw & Hfrom & _).
  assert (Er : read r (h1, g1) = Ok (w, (h1, g1))).
  { unfold read. rewrite Hw. reflexivity. }
  destruct (emit (synthesize w)) as [y|e] eqn:Ee.
  - rewrite (bind_Ok _ _ _ (written ++ [(r, y)]) (h1, g1)).
    2:{ rewrite (bind_Ok _ _ _ _ _ Es), (bind_Ok _ _ _ _ _ Er).
        unfold lift, bind, ret. rewrite Ee. reflexivity. }
    destruct (IH (done ++ [q]) (written ++ [(r, y)]) h1 g1 (Hsub _ _ Hv))
      as [Eraise|(written' & h' & g' & E & Hv' & HF)].
    { apply Forall2_app.
      - eapply written_frame; [exact Hsub|exact Hdone].
      - constructor; [|constructor]. split; [exact Hfrom|].
        exists w. split; [exact Hw|exact Ee]. }
    + left. exact Eraise.
    + right. exists written', h', g'. rewrite <- app_assoc in HF. auto.
  - left. apply bind_Raise.
    rewrite (bind_Ok _ _ _ _ _ Es), (bind_Ok _ _ _ _ _ Er).
    unfold lift, bind. rewrite Ee. rewrite (Hemit _ _ Ee). reflexivity.
Qed.

Lemma process_levels_total (f : Q -> PrettyMIDI -> M G PrettyMIDI)
  (emit : list Q -> outcome (list Q))
  (p : ref) (v : PrettyMIDI) (levels : list Q) :
  (forall y, y <> [] -> exists out, emit y = Ok out) ->
  synthesize v <> [] ->
  Forall (fun q =>
            (forall w t, exists r, f (q / 100)%Q w t = Ok r)
            /\ (forall t v' t',
                  f (q / 100)%Q v t = Ok (v', t') -> synthesize v' <> []))
         levels ->
  forall (written : list (ref * list Q)) (h : gmap ref PrettyMIDI) (g : G),
    h !! p = Some v ->
    exists res,
      for_each levels
        (fun noise_percent written =>
           let* pm_noisy :=
             noisy_score (fun pm nl => in_place (f nl) pm) p noise_percent in
           let* score := read pm_noisy in
           let* y_noisy := lift (emit (synthesize score)) in
           ret (written ++ [(pm_noisy, y_noisy)]))
        written (h, g) = Ok res.
Proof.
  intros Hemit Hv0 Hf. induction Hf as [|q levels (Hq & Hs) _ IH];
    intros written h g Hv; cbn [for_each].
  { unfold ret. eauto. }
  destruct (noisy_score_chosen f p v q h g Hv Hq)
    as (r & h1 & g1 & w & Es & Hsub & Hw & _ & Horigin).
  assert (Er : read r (h1, g1) = Ok (w, (h1, g1))).
  { unfold read. rewrite Hw. reflexivity. }
  assert (Hne : synthesize w <> []).
  { destruct Horigin as [->|(t & t' & Ef)]; [exact Hv0|].
    eapply Hs, Ef. }
  destruct (Hemit _ Hne) as (y & Ee).
  rewrite (bind_Ok _ _ _ (written ++ [(r, y)]) (h1, g1)).
  2:{ rewrite (bind_Ok _ _ _ _ _ Es), (bind_Ok _ _ _ _ _ Er).
      unfold lift, bind, ret. rewrite Ee. reflexivity. }
  apply IH, Hsub, Hv.
Qed.
End LoopFacts2.

Lemma normalize_raises (y : list Q) (e : exn) :
  normalize y = Raise e -> e = ValueError.
Proof.
  unfold normalize, peak. destruct (map Qabs y); [congruence|].
  destruct (Qlt_le_dec 0 _); discriminate.
Qed.

Lemma normalize_and_clip_raises (y : list Q) (c : Q) (sr : Z) (e : exn) :
  normalize_and_clip y c sr = Raise e -> e = ValueError.
Proof.
  unfold normalize_and_clip. destruct (normalize y) eqn:E; [discriminate|].
  intros [= <-]. eapply normalize_raises, E.
Qed.

Lemma normalize_returns (y : list Q) :
  y <> [] -> exists out, normalize y = Ok out.
Proof. intros Hy. destruct (normalize_spec y Hy) as (out & _ & E & _). eauto. Qed.

Lemma normalize_and_clip_returns (y : list Q) (c : Q) (sr : Z) :
  y <> [] -> exists out, normalize_and_clip y c sr = Ok out.
Proof.
  intros Hy. destruct (normalize_returns y Hy) as (out & E).
  unfold normalize_and_clip. rewrite E. eauto.
Qed.

Section WholeLoop.
Context {G : Type} `{Synthesizer}.

Lemma process_levels_spec (f : Q -> PrettyMIDI -> M G PrettyMIDI)
  (emit : list Q -> outcome (list Q))
  (h : gmap ref PrettyMIDI) (g : G) (p : ref) (v : PrettyMIDI)
  (levels : list Q) :
  (forall y e, emit y = Raise e -> e = ValueError) ->
  (forall y, y <> [] -> exists out, emit y = Ok out) ->
  Forall (fun q => forall w t, exists r, f (q / 100)%Q w t = Ok r) levels ->
  h !! p = Some v ->
  let run := process_levels (fun pm nl => in_place (f nl) pm) emit p levels
                            (h, g) in
  (run = Raise ValueError
   \/ exists written h' g',
        run = Ok (written, (h', g'))
        /\ h' !! p = Some v
        /\ Forall2 (written_from_original f emit p v h') levels written)
  /\ (audible f v levels -> exists res, run = Ok res).
Proof.
  intros Hraise Hret Hf Hv run. split.
  - apply (process_levels_outcome f emit p v levels Hraise Hf [] [] h g Hv).
    constructor.
  - intros (Hv0 & Hall). subst run. unfold process_levels.
    apply (process_levels_total f emit p v levels Hret Hv0); [|exact Hv].
    apply Forall_forall. intros q Hq. split.
    + rewrite Forall_forall in Hf. apply Hf, Hq.
    + intros t v' t'. apply Hall, Hq.
Qed.
End WholeLoop.

(** X18.  Noise is not cumulative across the levels of one file.  For every
    list of percentages in [0, 100] the noise-level loop of each of the
    three note-event scripts either aborts with [ValueError], which is the
    normalisation of an empty synthesized buffer, or runs to its end; then
    the original object holds the score it held before, and at each level
    the object synthesized is the original itself at level 0 and otherwise
    a separate object holding a randomization of the original score, never
    of the score of an earlier level, and the buffer written is the
    normalised (and, where the script clips, clipped) synthesis of that
    object's score.  The loop runs to its end when the original score and
    its randomizations at these levels synthesize to buffers that are not
    empty. *)
Theorem every_level_starts_from_the_original
  {G : Type} `{RandomState G} `{FloatSqrt} `{Synthesizer}
  (h : gmap ref PrettyMIDI) (g : G) (pm_original : ref) (v : PrettyMIDI)
  (noise_levels : list Q) (clip_duration : Q) :
  h !! pm_original = Some v ->
  Forall (fun q => (0 <= q)%Q /\ (q <= 100)%Q) noise_levels ->
  let independent (f : Q -> PrettyMIDI -> M G PrettyMIDI)
                  (emit : list Q -> outcome (list Q)) :=
    let run := process_levels (fun pm nl => in_place (f nl) pm) emit
                              pm_original noise_levels (h, g) in
    (run = Raise ValueError
     \/ exists written h' g',
          run = Ok (written, (h', g'))
          /\ h' !! pm_original = Some v
          /\ Forall2 (written_from_original f emit pm_original v h')
                     noise_levels written)
    /\ (audible f v noise_levels -> exists res, run = Ok res) in
  independent (fun nl w => MusConstPert.randomize_midi w nl true)
              (fun y => normalize_and_clip y clip_duration 44100)
  /\ independent (fun nl w => MusicalPertComb.randomize_midi w nl)
                 (fun y => normalize_and_clip y clip_duration 44100)
  /\ independent (fun nl w => MusicalPert.randomize_midi_notes w nl)
                 normalize.
Proof.
  intros Hv Hlevels independent. subst independent. cbv beta.
  split; [|split].
  - apply process_levels_spec; [| | |exact Hv].
    + intros y e. apply normalize_and_clip_raises.
    + intros y. apply normalize_and_clip_returns.
    + eapply Forall_impl; [exact Hlevels|]. cbv beta.
      intros q (Hlo & Hhi) w t.
      destruct (percent_to_level q Hlo Hhi) as (Hl0 & Hl1).
      destruct (MusConstPertFacts.randomize_midi_total w _ true t
                  (sample_size_ok_unit_interval _ _ Hl0 Hl1))
        as (w' & t' & E & _). eauto.
  - apply process_levels_spec; [| | |exact Hv].
    + intros y e. apply normalize_and_clip_raises.
    + intros y. apply normalize_and_clip_returns.
    + eapply Forall_impl; [exact Hlevels|]. cbv beta.
      intros q (Hlo & Hhi) w t.
      destruct (percent_to_level q Hlo Hhi) as (Hl0 & Hl1).
      destruct (MusicalPertCombFacts.comb_randomize_midi_total w _ t
                  (sample_size_ok_unit_interval _ _ Hl0 Hl1))
        as (w' & t' & E & _). eauto.
  - apply process_levels_spec; [| | |exact Hv].
    + apply normalize_raises.
    + apply normalize_returns.
    + eapply Forall_impl; [exact Hlevels|]. cbv beta.
      intros q (Hlo & Hhi) w t.
      destruct (percent_to_level q Hlo Hhi) as (Hl0 & Hl1).
      destruct (MusicalPertFacts.randomize_midi_notes_total w _ t
                  (sample_size_ok_unit_interval _ _ Hl0 Hl1))
        as (w' & t' & E & _). eauto.
Qed.

Lemma every_level_starts_from_the_original_witness :
  (<[1%positive := one_track two_notes]> ∅ : gmap ref PrettyMIDI)
    !! 1%positive = Some (one_track two_notes)
  /\ Forall (fun q => (0 <= q)%Q /\ (q <= 100)%Q) [0; 50; 100]%Q
  /\ exists res,
       process_levels
         (fun pm nl =>
            in_place (fun w => MusicalPertComb.randomize_midi w nl) pm)
         (fun y => normalize_and_clip y 1 44100)
         1%positive [0; 50; 100]%Q
         (<[1%positive := one_track two_notes]> ∅, 0%Z)
       = Ok res.
Proof.
  assert (Hv : (<[1%positive := one_track two_notes]> ∅
                : gmap ref PrettyMIDI) !! 1%positive
               = Some (one_track two_notes)) by reflexivity.
  assert (Hl : Forall (fun q => (0 <= q)%Q /\ (q <= 100)%Q) [0; 50; 100]%Q).
  { repeat constructor; unfold Qle; cbn; lia. }
  split; [exact Hv|]. split; [exact Hl|].
  apply (proj2 (proj1 (proj2 (every_level_starts_from_the_original
                                _ 0%Z 1%positive _ _ 1 Hv Hl)))).
  split; [discriminate|]. intros q t v' t' _ _. discriminate.
Defined.

(** ** Piano scores *)

Lemma piano_tracks_stay_piano (ok : Instrument -> Z -> Prop)
  (tracks tracks' : list Instrument) :
  Forall (fun i => program i = 0 /\ is_drum i = false) tracks ->
  Forall2 (track_post ok) tracks tracks' ->
  Forall (fun i => program i = 0 /\ is_drum i = false) tracks'
  /\ Forall2 (fun i0 i => length (notes i) = length (notes i0))
             tracks tracks'.
Proof.
  intros Hp HR. induction HR as [|i0 i l0 l (Hprog & Hdrum & Hn) _ IH].
  { split; constructor. }
  apply Forall_cons in Hp as ((P0 & D0) & Hrest).
  destruct (IH Hrest) as (IH1 & IH2). split; constructor; try assumption.
  - split; congruence.
  - symmetry. eapply Forall2_length, Hn.
Qed.

Lemma set_piano_tracks (pm : PrettyMIDI) :
  Forall (fun i => program i = 0 /\ is_drum i = false)
         (instruments (set_piano pm)).
Proof.
  unfold set_piano. cbn [instruments]. apply Forall_forall.
  intros i Hi. rewrite map_fmap in Hi.
  apply list_elem_of_fmap in Hi as (i0 & -> & _). split; reflexivity.
Qed.

(** X19.  Every version a note-event script synthesizes is a piano score.
    After the preparation step of [process_midi_files], for a noise level
    in [0, 1] each of the three randomizers returns a score in which every
    track still has program 0 and is no drum track; the score has as many
    tracks as the one that was loaded, and each track as many notes. *)
Theorem randomized_scores_stay_piano
  {G : Type} `{RandomState G} `{FloatSqrt}
  (pm : PrettyMIDI) (noise_level : Q) (preserve_range : bool) (g : G) :
  (0 <= noise_level)%Q -> (noise_level <= 1)%Q ->
  let piano (pm' : PrettyMIDI) :=
    Forall (fun i => program i = 0 /\ is_drum i = false) (instruments pm')
    /\ Forall2 (fun i0 i => length (notes i) = length (notes i0))
               (instruments pm) (instruments pm') in
  (exists pm' g',
     MusConstPert.randomize_midi (set_piano pm) noise_level preserve_range g
     = Ok (pm', g') /\ piano pm')
  /\ (exists pm' g',
        MusicalPertComb.randomize_midi (set_piano pm) noise_level g
        = Ok (pm', g') /\ piano pm')
  /\ (exists pm' g',
        MusicalPert.randomize_midi_notes (set_piano pm) noise_level g
        = Ok (pm', g') /\ piano pm').
Proof.
  intros Hlo Hhi piano.
  pose proof (sample_size_ok_unit_interval noise_level
                (instruments (set_piano pm)) Hlo Hhi) as Hk.
  assert (Hfin : forall ok pm',
            Forall2 (track_post ok) (instruments (set_piano pm))
                    (instruments pm') -> piano pm').
  { intros ok pm' HR.
    destruct (piano_tracks_stay_piano ok _ _ (set_piano_tracks pm) HR)
      as (Hp & Hn).
    split; [exact Hp|]. unfold set_piano in Hn. cbn [instruments] in Hn.
    rewrite map_fmap in Hn. apply Forall2_fmap_l in Hn. exact Hn. }
  split; [|split].
  - destruct (MusConstPertFacts.randomize_midi_total (set_piano pm)
                noise_level preserve_range g Hk) as (pm' & g' & E & HR).
    exists pm', g'. split; [exact E|]. eapply Hfin, HR.
  - destruct (MusicalPertCombFacts.comb_randomize_midi_total (set_piano pm)
                noise_level g Hk) as (pm' & g' & E & HR).
    exists pm', g'. split; [exact E|]. eapply Hfin, HR.
  - destruct (MusicalPertFacts.randomize_midi_notes_total (set_piano pm)
                noise_level g Hk) as (pm' & g' & E & HR).
    exists pm', g'. split; [exact E|]. eapply Hfin, HR.
Qed.

Lemma randomized_scores_stay_piano_witness :
  (0 <= 1 # 2)%Q /\ (1 # 2 <= 1)%Q
  /\ exists pm' g',
       MusConstPert.randomize_midi (set_piano (one_track two_notes)) (1 # 2)
                                   true 0%Z = Ok (pm', g')
       /\ Forall (fun i => program i = 0 /\ is_drum i = false)
                 (instruments pm').
Proof.
  assert (Ha : (0 <= 1 # 2)%Q) by (unfold Qle; cbn; lia).
  assert (Hb : (1 # 2 <= 1)%Q) by (unfold Qle; cbn; lia).
  split; [exact Ha|]. split; [exact Hb|].
  destruct (proj1 (randomized_scores_stay_piano
                     (one_track two_notes) (1 # 2) true 0%Z Ha Hb))
    as (pm' & g' & E & Hp & _).
  exists pm', g'. split; assumption.
Defined.

(** * The randomizers in float64 arithmetic *)

(** ** Rounding to binary64 *)

Lemma pow2_pos (k : Z) : (0 < 2 ^ k)%Q.
Proof. apply Qpower_0_lt. reflexivity. Qed.

Lemma pow2_succ (k : Z) : (2 ^ (k + 1) == 2 * 2 ^ k)%Q.
Proof. rewrite Qpower_plus by discriminate. rewrite Qpower_1_r. ring. Qed.

Lemma pow2_le (a b : Z) : a <= b -> (2 ^ a <= 2 ^ b)%Q.
Proof. intros. apply Qpower_le_compat_l; [assumption|]. unfold Qle; cbn; lia. Qed.

Lemma pow2_lt (a b : Z) : a < b -> (2 ^ a < 2 ^ b)%Q.
Proof. intros. apply Qpower_lt_compat_l; [assumption|]. reflexivity. Qed.

Lemma pow2_lt_inv (a b : Z) : (2 ^ a < 2 ^ b)%Q -> a < b.
Proof. intros. eapply Qpower_lt_compat_l_inv; [eassumption|]. reflexivity. Qed.

Lemma pow2_Z (k : Z) : 0 <= k -> (2 ^ k == inject_Z (2 ^ k))%Q.
Proof. intros. rewrite Zpower_Qpower by assumption. reflexivity. Qed.

Lemma binade_spec (x : Q) :
  (0 < x)%Q -> (2 ^ binade x <= x)%Q /\ (x < 2 ^ (binade x + 1))%Q.
Proof.
  intros Hx. destruct x as [n d]. unfold binade. cbn [Qnum Qden].
  assert (Hn : 0 < n) by (unfold Qlt in Hx; cbn in Hx; lia).
  pose proof (Z.log2_spec n Hn) as [Hn1 Hn2].
  pose proof (Z.log2_spec (Z.pos d) ltac:(lia)) as [Hd1 Hd2].
  pose proof (Z.log2_nonneg n) as Hln.
  pose proof (Z.log2_nonneg (Z.pos d)) as Hld.
  set (ln := Z.log2 n) in *. set (ld := Z.log2 (Z.pos d)) in *.
  set (E := (2 ^ (ln - ld))%Q).
  assert (HA : (2 ^ ln == inject_Z (2 ^ ln))%Q) by (apply pow2_Z; lia).
  assert (HB : (2 ^ ld == inject_Z (2 ^ ld))%Q) by (apply pow2_Z; lia).
  assert (HE : (E * 2 ^ ld == 2 ^ ln)%Q).
  { subst E. rewrite Qpower_minus by discriminate. field.
    apply Qpower_not_0. discriminate. }
  assert (HEpos : (0 < E)%Q) by apply pow2_pos.
  assert (Hx' : ((n # d) * inject_Z (Z.pos d) == inject_Z n)%Q).
  { unfold Qeq, Qmult, inject_Z. cbn. lia. }
  assert (Hdpos : (0 < inject_Z (Z.pos d))%Q) by (unfold Qlt; cbn; lia).
  assert (Hn1q : (2 ^ ln <= inject_Z n)%Q).
  { rewrite HA. rewrite <- Zle_Qle. exact Hn1. }
  assert (Hn2q : (inject_Z n < 2 * 2 ^ ln)%Q).
  { rewrite HA. change 2%Q with (inject_Z 2). rewrite <- inject_Z_mult.
    rewrite <- Zlt_Qlt. rewrite Z.pow_succ_r in Hn2 by lia. lia. }
  assert (Hd1q : (2 ^ ld <= inject_Z (Z.pos d))%Q).
  { rewrite HB. rewrite <- Zle_Qle. exact Hd1. }
  assert (Hd2q : (inject_Z (Z.pos d) < 2 * 2 ^ ld)%Q).
  { rewrite HB. change 2%Q with (inject_Z 2). rewrite <- inject_Z_mult.
    rewrite <- Zlt_Qlt. rewrite Z.pow_succ_r in Hd2 by lia. lia. }
  assert (HBpos : (0 < 2 ^ ld)%Q) by apply pow2_pos.
  set (X := (n # d)%Q) in *. set (D := inject_Z (Z.pos d)) in *.
  set (N := inject_Z n) in *. set (A := (2 ^ ln)%Q) in *.
  set (B := (2 ^ ld)%Q) in *.
  assert (Hup : (X < 2 * E)%Q).
  { apply Qnot_le_lt. intros Hc.
    assert (2 * E * D <= X * D)%Q by (apply Qmult_le_compat_r; Lqa.lra).
    assert (2 * E * B <= 2 * E * D)%Q by (apply Qmult_le_l; Lqa.lra).
    Lqa.lra. }
  assert (Hlow : (E < 2 * X)%Q).
  { apply Qnot_le_lt. intros Hc.
    assert (2 * X * D <= E * D)%Q by (apply Qmult_le_compat_r; Lqa.lra).
    assert (E * D < E * (2 * B))%Q by (apply Qmult_lt_l; Lqa.lra).
    Lqa.lra. }
  fold E. destruct (Qle_bool E X) eqn:Hb.
  - apply Qle_bool_iff in Hb. split; [exact Hb|].
    rewrite pow2_succ. exact Hup.
  - assert (Hlt : (X < E)%Q).
    { apply Qnot_le_lt. intros Hc. apply Qle_bool_iff in Hc. congruence. }
    replace (ln - ld - 1 + 1) with (ln - ld) by lia. fold E.
    split; [|exact Hlt].
    assert (HE2 : (E == 2 * 2 ^ (ln - ld - 1))%Q).
    { subst E. rewrite <- pow2_succ. replace (ln - ld - 1 + 1) with (ln - ld) by lia.
      reflexivity. }
    Lqa.lra.
Qed.

Lemma binade_unique (x : Q) (e : Z) :
  (2 ^ e <= x)%Q -> (x < 2 ^ (e + 1))%Q -> binade x = e.
Proof.
  intros Hlo Hhi.
  assert (Hx : (0 < x)%Q) by (pose proof (pow2_pos e); Lqa.lra).
  destruct (binade_spec x Hx) as [Blo Bhi].
  assert (e < binade x + 1) by (apply pow2_lt_inv; Lqa.lra).
  assert (binade x < e + 1) by (apply pow2_lt_inv; Lqa.lra).
  lia.
Qed.

Lemma binade_mono (x y : Q) : (0 < x)%Q -> (x <= y)%Q -> binade x <= binade y.
Proof.
  intros Hx Hxy.
  destruct (binade_spec x Hx) as [Xlo _].
  destruct (binade_spec y ltac:(Lqa.lra)) as [_ Yhi].
  assert (binade x < binade y + 1) by (apply pow2_lt_inv; Lqa.lra).
  lia.
Qed.

Lemma py_round_comp (x y : Q) : (x == y)%Q -> py_round x = py_round y.
Proof.
  intros E. unfold py_round. rewrite (Qfloor_comp _ _ E).
  assert (E2 : (x - inject_Z (Qfloor y) == y - inject_Z (Qfloor y))%Q)
    by (rewrite E; reflexivity).
  rewrite (Qcompare_comp _ _ E2 (1 # 2) (1 # 2) (Qeq_refl _)). reflexivity.
Qed.

Lemma py_round_Z (m : Z) : py_round (inject_Z m) = m.
Proof.
  unfold py_round. rewrite Qfloor_Z.
  assert (E : (inject_Z m - inject_Z m ?= 1 # 2)%Q = Lt).
  { apply (proj1 (Qlt_alt _ _)). Lqa.lra. }
  rewrite E. reflexivity.
Qed.

Lemma py_round_mono (x y : Q) : (x <= y)%Q -> py_round x <= py_round y.
Proof.
  intros Hxy. pose proof (Qfloor_resp_le _ _ Hxy) as Hf.
  pose proof (Qfloor_le x) as Hx1. pose proof (Qlt_floor x) as Hx2.
  pose proof (Qfloor_le y) as Hy1. pose proof (Qlt_floor y) as Hy2.
  unfold py_round.
  destruct (Z.eq_dec (Qfloor x) (Qfloor y)) as [Ef|Nf].
  - rewrite Ef in *.
    destruct (Qcompare_spec (x - inject_Z (Qfloor y)) (1 # 2)) as [E1|L1|G1];
      destruct (Qcompare_spec (y - inject_Z (Qfloor y)) (1 # 2)) as [E2|L2|G2];
      try lia; try (destruct (Z.even (Qfloor y)); lia); exfalso; Lqa.lra.
  - assert (Qfloor x + 1 <= Qfloor y) by lia.
    destruct (x - inject_Z (Qfloor x) ?= 1 # 2)%Q;
      destruct (y - inject_Z (Qfloor y) ?= 1 # 2)%Q;
      try destruct (Z.even (Qfloor x)); try destruct (Z.even (Qfloor y)); lia.
Qed.

Lemma round_to_mono (q : Z) (x y : Q) :
  (x <= y)%Q -> (round_to q x <= round_to q y)%Q.
Proof.
  intros Hxy. unfold round_to. pose proof (pow2_pos q) as Hq.
  apply Qmult_le_compat_r; [|Lqa.lra].
  rewrite <- Zle_Qle. apply py_round_mono.
  apply Qmult_le_compat_r; [exact Hxy|].
  apply Qlt_le_weak, Qinv_lt_0_compat, Hq.
Qed.

Lemma round_to_grid (q m : Z) (x : Q) :
  (x == inject_Z m * 2 ^ q)%Q -> (round_to q x == x)%Q.
Proof.
  intros E. unfold round_to. pose proof (pow2_pos q) as Hq.
  assert (E2 : (x / 2 ^ q == inject_Z m)%Q).
  { rewrite E. field. Lqa.lra. }
  rewrite (py_round_comp _ _ E2), py_round_Z. symmetry. exact E.
Qed.

Lemma round_to_nonneg (q : Z) (x : Q) : (0 <= x)%Q -> (0 <= round_to q x)%Q.
Proof.
  intros Hx. pose proof (round_to_mono q 0 x Hx) as H.
  rewrite (round_to_grid q 0 0) in H by ring. exact H.
Qed.

Lemma round_pos_mono (x y : Q) :
  (0 < x)%Q -> (x <= y)%Q ->
  (round_to (ulp_exponent x) x <= round_to (ulp_exponent y) y)%Q.
Proof.
  intros Hx Hxy. pose proof (binade_mono x y Hx Hxy) as Hb.
  unfold ulp_exponent.
  set (qx := Z.max (binade x - 52) (-1074)).
  set (qy := Z.max (binade y - 52) (-1074)).
  destruct (Z.eq_dec qx qy) as [Eq|Nq].
  { rewrite Eq. apply round_to_mono, Hxy. }
  assert (Hlt : binade x < binade y) by lia.
  assert (Hqy : qy = binade y - 52) by lia.
  destruct (binade_spec x Hx) as [_ Xhi].
  destruct (binade_spec y ltac:(Lqa.lra)) as [Ylo _].
  set (b := (2 ^ binade y)%Q) in *.
  assert (Hxb : (x <= b)%Q).
  { pose proof (pow2_le (binade x + 1) (binade y) ltac:(lia)). subst b.
    Lqa.lra. }
  assert (Gx : (b == inject_Z (2 ^ (binade y - qx)) * 2 ^ qx)%Q).
  { rewrite <- pow2_Z by lia. rewrite <- Qpower_plus by discriminate.
    subst b. replace (binade y - qx + qx) with (binade y) by lia. reflexivity. }
  assert (Gy : (b == inject_Z (2 ^ 52) * 2 ^ qy)%Q).
  { rewrite <- pow2_Z by lia. rewrite <- Qpower_plus by discriminate.
    subst b. replace (52 + qy) with (binade y) by lia. reflexivity. }
  apply Qle_trans with (round_to qx b); [apply round_to_mono, Hxb|].
  rewrite (round_to_grid qx _ b Gx).
  rewrite <- (round_to_grid qy _ b Gy). apply round_to_mono, Ylo.
Qed.

Lemma fl64_pos (x : Q) :
  (0 < x)%Q -> (fl64 x == round_to (ulp_exponent x) x)%Q.
Proof.
  intros Hx. unfold fl64.
  assert (E : (x ?= 0)%Q = Gt) by (apply (proj1 (Qgt_alt _ _)); exact Hx).
  rewrite E. apply Qred_correct.
Qed.

Lemma fl64_neg (x : Q) :
  (x < 0)%Q -> (fl64 x == - round_to (ulp_exponent (- x)) (- x))%Q.
Proof.
  intros Hx. unfold fl64.
  assert (E : (x ?= 0)%Q = Lt) by (apply (proj1 (Qlt_alt _ _)); exact Hx).
  rewrite E. apply Qred_correct.
Qed.

Lemma fl64_zero (x : Q) : (x == 0)%Q -> fl64 x = 0%Q.
Proof.
  intros Hx. unfold fl64.
  assert (E : (x ?= 0)%Q = Eq) by (apply (proj1 (Qeq_alt _ _)); exact Hx).
  rewrite E. reflexivity.
Qed.

(** Rounding keeps the order. *)
Lemma fl64_mono (x y : Q) : (x <= y)%Q -> (fl64 x <= fl64 y)%Q.
Proof.
  intros Hxy.
  destruct (Q_dec x 0) as [[Xn|Xp]|X0]; destruct (Q_dec y 0) as [[Yn|Yp]|Y0].
  - rewrite (fl64_neg x Xn), (fl64_neg y Yn).
    pose proof (round_pos_mono (- y) (- x) ltac:(Lqa.lra) ltac:(Lqa.lra)).
    Lqa.lra.
  - rewrite (fl64_neg x Xn), (fl64_pos y Yp).
    pose proof (round_to_nonneg (ulp_exponent (- x)) (- x) ltac:(Lqa.lra)).
    pose proof (round_to_nonneg (ulp_exponent y) y ltac:(Lqa.lra)).
    Lqa.lra.
  - rewrite (fl64_neg x Xn), (fl64_zero y Y0).
    pose proof (round_to_nonneg (ulp_exponent (- x)) (- x) ltac:(Lqa.lra)).
    Lqa.lra.
  - exfalso. Lqa.lra.
  - rewrite (fl64_pos x Xp), (fl64_pos y Yp). apply round_pos_mono; assumption.
  - exfalso. Lqa.lra.
  - exfalso. Lqa.lra.
  - rewrite (fl64_zero x X0), (fl64_pos y Yp).
    apply round_to_nonneg. Lqa.lra.
  - rewrite (fl64_zero x X0), (fl64_zero y Y0). Lqa.lra.
Qed.

Lemma fl64_comp (x y : Q) : (x == y)%Q -> (fl64 x == fl64 y)%Q.
Proof.
  intros E. apply Qle_antisym; apply fl64_mono; rewrite E; apply Qle_refl.
Qed.

Lemma fl64_nat_pos (z : Z) :
  0 < z <= 2 ^ 53 -> (fl64 (inject_Z z) == inject_Z z)%Q.
Proof.
  intros [Hz Hmax].
  assert (Hzq : (0 < inject_Z z)%Q) by (unfold Qlt; cbn; lia).
  rewrite (fl64_pos _ Hzq).
  pose proof (Z.log2_spec z Hz) as [L1 L2].
  pose proof (Z.log2_nonneg z) as L0.
  assert (Hb : binade (inject_Z z) = Z.log2 z).
  { apply binade_unique.
    - rewrite pow2_Z by lia. rewrite <- Zle_Qle. exact L1.
    - rewrite pow2_Z by lia. rewrite <- Zlt_Qlt.
      replace (Z.log2 z + 1) with (Z.succ (Z.log2 z)) by lia. exact L2. }
  assert (L53 : Z.log2 z <= 53).
  { rewrite <- (Z.log2_pow2 53) by lia. apply Z.log2_le_mono, Hmax. }
  unfold ulp_exponent. rewrite Hb.
  replace (Z.max (Z.log2 z - 52) (-1074)) with (Z.log2 z - 52) by lia.
  destruct (Z.eq_dec (Z.log2 z) 53) as [E53|N53].
  - rewrite E53 in *. assert (z = 2 ^ 53) by lia. subst z.
    apply (round_to_grid _ (2 ^ 52)). reflexivity.
  - apply (round_to_grid _ (z * 2 ^ (52 - Z.log2 z))).
    rewrite inject_Z_mult. rewrite <- (pow2_Z (52 - Z.log2 z)) by lia.
    rewrite <- Qmult_assoc. rewrite <- Qpower_plus by discriminate.
    replace (52 - Z.log2 z + (Z.log2 z - 52)) with 0 by lia.
    rewrite Qpower_0_r. ring.
Qed.

(** The integers up to [2^53] are binary64 numbers. *)
Lemma fl64_int (z : Z) :
  - 2 ^ 53 <= z <= 2 ^ 53 -> (fl64 (inject_Z z) == inject_Z z)%Q.
Proof.
  intros Hz. destruct (Z.lt_trichotomy z 0) as [Hn|[H0|Hp]].
  - assert (Hzq : (inject_Z z < 0)%Q) by (unfold Qlt; cbn; lia).
    rewrite (fl64_neg _ Hzq).
    assert (E : (- inject_Z z == inject_Z (- z))%Q)
      by (rewrite inject_Z_opp; reflexivity).
    pose proof (fl64_nat_pos (- z) ltac:(lia)) as Hf.
    rewrite (fl64_pos (inject_Z (- z))) in Hf by (unfold Qlt; cbn; lia).
    assert (Hu : ulp_exponent (- inject_Z z) = ulp_exponent (inject_Z (- z))).
    { reflexivity. }
    rewrite Hu. 
    assert (Hr : (round_to (ulp_exponent (inject_Z (- z))) (- inject_Z z)
                  == round_to (ulp_exponent (inject_Z (- z))) (inject_Z (- z)))%Q).
    { apply Qle_antisym; apply round_to_mono; rewrite E; apply Qle_refl. }
    rewrite Hr, Hf, inject_Z_opp. ring.
  - subst z. reflexivity.
  - apply fl64_nat_pos. lia.
Qed.

Lemma py_round_lower (y : Q) : (y - (1 # 2) <= inject_Z (py_round y))%Q.
Proof.
  pose proof (Qfloor_le y) as F1. pose proof (Qlt_floor y) as F2.
  rewrite inject_Z_plus in F2. change (inject_Z 1) with 1%Q in F2.
  unfold py_round.
  destruct (Qcompare_spec (y - inject_Z (Qfloor y)) (1 # 2)) as [E|L|Gt].
  - destruct (Z.even (Qfloor y)).
    + Lqa.lra.
    + rewrite inject_Z_plus. change (inject_Z 1) with 1%Q. Lqa.lra.
  - Lqa.lra.
  - rewrite inject_Z_plus. change (inject_Z 1) with 1%Q. Lqa.lra.
Qed.

(** Above the subnormal range rounding loses at most the fraction [2^-53]
    of a positive number. *)
Lemma fl64_lower (x : Q) :
  (2 ^ (-1022) <= x)%Q -> (x * (1 - 2 ^ (-53)) <= fl64 x)%Q.
Proof.
  intros Hx. pose proof (pow2_pos (-1022)) as Hmin.
  assert (Hpos : (0 < x)%Q) by Lqa.lra.
  rewrite (fl64_pos x Hpos).
  destruct (binade_spec x Hpos) as [Blo Bhi].
  assert (He : -1022 <= binade x).
  { assert (-1022 < binade x + 1) by (apply pow2_lt_inv; Lqa.lra). lia. }
  unfold ulp_exponent.
  replace (Z.max (binade x - 52) (-1074)) with (binade x - 52) by lia.
  set (e := binade x) in *. unfold round_to.
  pose proof (pow2_pos (e - 52)) as Hq.
  pose proof (py_round_lower (x / 2 ^ (e - 52))) as Hr.
  assert (Hm : ((x / 2 ^ (e - 52) - (1 # 2)) * 2 ^ (e - 52)
                <= inject_Z (py_round (x / 2 ^ (e - 52))) * 2 ^ (e - 52))%Q).
  { apply Qmult_le_compat_r; [exact Hr|Lqa.lra]. }
  assert (Ex : ((x / 2 ^ (e - 52) - (1 # 2)) * 2 ^ (e - 52)
                == x - (1 # 2) * 2 ^ (e - 52))%Q).
  { field. Lqa.lra. }
  assert (Eq : ((1 # 2) * 2 ^ (e - 52) == 2 ^ e * 2 ^ (-53))%Q).
  { replace (e - 52) with (e + (-52)) by lia.
    rewrite Qpower_plus by discriminate.
    assert (E52 : (2 ^ (-52) == 2 * 2 ^ (-53))%Q) by reflexivity.
    rewrite E52. ring. }
  assert (Hle : (2 ^ e * 2 ^ (-53) <= x * 2 ^ (-53))%Q).
  { apply Qmult_le_compat_r; [exact Blo|]. apply Qlt_le_weak, pow2_pos. }
  rewrite Ex, Eq in Hm.
  set (u := (2 ^ (-53))%Q) in *. set (A := (2 ^ e)%Q) in *.
  set (R := (inject_Z (py_round (x / 2 ^ (e - 52))) * 2 ^ (e - 52))%Q) in *.
  Lqa.lra.
Qed.

(** [fl64] against the binary64 arithmetic of the kernel, on the numbers
    the examples use: the floats nearest to 0.7, 0.1 and 0.58, the product
    [0.7 * 10], the sum [0.7 + 0.1], the difference [(0.7 + 0.1) - 0.7] and
    the product [58 / 100.0 * 50]. *)
Lemma fl64_agrees_with_binary64 :
  Q_of_float 0x1.6666666666666p-1 = Some (fl64 (7 # 10))
  /\ Q_of_float 0x1.999999999999ap-4 = Some (fl64 (1 # 10))
  /\ Q_of_float (0x1.6666666666666p-1 * 10) = Some (fl64 (fl64 (7 # 10) * 10))
  /\ Q_of_float (0x1.6666666666666p-1 + 0x1.999999999999ap-4)
     = Some (fl64 (fl64 (7 # 10) + fl64 (1 # 10)))
  /\ Q_of_float (0x1.6666666666666p-1 + 0x1.999999999999ap-4
                 - 0x1.6666666666666p-1)
     = Some (fl64 (fl64 (fl64 (7 # 10) + fl64 (1 # 10)) - fl64 (7 # 10)))
  /\ Q_of_float (58 / 100) = Some (fl64 (58 # 100))
  /\ Q_of_float (58 / 100 * 50) = Some (fl64 (fl64 (58 # 100) * 50)).
Proof. repeat split; vm_compute; reflexivity. Qed.

(** The same on a grid: the quotients [n / d] of the integers from 1 to 40,
    and the sums, differences and products of the floats nearest to [n / 7]
    and [m / 10]. *)
Lemma fl64_agrees_on_a_grid :
  forallb (fun '(n, d) =>
             agrees (float_of_Z n / float_of_Z d)
                    (fl64 (inject_Z n / inject_Z d)))
          grid = true
  /\ forallb (fun '(n, m) =>
                let a := (float_of_Z n / 7)%float in
                let b := (float_of_Z m / 10)%float in
                let x := fl64 (inject_Z n / 7) in
                let y := fl64 (inject_Z m / 10) in
                agrees (a + b) (fl64 (x + y))
                && agrees (a - b) (fl64 (x - y))
                && agrees (a * b) (fl64 (x * y)))
             grid = true.
Proof. split; vm_compute; reflexivity. Qed.

(** At the ties and in the subnormal range: the integers next to [2^53]
    and [2^54], which lie on a float or half-way between two, and small
    multiples of [2^-1075] and of [2^-1076]. *)
Lemma fl64_agrees_at_ties :
  forallb (fun z => agrees (float_of_Z z) (fl64 (inject_Z z)))
          [2 ^ 53 - 1; 2 ^ 53; 2 ^ 53 + 1; 2 ^ 53 + 2; 2 ^ 53 + 3;
           2 ^ 54 - 2; 2 ^ 54 + 2; 2 ^ 54 + 6; 2 ^ 60 + 2 ^ 7;
           2 ^ 60 + 2 ^ 8 - 1]
  = true
  /\ forallb (fun '(m, e) =>
                agrees (Z.ldexp (float_of_Z m) e)
                       (fl64 (inject_Z m * 2 ^ e)))
             [(1, -1074); (1, -1075); (3, -1075); (5, -1075); (1, -1076);
              (3, -1076); (5, -1076); (7, -1076); (2 ^ 53 - 1, -1075);
              (2 ^ 52 + 1, -1075); (2 ^ 52 + 3, -1075)]
     = true.
Proof. split; vm_compute; reflexivity. Qed.

(** ** The sample size in float64 arithmetic *)

Lemma fl64_nonneg (x : Q) : (0 <= x)%Q -> (0 <= fl64 x)%Q.
Proof. intros Hx. apply (fl64_mono 0 x Hx). Qed.

Lemma py_int_Z (z : Z) : py_int (inject_Z z) = z.
Proof. unfold py_int. cbn. apply Z.quot_1_r. Qed.

Lemma py_int_comp (x y : Q) : (0 <= x)%Q -> (x == y)%Q -> py_int x = py_int y.
Proof.
  intros Hx E. rewrite !py_int_nonneg by Lqa.lra. apply Qfloor_comp, E.
Qed.

(** The float product of a level and a note count, for a count that is a
    float. *)
Lemma float_product (noise_level : Q) (num_notes : nat) :
  Z.of_nat num_notes <= 2 ^ 53 ->
  (Binary64.mul noise_level (fl64 (inject_Z (Z.of_nat num_notes)))
   == fl64 (noise_level * inject_Z (Z.of_nat num_notes)))%Q.
Proof.
  intros HN. unfold Binary64.mul. apply fl64_comp.
  rewrite fl64_int by lia. reflexivity.
Qed.

(** The truncated float product is the floor of the exact product, or one
    more when the product rounds up to that integer; for a level in [0, 1]
    it is a valid sample size. *)
Lemma num_notes64_bounds (noise_level : Q) (num_notes : nat) :
  (0 <= noise_level)%Q -> (noise_level <= 1)%Q ->
  Z.of_nat num_notes <= 2 ^ 53 ->
  let x := (noise_level * inject_Z (Z.of_nat num_notes))%Q in
  let k := Binary64.num_notes_to_randomize noise_level num_notes in
  0 <= k <= Z.of_nat num_notes
  /\ Qfloor x <= k <= Qfloor x + 1
  /\ (k = Qfloor x + 1 -> (fl64 x == inject_Z k)%Q).
Proof.
  intros Hlo Hhi HN x k.
  assert (HNq : (0 <= inject_Z (Z.of_nat num_notes))%Q)
    by (unfold Qle; cbn; lia).
  assert (Hx0 : (0 <= x)%Q) by (subst x; Lqa.nra).
  assert (HxN : (x <= inject_Z (Z.of_nat num_notes))%Q) by (subst x; Lqa.nra).
  assert (Hf0 : (0 <= fl64 x)%Q) by (apply fl64_nonneg, Hx0).
  assert (Ek : k = Qfloor (fl64 x)).
  { subst k. unfold Binary64.num_notes_to_randomize.
    rewrite (py_int_comp _ (fl64 x)).
    - apply py_int_nonneg, Hf0.
    - rewrite float_product by exact HN. exact Hf0.
    - apply float_product, HN. }
  assert (HfN : (fl64 x <= inject_Z (Z.of_nat num_notes))%Q).
  { rewrite <- (fl64_int (Z.of_nat num_notes)) by lia. apply fl64_mono, HxN. }
  pose proof (Qfloor_le x) as Fx1. pose proof (Qlt_floor x) as Fx2.
  assert (F0 : 0 <= Qfloor x).
  { change 0 with (Qfloor 0). apply Qfloor_resp_le, Hx0. }
  assert (FN : Qfloor x <= Z.of_nat num_notes).
  { rewrite <- (Qfloor_Z (Z.of_nat num_notes)). apply Qfloor_resp_le, HxN. }
  assert (Hlow : (inject_Z (Qfloor x) <= fl64 x)%Q).
  { rewrite <- (fl64_int (Qfloor x)) by lia. apply fl64_mono, Fx1. }
  assert (Hupp : (fl64 x <= inject_Z (Qfloor x + 1))%Q).
  { destruct (Z.eq_dec (Qfloor x) (Z.of_nat num_notes)) as [E|N].
    - apply Qle_trans with (inject_Z (Z.of_nat num_notes)); [exact HfN|].
      rewrite <- Zle_Qle. lia.
    - rewrite <- (fl64_int (Qfloor x + 1)) by lia. apply fl64_mono.
      Lqa.lra. }
  assert (K1 : Qfloor x <= k).
  { rewrite Ek. rewrite <- (Qfloor_Z (Qfloor x)) at 1.
    apply Qfloor_resp_le, Hlow. }
  assert (K2 : k <= Qfloor x + 1).
  { rewrite Ek. rewrite <- (Qfloor_Z (Qfloor x + 1)).
    apply Qfloor_resp_le, Hupp. }
  assert (K3 : k <= Z.of_nat num_notes).
  { rewrite Ek. rewrite <- (Qfloor_Z (Z.of_nat num_notes)).
    apply Qfloor_resp_le, HfN. }
  split; [lia|]. split; [lia|].
  intros E. apply Qle_antisym.
  - rewrite E. exact Hupp.
  - rewrite Ek. apply Qfloor_le.
Qed.

Section Draws64.
Context {G : Type} `{RandomState G}.

Lemma choice_drawn (n : nat) (k : Z) (g g' : G) (idx : list nat) :
  choice n k g = Ok (idx, g') -> drawn k n idx.
Proof. intros E. apply choice_spec in E as (_ & L & N & F). split; auto. Qed.

Lemma draw_indices64_Ok (noise_level : Q) (num_notes : nat) (g : G) :
  0 <= Binary64.num_notes_to_randomize noise_level num_notes
    <= Z.of_nat num_notes ->
  exists ip it id g',
    Binary64.draw_indices noise_level num_notes g = Ok ((ip, it, id), g')
    /\ drawn (Binary64.num_notes_to_randomize noise_level num_notes)
             num_notes ip
    /\ drawn (Binary64.num_notes_to_randomize noise_level num_notes)
             num_notes it
    /\ drawn (Binary64.num_notes_to_randomize noise_level num_notes)
             num_notes id.
Proof.
  intros Hk. unfold Binary64.draw_indices. cbv zeta.
  set (k := Binary64.num_notes_to_randomize noise_level num_notes) in *.
  pose proof (choice_in_range num_notes k g Hk) as E1.
  rewrite (bind_Ok _ _ _ _ _ E1).
  pose proof (choice_in_range num_notes k (snd (permutation num_notes g)) Hk)
    as E2.
  rewrite (bind_Ok _ _ _ _ _ E2).
  pose proof (choice_in_range num_notes k
                (snd (permutation num_notes
                        (snd (permutation num_notes g)))) Hk) as E3.
  rewrite (bind_Ok _ _ _ _ _ E3).
  eexists _, _, _, _. split; [reflexivity|].
  split; [|split]; eapply choice_drawn; eassumption.
Qed.

Lemma draw_indices64_inv (noise_level : Q) (num_notes : nat) (g g' : G)
  (ip it id : list nat) :
  Binary64.draw_indices noise_level num_notes g = Ok ((ip, it, id), g') ->
  let k := Binary64.num_notes_to_randomize noise_level num_notes in
  drawn k num_notes ip /\ drawn k num_notes it /\ drawn k num_notes id.
Proof.
  unfold Binary64.draw_indices. cbv zeta. intros E.
  apply bind_inv in E as (a & g1 & E1 & E).
  apply bind_inv in E as (b & g2 & E2 & E).
  apply bind_inv in E as (c & g3 & E3 & E).
  unfold ret in E. injection E as <- <- <- <-.
  split; [|split]; eapply choice_drawn; eassumption.
Qed.
End Draws64.

#[local] Existing Instance Scripted.random_state.

(** Any index array that can be drawn is the head of a permutation. *)
Lemma starting_with_perm (n : nat) (k : Z) (idx : list nat) :
  drawn k n idx -> Scripted.starting_with n idx ≡ₚ seq 0 n.
Proof.
  intros (_ & Hnd & Hlt). unfold Scripted.starting_with.
  apply NoDup_Permutation.
  - apply NoDup_app. split; [exact Hnd|]. split.
    + intros x Hx Hf. apply list_elem_of_filter in Hf as [Hf _]. auto.
    + apply NoDup_filter, NoDup_seq.
  - apply NoDup_seq.
  - intros x. rewrite elem_of_app, list_elem_of_filter, elem_of_seq.
    rewrite Forall_forall in Hlt. split.
    + intros [Hx|[_ Hx]]; [|exact Hx]. specialize (Hlt x Hx). lia.
    + intros Hx. destruct (decide (x ∈ idx)); auto.
Qed.

Lemma scripted_choice (n : nat) (k : Z) (idx : list nat)
  (rest : list (list nat)) :
  0 <= k <= Z.of_nat n -> drawn k n idx ->
  choice n k (Scripted.starting_with n idx :: rest) = Ok (idx, rest).
Proof.
  intros Hk Hd. rewrite (choice_in_range n k _ Hk). cbn.
  destruct (decide (Scripted.starting_with n idx ≡ₚ seq 0 n)) as [_|Hn].
  - destruct Hd as (L & _ & _). unfold Scripted.starting_with.
    rewrite <- L. rewrite take_app_length. reflexivity.
  - exfalso. apply Hn. eapply starting_with_perm, Hd.
Qed.

(** C4, amended.  For a track of [num_notes] notes (at most [2^53]) and a
    noise level in [0, 1], the size of each sample is
    [int(noise_level * num_notes)] as float64 computes it: the truncation
    of the rounded product, which is the floor of the exact product or,
    when the product rounds up to that integer, one more.  The three index
    arrays drawn each hold exactly that many distinct positions below
    [num_notes]; and they are drawn independently of each other, in that
    any three such arrays are drawn together from a suitable state of the
    generator. *)
Theorem draw_indices_truncated_float_product
  {G : Type} `{RandomState G} (noise_level : Q) (num_notes : nat) (g : G) :
  (0 <= noise_level)%Q -> (noise_level <= 1)%Q ->
  Z.of_nat num_notes <= 2 ^ 53 ->
  let x := (noise_level * inject_Z (Z.of_nat num_notes))%Q in
  let k := Binary64.num_notes_to_randomize noise_level num_notes in
  (Qfloor x <= k <= Qfloor x + 1
   /\ (k = Qfloor x + 1 -> (fl64 x == inject_Z k)%Q))
  /\ (exists indices_pitch indices_timing indices_duration g',
        Binary64.draw_indices noise_level num_notes g
          = Ok ((indices_pitch, indices_timing, indices_duration), g')
        /\ drawn k num_notes indices_pitch
        /\ drawn k num_notes indices_timing
        /\ drawn k num_notes indices_duration)
  /\ (forall indices_pitch indices_timing indices_duration,
        drawn k num_notes indices_pitch ->
        drawn k num_notes indices_timing ->
        drawn k num_notes indices_duration ->
        exists s s' : list (list nat),
          @Binary64.draw_indices _ Scripted.random_state
             noise_level num_notes s
          = Ok ((indices_pitch, indices_timing, indices_duration), s')).
Proof.
  intros Hlo Hhi HN x k.
  destruct (num_notes64_bounds noise_level num_notes Hlo Hhi HN)
    as (Hk & Hfloor & Hup).
  fold x k in Hk, Hfloor, Hup.
  split; [split; [exact Hfloor|exact Hup]|]. split.
  - apply draw_indices64_Ok, Hk.
  - intros ip it id Dp Dt Dd.
    exists [Scripted.starting_with num_notes ip;
            Scripted.starting_with num_notes it;
            Scripted.starting_with num_notes id], [].
    unfold Binary64.draw_indices. cbv zeta. fold k.
    rewrite (bind_Ok _ _ _ _ _ (scripted_choice _ _ _ _ Hk Dp)).
    rewrite (bind_Ok _ _ _ _ _ (scripted_choice _ _ _ _ Hk Dt)).
    rewrite (bind_Ok _ _ _ _ _ (scripted_choice _ _ _ _ Hk Dd)).
    reflexivity.
Qed.

Lemma draw_indices_truncated_float_product_witness :
  (0 <= fl64 (7 # 10))%Q /\ (fl64 (7 # 10) <= 1)%Q /\ Z.of_nat 10 <= 2 ^ 53
  /\ exists indices_pitch indices_timing indices_duration g',
       Binary64.draw_indices (fl64 (7 # 10)) 10 0%Z
         = Ok ((indices_pitch, indices_timing, indices_duration), g')
       /\ drawn 7 10 indices_pitch /\ drawn 7 10 indices_timing
       /\ drawn 7 10 indices_duration.
Proof.
  assert (Ha : (0 <= fl64 (7 # 10))%Q) by (vm_compute; discriminate).
  assert (Hb : (fl64 (7 # 10) <= 1)%Q) by (vm_compute; discriminate).
  assert (Hc : Z.of_nat 10 <= 2 ^ 53) by (vm_compute; discriminate).
  split; [exact Ha|]. split; [exact Hb|]. split; [exact Hc|].
  exact (proj1 (proj2 (draw_indices_truncated_float_product
                         (fl64 (7 # 10)) 10 0%Z Ha Hb Hc))).
Defined.

(** C4 as stated fails: for one note at noise level 0.75 the rounding of
    0.75 is 1, and the arrays drawn are empty. *)
Lemma sample_size_is_truncated_not_rounded :
  Binary64.draw_indices (3 # 4) 1 0%Z = Ok (([], [], []), 3)
  /\ py_round (Binary64.mul (3 # 4) (fl64 (inject_Z (Z.of_nat 1)))) = 1
  /\ (0 <= 3 # 4)%Q /\ (3 # 4 <= 1)%Q /\ fl64 (3 # 4) = (3 # 4)%Q.
Proof.
  split; [vm_compute; reflexivity|]. split; [vm_compute; reflexivity|].
  split; [unfold Qle; cbn; lia|]. split; [unfold Qle; cbn; lia|].
  vm_compute. reflexivity.
Qed.

(** The truncated float product is not always the floor of the exact
    product: the float 0.7 is below seven tenths, its product with 10
    rounds to 7, and seven positions are drawn; and 58 percent, computed as
    [58 / 100.0], of 50 notes are 28, not 29. *)
Lemma float_product_crosses_an_integer :
  Binary64.num_notes_to_randomize (fl64 (7 # 10)) 10 = 7
  /\ Qfloor (fl64 (7 # 10) * inject_Z 10) = 6
  /\ Binary64.num_notes_to_randomize (fl64 (58 / 100)) 50 = 28
  /\ Qfloor ((58 # 100) * inject_Z 50) = 29.
Proof. repeat split; vm_compute; reflexivity. Qed.

(** ** Loops that rewrite one note per drawn position *)

Lemma update_loop_total {G : Type}
  (step : nat -> list Note -> M G (list Note))
  (indices : list nat) (ns0 : list Note) (g : G) :
  (forall idx ns t,
     (idx < length ns)%nat ->
     exists ns' t', step idx ns t = Ok (ns', t') /\ length ns' = length ns) ->
  Forall (fun i => (i < length ns0)%nat) indices ->
  exists ns1 g1,
    for_each indices step ns0 g = Ok (ns1, g1) /\ length ns1 = length ns0.
Proof.
  intros Hstep Hin.
  apply (for_each_total (fun i => (i < length ns0)%nat)
           (fun ns => length ns = length ns0)); [exact Hin|reflexivity|].
  intros idx ns t Hi Hl.
  destruct (Hstep idx ns t ltac:(lia)) as (ns' & t' & E & L).
  exists ns', t'. split; [exact E|congruence].
Qed.

Lemma update_loop_spec {G : Type} (R : Note -> Note -> Prop)
  (step : nat -> list Note -> M G (list Note))
  (indices : list nat) (ns0 ns1 : list Note) (g g1 : G) :
  (forall idx ns t ns' t',
     step idx ns t = Ok (ns', t') ->
     exists n n', ns !! idx = Some n /\ R n n' /\ ns' = <[idx := n']> ns) ->
  NoDup indices ->
  for_each indices step ns0 g = Ok (ns1, g1) ->
  pointwise (fun j a b => (j ∈ indices -> R a b) /\ (j ∉ indices -> b = a))
            ns0 ns1.
Proof.
  intros Hstep Hnd E.
  apply (for_each_inv_fresh
           (fun done ns =>
              pointwise (fun j a b =>
                           (j ∈ done -> R a b) /\ (j ∉ done -> b = a))
                        ns0 ns)
           _ _ _ _ _ _ Hnd E).
  - apply pointwise_refl. intros j n. split; [|reflexivity].
    intros Hj. apply not_elem_of_nil in Hj. contradiction.
  - intros done idx ns t ns' t' Hfresh HI Hs.
    apply Hstep in Hs as (n & n' & Hn & HR & ->).
    eapply pointwise_update; [exact HI|exact Hn| |]; cbv beta.
    + intros n0 _ (_ & Hkeep). rewrite (Hkeep Hfresh) in HR. split.
      * intros _. exact HR.
      * intros Hj. exfalso. apply Hj, elem_of_app. right.
        apply list_elem_of_singleton. reflexivity.
    + intros j n0 m Hne (Hin & Hout). split.
      * intros Hj. apply elem_of_app in Hj as [Hj|Hj]; [auto|].
        apply list_elem_of_singleton in Hj. contradiction.
      * intros Hj. apply Hout. intros Hd. apply Hj, elem_of_app. auto.
Qed.

Section Steps64.
Context {G : Type} `{RandomState G} `{FloatSqrt}.

Lemma uniform64_Ok (low high : Q) (g : G) :
  exists u, Binary64.uniform low high g = Ok (u, snd (random_sample g)).
Proof.
  unfold Binary64.uniform, bind, draw, ret.
  destruct (random_sample g) as [u g1]. eauto.
Qed.

Lemma shift_note64_spec (max_shift : Q) (idx : nat) (ns : list Note) (g : G) :
  match ns !! idx with
  | Some n =>
      exists shift g',
        Binary64.shift_note max_shift idx ns g
        = Ok (<[idx := set_end
                         (set_start n (py_max 0 (Binary64.add (start n) shift)))
                         (Binary64.add
                            (py_max 0 (Binary64.add (start n) shift))
                            (Binary64.sub (end_ n) (start n)))]> ns, g')
  | None => Binary64.shift_note max_shift idx ns g = Raise IndexError
  end.
Proof.
  unfold Binary64.shift_note, note_at.
  destruct (ns !! idx) as [n|]; [|reflexivity].
  destruct (uniform64_Ok (- max_shift) max_shift g) as (u & Eu).
  exists u, (snd (random_sample g)).
  unfold bind at 1. unfold ret at 1.
  rewrite (bind_Ok _ _ _ _ _ Eu). reflexivity.
Qed.

Lemma stretch_note64_spec (max_change : Q) (idx : nat) (ns : list Note)
  (g : G) :
  match ns !! idx with
  | Some n =>
      exists change g',
        Binary64.stretch_note max_change idx ns g
        = Ok (<[idx := set_end n
                         (Binary64.add (start n)
                            (py_max (fl64 (1 # 10))
                               (Binary64.add
                                  (Binary64.sub (end_ n) (start n))
                                  change)))]> ns, g')
  | None => Binary64.stretch_note max_change idx ns g = Raise IndexError
  end.
Proof.
  unfold Binary64.stretch_note, note_at.
  destruct (ns !! idx) as [n|]; [|reflexivity].
  destruct (uniform64_Ok (- max_change) max_change g) as (u & Eu).
  exists u, (snd (random_sample g)).
  unfold bind at 1. unfold ret at 1.
  rewrite (bind_Ok _ _ _ _ _ Eu). reflexivity.
Qed.
End Steps64.

Section Tracks64.
Context {G : Type} `{RandomState G} `{FloatSqrt}.

Lemma shift_note64_total (max_shift : Q) (idx : nat) (ns : list Note) (t : G) :
  (idx < length ns)%nat ->
  exists ns' t',
    Binary64.shift_note max_shift idx ns t = Ok (ns', t')
    /\ length ns' = length ns.
Proof.
  intros Hi. pose proof (shift_note64_spec max_shift idx ns t) as S.
  destruct (lookup_lt_is_Some_2 ns idx Hi) as [n Hn]. rewrite Hn in S.
  destruct S as (shift & t' & E). eexists _, _. split; [exact E|].
  apply length_insert.
Qed.

Lemma shift_note64_inv (max_shift : Q) (idx : nat) (ns : list Note) (t : G)
  (ns' : list Note) (t' : G) :
  Binary64.shift_note max_shift idx ns t = Ok (ns', t') ->
  exists n n', ns !! idx = Some n /\ shifted64 n n'
               /\ ns' = <[idx := n']> ns.
Proof.
  intros E. pose proof (shift_note64_spec max_shift idx ns t) as S.
  destruct (ns !! idx) as [n|]; [|congruence].
  destruct S as (shift & t2 & E2). rewrite E2 in E. injection E as <- _.
  eexists _, _. split; [reflexivity|]. split; [|reflexivity].
  exists shift. split; reflexivity.
Qed.

Lemma stretch_note64_total (max_change : Q) (idx : nat) (ns : list Note)
  (t : G) :
  (idx < length ns)%nat ->
  exists ns' t',
    Binary64.stretch_note max_change idx ns t = Ok (ns', t')
    /\ length ns' = length ns.
Proof.
  intros Hi. pose proof (stretch_note64_spec max_change idx ns t) as S.
  destruct (lookup_lt_is_Some_2 ns idx Hi) as [n Hn]. rewrite Hn in S.
  destruct S as (change & t' & E). eexists _, _. split; [exact E|].
  apply length_insert.
Qed.

Lemma stretch_note64_inv (max_change : Q) (idx : nat) (ns : list Note)
  (t : G) (ns' : list Note) (t' : G) :
  Binary64.stretch_note max_change idx ns t = Ok (ns', t') ->
  exists n n', ns !! idx = Some n /\ stretched64 n n'
               /\ ns' = <[idx := n']> ns.
Proof.
  intros E. pose proof (stretch_note64_spec max_change idx ns t) as S.
  destruct (ns !! idx) as [n|]; [|congruence].
  destruct S as (change & t2 & E2). rewrite E2 in E. injection E as <- _.
  eexists _, _. split; [reflexivity|]. split; [|reflexivity].
  split; [reflexivity|]. eexists. split; [apply py_max_ge_l|reflexivity].
Qed.

Lemma const64_pitch_total (pr : bool) (std nl : Q) (lo hi : Z)
  (idx : nat) (ns : list Note) (t : G) :
  (0 <= std)%Q -> (0 <= nl)%Q -> (pr = false -> lo <= hi) ->
  (idx < length ns)%nat ->
  exists ns' t',
    Binary64.MusConstPert.randomize_pitch pr lo hi std nl idx ns t
    = Ok (ns', t')
    /\ length ns' = length ns.
Proof.
  intros Hstd Hnl Hlh Hi. unfold Binary64.MusConstPert.randomize_pitch.
  destruct (note_at_Ok ns idx t Hi) as (n & Hn & En).
  rewrite (bind_Ok _ _ _ _ _ En). destruct pr.
  - unfold Binary64.normal.
    assert (Hs : (0 <= Binary64.mul std nl)%Q).
    { apply fl64_nonneg. Lqa.nra. }
    destruct (Qlt_le_dec (Binary64.mul std nl) 0) as [Hc|_]; [Lqa.lra|].
    unfold bind, draw, ret. destruct (standard_normal t) as [z t1].
    eexists _, _. split; [reflexivity|]. apply length_insert.
  - destruct (randint_Ok lo (hi + 1) t ltac:(specialize (Hlh eq_refl); lia))
      as (r & Er & _).
    rewrite (bind_Ok _ _ _ _ _ Er). unfold ret.
    eexists _, _. split; [reflexivity|]. apply length_insert.
Qed.

Lemma const64_pitch_inv (pr : bool) (std nl : Q) (lo hi : Z)
  (idx : nat) (ns : list Note) (t : G) (ns' : list Note) (t' : G) :
  Binary64.MusConstPert.randomize_pitch pr lo hi std nl idx ns t
  = Ok (ns', t') ->
  exists n n', ns !! idx = Some n /\ kept_times n n'
               /\ ns' = <[idx := n']> ns.
Proof.
  unfold Binary64.MusConstPert.randomize_pitch. intros E.
  apply bind_inv in E as (n & g1 & En & E).
  apply note_at_inv in En.
  apply bind_inv in E as (p & g2 & _ & E).
  unfold ret in E. injection E as <- <-.
  exists n, (set_pitch n p). repeat split; auto.
Qed.

Lemma comb_pitch_total (idx : nat) (ns : list Note) (t : G) :
  (idx < length ns)%nat ->
  exists ns' t',
    MusicalPertComb.randomize_pitch idx ns t = Ok (ns', t')
    /\ length ns' = length ns.
Proof.
  intros Hi. unfold MusicalPertComb.randomize_pitch.
  destruct (note_at_Ok ns idx t Hi) as (n & Hn & En).
  rewrite (bind_Ok _ _ _ _ _ En).
  destruct (randint_Ok 21 109 t ltac:(lia)) as (r & Er & _).
  rewrite (bind_Ok _ _ _ _ _ Er). unfold ret.
  eexists _, _. split; [reflexivity|]. apply length_insert.
Qed.

Lemma comb_pitch_kept (idx : nat) (ns : list Note) (t : G)
  (ns' : list Note) (t' : G) :
  MusicalPertComb.randomize_pitch idx ns t = Ok (ns', t') ->
  exists n n', ns !! idx = Some n /\ kept_times n n'
               /\ ns' = <[idx := n']> ns.
Proof.
  unfold MusicalPertComb.randomize_pitch. intros E.
  apply bind_inv in E as (n & g1 & En & E).
  apply note_at_inv in En.
  apply bind_inv in E as (p & g2 & _ & E).
  unfold ret in E. injection E as <- <-.
  exists n, (set_pitch n p). repeat split; auto.
Qed.

(** The three loops in a row, over index arrays as they are drawn. *)
Lemma three_loops64 (pitch_step : nat -> list Note -> M G (list Note))
  (max_shift max_change : Q) (k : Z) (ip it id : list nat)
  (ns0 : list Note) (g : G) :
  (forall idx ns t,
     (idx < length ns)%nat ->
     exists ns' t',
       pitch_step idx ns t = Ok (ns', t') /\ length ns' = length ns) ->
  (forall idx ns t ns' t',
     pitch_step idx ns t = Ok (ns', t') ->
     exists n n', ns !! idx = Some n /\ kept_times n n'
                  /\ ns' = <[idx := n']> ns) ->
  drawn k (length ns0) ip -> drawn k (length ns0) it ->
  drawn k (length ns0) id ->
  exists ns3 g3,
    (let* ns := for_each ip pitch_step ns0 in
     let* ns := for_each it (Binary64.shift_note max_shift) ns in
     for_each id (Binary64.stretch_note max_change) ns) g = Ok (ns3, g3)
    /\ pointwise (note_times64 it id) ns0 ns3.
Proof.
  intros Ptot Pinv (_ & Np & Fp) (_ & Nt & Ft) (_ & Nd & Fd).
  destruct (update_loop_total pitch_step ip ns0 g Ptot Fp)
    as (ns1 & g1 & E1 & L1).
  rewrite (bind_Ok _ _ _ _ _ E1).
  destruct (update_loop_total (Binary64.shift_note max_shift) it ns1 g1)
    as (ns2 & g2 & E2 & L2).
  { intros; apply shift_note64_total; assumption. }
  { rewrite L1. exact Ft. }
  rewrite (bind_Ok _ _ _ _ _ E2).
  destruct (update_loop_total (Binary64.stretch_note max_change) id ns2 g2)
    as (ns3 & g3 & E3 & L3).
  { intros; apply stretch_note64_total; assumption. }
  { rewrite L2, L1. exact Fd. }
  exists ns3, g3. split; [exact E3|].
  pose proof (update_loop_spec kept_times _ _ _ _ _ _ Pinv Np E1)
    as (_ & P1).
  pose proof (update_loop_spec shifted64 _ _ _ _ _ _
                (shift_note64_inv max_shift) Nt E2) as (_ & P2).
  pose proof (update_loop_spec stretched64 _ _ _ _ _ _
                (stretch_note64_inv max_change) Nd E3) as (_ & P3).
  split; [congruence|]. intros j a d Ha Hd.
  destruct (lookup_lt_is_Some_2 ns1 j) as [b Hb].
  { rewrite L1. eapply lookup_lt_is_Some_1. eauto. }
  destruct (lookup_lt_is_Some_2 ns2 j) as [c Hc].
  { rewrite L2, L1. eapply lookup_lt_is_Some_1. eauto. }
  destruct (P1 j a b Ha Hb) as (In1 & Out1).
  destruct (P2 j b c Hb Hc) as (In2 & Out2).
  destruct (P3 j c d Hc Hd) as (In3 & Out3).
  assert (Kab : kept_times a b).
  { destruct (decide (j ∈ ip)) as [Hj|Hj]; [exact (In1 Hj)|].
    rewrite (Out1 Hj). split; reflexivity. }
  destruct Kab as (Sab & Eab).
  assert (Scd : start d = start c).
  { destruct (decide (j ∈ id)) as [Hj|Hj]; [exact (proj1 (In3 Hj))|].
    rewrite (Out3 Hj). reflexivity. }
  unfold note_times64. split; [|split; [|split]].
  - intros Ha0. rewrite Scd.
    destruct (decide (j ∈ it)) as [Hj|Hj].
    + destruct (In2 Hj) as (shift & -> & _). apply py_max_ge_l.
    + rewrite (Out2 Hj), Sab. exact Ha0.
  - intros Hj. destruct (In3 Hj) as (_ & dd & Hdd & Ed).
    rewrite Scd.
    assert (Hfl : (Binary64.add (start c) (fl64 (1 # 10)) <= end_ d)%Q).
    { rewrite Ed. apply fl64_mono. Lqa.lra. }
    split; [exists dd; split; [exact Hdd|exact Ed]|]. split; [exact Hfl|].
    intros Hs0.
    assert (Htenth : (1 # 10 <= fl64 (1 # 10))%Q)
      by (vm_compute; discriminate).
    assert (Hmin : (2 ^ (-1022) <= 1 # 10)%Q) by (vm_compute; discriminate).
    pose proof (fl64_lower (start c + fl64 (1 # 10)) ltac:(Lqa.lra)) as Hl.
    unfold Binary64.add in Hfl.
    assert (Ex : ((start c + fl64 (1 # 10)) * (1 - 2 ^ (-53))
                  == start c + fl64 (1 # 10)
                     - 2 ^ (-53) * (start c + fl64 (1 # 10)))%Q) by ring.
    rewrite Ex in Hl.
    set (P := (2 ^ (-53) * (start c + fl64 (1 # 10)))%Q) in *.
    Lqa.lra.
  - intros Hjd Hjt. rewrite (Out3 Hjd), (Out2 Hjt). split; assumption.
  - intros Hjd Hjt. rewrite (Out3 Hjd).
    destruct (In2 Hjt) as (shift & _ & Ec). rewrite Ec, Sab, Eab.
    reflexivity.
Qed.
End Tracks64.

Section Scores64.
Context {G : Type} `{RandomState G} `{FloatSqrt}.

Lemma track_times64_refl (nl : Q) (i : Instrument) :
  length (notes i) = 0%nat -> (0 <= nl)%Q -> (nl <= 1)%Q ->
  track_times64 nl i i.
Proof.
  intros L Hlo Hhi. exists [], []. cbv zeta. rewrite L.
  destruct (num_notes64_bounds nl 0 Hlo Hhi ltac:(cbn; lia)) as (Hk & _).
  cbv zeta in Hk.
  assert (Ek : Binary64.num_notes_to_randomize nl 0 = 0) by (cbn in Hk; lia).
  rewrite Ek. split; [apply drawn_nil|]. split; [apply drawn_nil|].
  apply pointwise_refl. intros j n. unfold note_times64.
  split; [auto|]. split.
  { intros Hj. apply not_elem_of_nil in Hj. contradiction. }
  split; [auto|].
  intros _ Hj. apply not_elem_of_nil in Hj. contradiction.
Qed.

Lemma np_std_nonneg (xs : list Q) : (0 <= np_std xs)%Q.
Proof. unfold np_std. apply np_sqrt_nonneg. Qed.

Lemma const64_track (nl : Q) (pr : bool) (i : Instrument) (g : G) :
  (0 <= nl)%Q -> (nl <= 1)%Q -> Z.of_nat (length (notes i)) <= 2 ^ 53 ->
  exists i' g',
    Binary64.MusConstPert.randomize_instrument nl pr i g = Ok (i', g')
    /\ track_times64 nl i i'.
Proof.
  intros Hlo Hhi HN. unfold Binary64.MusConstPert.randomize_instrument.
  destruct (Nat.eqb_spec (length (notes i)) 0) as [L0|_].
  { unfold ret. eexists _, _. split; [reflexivity|].
    apply track_times64_refl; assumption. }
  set (range := if pr then get_pitch_range i 12 else (21, 108)).
  assert (Hrange : pr = false -> fst range <= snd range).
  { subst range. intros ->. cbn. lia. }
  destruct range as [lo hi]. cbn [fst snd] in Hrange.
  destruct (num_notes64_bounds nl (length (notes i)) Hlo Hhi HN) as (Hk & _).
  cbv zeta in Hk.
  destruct (draw_indices64_Ok nl (length (notes i)) g Hk)
    as (ip & it & id & g1 & E & Dp & Dt & Dd).
  rewrite (bind_Ok _ _ _ _ _ E).
  destruct (three_loops64
              (Binary64.MusConstPert.randomize_pitch pr lo hi
                 (np_std (map (fun n => inject_Z (pitch n)) (notes i))) nl)
              (Binary64.mul (1 # 2) nl) (Binary64.mul (1 # 2) nl)
              (Binary64.num_notes_to_randomize nl (length (notes i)))
              ip it id (notes i) g1) as (ns & g2 & E2 & Hns);
    [| |exact Dp|exact Dt|exact Dd|].
  { intros idx ns t Hi. apply const64_pitch_total; auto.
    apply np_std_nonneg. }
  { intros idx ns t ns' t'. apply const64_pitch_inv. }
  unfold Binary64.MusConstPert.perturb_notes.
  rewrite (bind_Ok _ _ _ _ _ E2). unfold ret. eexists _, _.
  split; [reflexivity|]. exists it, id. cbv zeta. cbn [notes set_notes].
  split; [exact Dt|]. split; [exact Dd|exact Hns].
Qed.

Lemma comb64_track (nl : Q) (i : Instrument) (g : G) :
  (0 <= nl)%Q -> (nl <= 1)%Q -> Z.of_nat (length (notes i)) <= 2 ^ 53 ->
  exists i' g',
    Binary64.MusicalPertComb.randomize_instrument nl i g = Ok (i', g')
    /\ track_times64 nl i i'.
Proof.
  intros Hlo Hhi HN. unfold Binary64.MusicalPertComb.randomize_instrument.
  destruct (Nat.eqb_spec (length (notes i)) 0) as [L0|_].
  { unfold ret. eexists _, _. split; [reflexivity|].
    apply track_times64_refl; assumption. }
  destruct (num_notes64_bounds nl (length (notes i)) Hlo Hhi HN) as (Hk & _).
  cbv zeta in Hk.
  destruct (draw_indices64_Ok nl (length (notes i)) g Hk)
    as (ip & it & id & g1 & E & Dp & Dt & Dd).
  rewrite (bind_Ok _ _ _ _ _ E).
  destruct (three_loops64 MusicalPertComb.randomize_pitch
              (1 # 2) (1 # 2)
              (Binary64.num_notes_to_randomize nl (length (notes i)))
              ip it id (notes i) g1)
    as (ns & g2 & E2 & Hns); [| |exact Dp|exact Dt|exact Dd|].
  { intros idx ns t Hi. apply comb_pitch_total, Hi. }
  { intros idx ns t ns' t'. apply comb_pitch_kept. }
  unfold Binary64.MusicalPertComb.perturb_notes.
  rewrite (bind_Ok _ _ _ _ _ E2). unfold ret. eexists _, _.
  split; [reflexivity|]. exists it, id. cbv zeta. cbn [notes set_notes].
  split; [exact Dt|]. split; [exact Dd|exact Hns].
Qed.
End Scores64.

(** C2, amended.  For every score whose tracks have at most [2^53] notes
    and every noise level in [0, 1] the randomizers of mus_const_pert.py
    and musical_pert_comb.py, run in float64 arithmetic, return a score in
    which, track by track: an onset that was not negative is not negative;
    [int(noise_level * N)] distinct notes are drawn for the duration loop,
    and each of them ends at the float sum of its onset and some [d] of at
    least 0.1, hence not before [onset + 0.1] as float64 adds them, and
    with an onset that is not negative it lasts at least
    [0.1 - 2^-53 * (onset + 0.1)] seconds; a note drawn neither for the
    start-time nor for the duration loop keeps both its times, so the floor
    is not applied to it; and a note drawn for the start-time loop only
    ends at the float sum of its new onset and its old duration. *)
Theorem randomize_keeps_onset_and_floors_drawn_offsets
  {G : Type} `{RandomState G} `{FloatSqrt}
  (pm : PrettyMIDI) (noise_level : Q) (preserve_range : bool) (g : G) :
  (0 <= noise_level)%Q -> (noise_level <= 1)%Q ->
  Forall (fun i => Z.of_nat (length (notes i)) <= 2 ^ 53) (instruments pm) ->
  (exists pm' g',
     Binary64.MusConstPert.randomize_midi pm noise_level preserve_range g
     = Ok (pm', g')
     /\ Forall2 (track_times64 noise_level)
                (instruments pm) (instruments pm'))
  /\ (exists pm' g',
        Binary64.MusicalPertComb.randomize_midi pm noise_level g
        = Ok (pm', g')
        /\ Forall2 (track_times64 noise_level)
                   (instruments pm) (instruments pm')).
Proof.
  intros Hlo Hhi HN. split.
  - unfold Binary64.MusConstPert.randomize_midi.
    destruct (each_instrument_total
                (fun i => Z.of_nat (length (notes i)) <= 2 ^ 53)
                (track_times64 noise_level)
                (Binary64.MusConstPert.randomize_instrument
                   noise_level preserve_range)
                (instruments pm) g HN) as (tracks & g' & E & HR).
    { intros i t Hi. apply const64_track; assumption. }
    rewrite (bind_Ok _ _ _ _ _ E). unfold ret.
    eexists _, _. split; [reflexivity|exact HR].
  - unfold Binary64.MusicalPertComb.randomize_midi.
    destruct (each_instrument_total
                (fun i => Z.of_nat (length (notes i)) <= 2 ^ 53)
                (track_times64 noise_level)
                (Binary64.MusicalPertComb.randomize_instrument noise_level)
                (instruments pm) g HN) as (tracks & g' & E & HR).
    { intros i t Hi. apply comb64_track; assumption. }
    rewrite (bind_Ok _ _ _ _ _ E). unfold ret.
    eexists _, _. split; [reflexivity|exact HR].
Qed.

Lemma randomize_keeps_onset_and_floors_drawn_offsets_witness :
  (0 <= 1 # 2)%Q /\ (1 # 2 <= 1)%Q
  /\ Forall (fun i => Z.of_nat (length (notes i)) <= 2 ^ 53)
            (instruments (one_track two_notes))
  /\ exists pm' g',
       Binary64.MusConstPert.randomize_midi (one_track two_notes) (1 # 2)
                                            true 0%Z = Ok (pm', g')
       /\ Forall2 (track_times64 (1 # 2))
                  (instruments (one_track two_notes)) (instruments pm').
Proof.
  assert (Ha : (0 <= 1 # 2)%Q) by (unfold Qle; cbn; lia).
  assert (Hb : (1 # 2 <= 1)%Q) by (unfold Qle; cbn; lia).
  assert (Hc : Forall (fun i => Z.of_nat (length (notes i)) <= 2 ^ 53)
                      (instruments (one_track two_notes))).
  { repeat constructor. vm_compute. discriminate. }
  split; [exact Ha|]. split; [exact Hb|]. split; [exact Hc|].
  exact (proj1 (randomize_keeps_onset_and_floors_drawn_offsets
                  (one_track two_notes) (1 # 2) true 0%Z Ha Hb Hc)).
Defined.

(** C2 as stated fails, in two ways.  At noise level 0.5 a one-note track
    has no note drawn, and its 50 ms note is returned as it was.  And at
    noise level 1 the only note of a track is drawn for every loop and can
    still come back lasting less than 0.1 s, whether the difference is
    taken exactly or in float64: its offset is the float sum of its onset
    and 0.1, and the rounding of that sum loses the last bit. *)
Lemma short_note_is_not_floored :
  (Binary64.MusConstPert.randomize_midi (one_track [short_note64]) (1 # 2)
                                        true 0%Z
   = Ok (one_track [short_note64], 3)
   /\ (end_ short_note64 - start short_note64 < 1 # 10)%Q)
  /\ (exists n g',
        Binary64.MusicalPertComb.randomize_midi (one_track [late_note64]) 1
                                                4%Z
        = Ok (one_track [n], g')
        /\ end_ n = Binary64.add (start n) (fl64 (1 # 10))
        /\ (end_ n - start n < 1 # 10)%Q
        /\ (Binary64.sub (end_ n) (start n) < fl64 (1 # 10))%Q).
Proof.
  split.
  - split; vm_compute; reflexivity.
  - eexists _, _. split; [vm_compute; reflexivity|].
    split; [vm_compute; reflexivity|]. split; vm_compute; reflexivity.
Qed.
